(** * QOI, the "Quite OK Image" format: a shallow embedding of [qoi.h]

    The development follows [src/qoi.h]: [qoi_write_32], [qoi_read_32],
    [qoi_encode] and [qoi_decode] are transcribed statement by statement.

    Conventions of the embedding.
    - A C integer is a [Z]; every conversion the C code performs is written
      out: [u8] for a store into an [unsigned char], [s8] for a store into a
      [char] (taken to be signed, two's complement), [u32] for [unsigned int]
      arithmetic and [s32] for the conversion of an [unsigned int] to [int].
      The sizes [max_size] and [px_len] therefore wrap around as in C.
    - The counters [p], [px_pos] and [run] are [int]s that the code only
      increments; their signed overflow is undefined in C and is not
      modelled: they are unbounded here.
    - A byte buffer is a [list Z]; [byte_at buf i] is [buf[i]], and 0 when
      [i] is outside the list.
    - [qoi_encode] and [qoi_decode] give the stores of a call: the buffer
      written by the encoder is the list of the bytes it stores, in order,
      so that [p] is its length, and the buffer written by the decoder is
      the list of the bytes it stores; [QOI_MALLOC] is taken there to grant
      a block that holds them.
    - [qoi_encode_block] and [qoi_decode_block] add the block: its size is
      the [int] [max_size] or [px_len] of the code, [QOI_MALLOC] returns
      [NULL] when that [int] is negative and grants the block otherwise,
      and a store past the end of the block is reported as such.
    - The [for] loops carry their counter [px_pos] and test it against
      [px_len] at every turn; they recurse on a fuel, [px_len] itself, that
      is never exhausted before the test fails ([enc_loop_iter],
      [dec_loop_iter]). *)

From Stdlib Require Import ZArith List Lia Bool.
Import ListNotations.
Local Open Scope Z_scope.

(** ** C integer conversions *)

Definition u8 (x : Z) : Z := x mod 256.
Definition s8 (x : Z) : Z := (x + 128) mod 256 - 128.
Definition u32 (x : Z) : Z := x mod 2 ^ 32.
Definition s32 (x : Z) : Z := (x + 2 ^ 31) mod 2 ^ 32 - 2 ^ 31.

Definition INT_MAX : Z := 2 ^ 31 - 1.

Definition is_byte (x : Z) : Prop := 0 <= x < 256.
Definition bytes_ok (l : list Z) : Prop := Forall is_byte l.

Definition byte_at (buf : list Z) (i : Z) : Z := nth (Z.to_nat i) buf 0.

(** ** Constants of the format *)

Definition QOI_SRGB : Z := 0.
Definition QOI_LINEAR : Z := 1.

Definition QOI_OP_INDEX : Z := 0x00.
Definition QOI_OP_DIFF : Z := 0x40.
Definition QOI_OP_LUMA : Z := 0x80.
Definition QOI_OP_RUN : Z := 0xc0.
Definition QOI_OP_RGB : Z := 0xfe.
Definition QOI_OP_RGBA : Z := 0xff.
Definition QOI_MASK_2 : Z := 0xc0.

(** 'q' << 24 | 'o' << 16 | 'i' << 8 | 'f' *)
Definition QOI_MAGIC : Z :=
  Z.lor (Z.lor (Z.lor (Z.shiftl 113 24) (Z.shiftl 111 16)) (Z.shiftl 105 8)) 102.
Definition QOI_HEADER_SIZE : Z := 14.
Definition QOI_PADDING : Z := 8.

(** ** Data *)

Record qoi_desc := mk_desc
  { width : Z; height : Z; channels : Z; colorspace : Z }.

(** The ranges of the C types of the fields of a [qoi_desc]. *)
Definition desc_wf (d : qoi_desc) : Prop :=
  0 <= width d < 2 ^ 32 /\ 0 <= height d < 2 ^ 32 /\
  is_byte (channels d) /\ is_byte (colorspace d).

(** [qoi_rgba_t]: the struct member [rgba] of the union. *)
Record qoi_rgba_t := mk_rgba { px_r : Z; px_g : Z; px_b : Z; px_a : Z }.

(** The member [v] of the union: the four bytes read as one 32-bit word
    (least significant byte first). *)
Definition rgba_v (c : qoi_rgba_t) : Z :=
  px_r c + px_g c * 2 ^ 8 + px_b c * 2 ^ 16 + px_a c * 2 ^ 24.

Definition rgba_ok (c : qoi_rgba_t) : Prop :=
  is_byte (px_r c) /\ is_byte (px_g c) /\ is_byte (px_b c) /\ is_byte (px_a c).

Definition px_zero : qoi_rgba_t := mk_rgba 0 0 0 0.

Definition QOI_COLOR_HASH (c : qoi_rgba_t) : Z :=
  px_r c * 3 + px_g c * 5 + px_b c * 7 + px_a c * 11.

(** [qoi_rgba_t index[64]] *)
Definition index_t := list qoi_rgba_t.
Definition index_zero : index_t := repeat px_zero 64.
Definition index_get (idx : index_t) (i : Z) : qoi_rgba_t :=
  nth (Z.to_nat i) idx px_zero.

Fixpoint list_set {A} (l : list A) (n : nat) (x : A) : list A :=
  match l, n with
  | [], _ => []
  | _ :: t, O => x :: t
  | h :: t, S m => h :: list_set t m x
  end.

Definition index_set (idx : index_t) (i : Z) (c : qoi_rgba_t) : index_t :=
  list_set idx (Z.to_nat i) c.

(** ** [qoi_write_32] and [qoi_read_32] *)

Definition qoi_write_32 (v : Z) : list Z :=
  [ Z.shiftr (Z.land 0xff000000 v) 24;
    Z.shiftr (Z.land 0x00ff0000 v) 16;
    Z.shiftr (Z.land 0x0000ff00 v) 8;
    Z.land 0x000000ff v ].

Definition qoi_read_32 (bytes : list Z) (p : Z) : Z :=
  let a := byte_at bytes p in
  let b := byte_at bytes (p + 1) in
  let c := byte_at bytes (p + 2) in
  let d := byte_at bytes (p + 3) in
  Z.lor (Z.lor (Z.lor (u32 (Z.shiftl a 24)) (u32 (Z.shiftl b 16)))
               (u32 (Z.shiftl c 8))) d.

(** ** The encoder *)

(** The bytes stored by one group of [bytes[p++] = ...] statements of
    [qoi_encode], labelled with the branch that stores them. *)
Inductive chunk :=
| ChRun (b1 : Z)
| ChIndex (b1 : Z)
| ChDiff (b1 : Z)
| ChLuma (b1 b2 : Z)
| ChRgb (b1 r g b : Z)
| ChRgba (b1 r g b a : Z).

Definition chunk_bytes (c : chunk) : list Z :=
  match c with
  | ChRun b1 => [b1]
  | ChIndex b1 => [b1]
  | ChDiff b1 => [b1]
  | ChLuma b1 b2 => [b1; b2]
  | ChRgb b1 r g b => [b1; r; g; b]
  | ChRgba b1 r g b a => [b1; r; g; b; a]
  end.

Definition chunks_bytes (cs : list chunk) : list Z := flat_map chunk_bytes cs.

(** The variables of the pixel loop of [qoi_encode]. *)
Record enc_state := mk_enc
  { e_index : index_t; e_run : Z; e_px_prev : qoi_rgba_t; e_px : qoi_rgba_t }.

Definition enc_init : enc_state := mk_enc index_zero 0 px_zero px_zero.

(** [px = *(qoi_rgba_t * )(pixels + px_pos)] *)
Definition read_rgba (pixels : list Z) (px_pos : Z) : qoi_rgba_t :=
  mk_rgba (byte_at pixels px_pos) (byte_at pixels (px_pos + 1))
          (byte_at pixels (px_pos + 2)) (byte_at pixels (px_pos + 3)).

(** [px.rgba.r = pixels[px_pos + 0]; ...g...; ...b...]: alpha is kept. *)
Definition read_rgb (px : qoi_rgba_t) (pixels : list Z) (px_pos : Z) : qoi_rgba_t :=
  mk_rgba (byte_at pixels px_pos) (byte_at pixels (px_pos + 1))
          (byte_at pixels (px_pos + 2)) (px_a px).

Definition enc_read (pixels : list Z) (chans px_pos : Z) (px : qoi_rgba_t) : qoi_rgba_t :=
  if chans =? 4 then read_rgba pixels px_pos else read_rgb px pixels px_pos.

Definition run_byte (run : Z) : Z := u8 (Z.lor QOI_OP_RUN (run - 1)).

(** The chunk written for a pixel that differs from the previous one and
    misses the index. *)
Definition enc_literal (px px_prev : qoi_rgba_t) : chunk :=
  if px_a px =? px_a px_prev then
    let vr := s8 (px_r px - px_r px_prev) in
    let vg := s8 (px_g px - px_g px_prev) in
    let vb := s8 (px_b px - px_b px_prev) in
    let vg_r := s8 (vr - vg) in
    let vg_b := s8 (vb - vg) in
    if (-3 <? vr) && (vr <? 2) && (-3 <? vg) && (vg <? 2) &&
       (-3 <? vb) && (vb <? 2) then
      ChDiff (u8 (Z.lor (Z.lor (Z.lor QOI_OP_DIFF (Z.shiftl (vr + 2) 4))
                               (Z.shiftl (vg + 2) 2)) (vb + 2)))
    else if (-9 <? vg_r) && (vg_r <? 8) && (-33 <? vg) && (vg <? 32) &&
            (-9 <? vg_b) && (vg_b <? 8) then
      ChLuma (u8 (Z.lor QOI_OP_LUMA (vg + 32)))
             (u8 (Z.lor (Z.shiftl (vg_r + 8) 4) (vg_b + 8)))
    else
      ChRgb QOI_OP_RGB (px_r px) (px_g px) (px_b px)
  else
    ChRgba QOI_OP_RGBA (px_r px) (px_g px) (px_b px) (px_a px).

(** One turn of the pixel loop: the new values of the variables and the
    chunks written. *)
Definition enc_step (pixels : list Z) (chans px_end px_pos : Z) (st : enc_state)
  : enc_state * list chunk :=
  let px := enc_read pixels chans px_pos (e_px st) in
  let px_prev := e_px_prev st in
  if rgba_v px =? rgba_v px_prev then
    let run := e_run st + 1 in
    if (run =? 62) || (px_pos =? px_end) then
      (mk_enc (e_index st) 0 px px, [ChRun (run_byte run)])
    else
      (mk_enc (e_index st) run px px, [])
  else
    let flush := if 0 <? e_run st then [ChRun (run_byte (e_run st))] else [] in
    let index_pos := QOI_COLOR_HASH px mod 64 in
    if rgba_v (index_get (e_index st) index_pos) =? rgba_v px then
      (mk_enc (e_index st) 0 px px,
       flush ++ [ChIndex (u8 (Z.lor QOI_OP_INDEX index_pos))])
    else
      (mk_enc (index_set (e_index st) index_pos px) 0 px px,
       flush ++ [enc_literal px px_prev]).

(** [for (int px_pos = 0; px_pos < px_len; px_pos += channels) ...] *)
Fixpoint enc_loop (fuel : nat) (pixels : list Z) (chans px_len px_end px_pos : Z)
         (st : enc_state) : enc_state * list chunk :=
  match fuel with
  | O => (st, [])
  | S fuel' =>
      if px_pos <? px_len then
        let '(st1, cs1) := enc_step pixels chans px_end px_pos st in
        let '(st2, cs2) :=
          enc_loop fuel' pixels chans px_len px_end (px_pos + chans) st1 in
        (st2, cs1 ++ cs2)
      else (st, [])
  end.

(** [desc->width * desc->height * k], computed in [unsigned int]. *)
Definition umul3 (w h k : Z) : Z := u32 (u32 (w * h) * k).

(** [int max_size = width * height * (channels + 1) + QOI_HEADER_SIZE + QOI_PADDING] *)
Definition enc_max_size (d : qoi_desc) : Z :=
  s32 (u32 (u32 (umul3 (width d) (height d) (channels d + 1) + QOI_HEADER_SIZE)
            + QOI_PADDING)).

(** [int px_len = desc->width * desc->height * desc->channels] *)
Definition enc_px_len (d : qoi_desc) : Z :=
  s32 (umul3 (width d) (height d) (channels d)).

Definition desc_invalid (d : qoi_desc) : bool :=
  (width d =? 0) || (height d =? 0) ||
  (channels d <? 3) || (4 <? channels d) || (2 <? colorspace d).

Definition enc_header (d : qoi_desc) : list Z :=
  qoi_write_32 QOI_MAGIC ++ qoi_write_32 (width d) ++ qoi_write_32 (height d)
  ++ [channels d; colorspace d].

Definition padding : list Z := repeat 0 (Z.to_nat QOI_PADDING).

(** The chunks written by the pixel loop of [qoi_encode]. *)
Definition enc_chunks (data : list Z) (d : qoi_desc) : list chunk :=
  let px_len := enc_px_len d in
  let px_end := px_len - channels d in
  snd (enc_loop (Z.to_nat px_len) data (channels d) px_len px_end 0 enc_init).

(** [qoi_encode]: [None] is the [NULL] of the argument check; otherwise the
    bytes stored, in order, whose number is [*out_len].  The block of
    [max_size] bytes they are stored into is added by [qoi_encode_block]. *)
Definition qoi_encode (data : list Z) (d : qoi_desc) : option (list Z) :=
  if desc_invalid d then None
  else Some (enc_header d ++ chunks_bytes (enc_chunks data d) ++ padding).

(** ** The decoder *)

(** The variables of the pixel loop of [qoi_decode]; [d_reads] records, in
    order, the indices at which [bytes] has been read. *)
Record dec_state := mk_dec
  { d_p : Z; d_px : qoi_rgba_t; d_index : index_t; d_run : Z; d_reads : list Z }.

(** The body of [else if (p < chunks_len) { ... }]. *)
Definition dec_chunk (bytes : list Z) (st : dec_state) : dec_state :=
  let p := d_p st in
  let px := d_px st in
  let b1 := byte_at bytes p in
  let '(p1, px1, run1, rd) :=
    if b1 =? QOI_OP_RGB then
      (p + 4,
       mk_rgba (byte_at bytes (p + 1)) (byte_at bytes (p + 2))
               (byte_at bytes (p + 3)) (px_a px),
       d_run st, [p; p + 1; p + 2; p + 3])
    else if b1 =? QOI_OP_RGBA then
      (p + 5,
       mk_rgba (byte_at bytes (p + 1)) (byte_at bytes (p + 2))
               (byte_at bytes (p + 3)) (byte_at bytes (p + 4)),
       d_run st, [p; p + 1; p + 2; p + 3; p + 4])
    else if Z.land b1 QOI_MASK_2 =? QOI_OP_INDEX then
      (p + 1, index_get (d_index st) b1, d_run st, [p])
    else if Z.land b1 QOI_MASK_2 =? QOI_OP_DIFF then
      (p + 1,
       mk_rgba (u8 (px_r px + (Z.land (Z.shiftr b1 4) 0x03 - 2)))
               (u8 (px_g px + (Z.land (Z.shiftr b1 2) 0x03 - 2)))
               (u8 (px_b px + (Z.land b1 0x03 - 2)))
               (px_a px),
       d_run st, [p])
    else if Z.land b1 QOI_MASK_2 =? QOI_OP_LUMA then
      let b2 := byte_at bytes (p + 1) in
      let vg := Z.land b1 0x3f - 32 in
      (p + 2,
       mk_rgba (u8 (px_r px + (vg - 8 + Z.land (Z.shiftr b2 4) 0x0f)))
               (u8 (px_g px + vg))
               (u8 (px_b px + (vg - 8 + Z.land b2 0x0f)))
               (px_a px),
       d_run st, [p; p + 1])
    else if Z.land b1 QOI_MASK_2 =? QOI_OP_RUN then
      (p + 1, px, Z.land b1 0x3f, [p])
    else
      (p + 1, px, d_run st, [p]) in
  mk_dec p1 px1 (index_set (d_index st) (QOI_COLOR_HASH px1 mod 64) px1) run1
         (d_reads st ++ rd).

(** One turn of the pixel loop, up to the store into [pixels]. *)
Definition dec_step (bytes : list Z) (chunks_len : Z) (st : dec_state) : dec_state :=
  if 0 <? d_run st then
    mk_dec (d_p st) (d_px st) (d_index st) (d_run st - 1) (d_reads st)
  else if d_p st <? chunks_len then dec_chunk bytes st
  else st.

(** The bytes stored into [pixels] at [px_pos]. *)
Definition px_write (chans : Z) (px : qoi_rgba_t) : list Z :=
  if chans =? 4 then [px_r px; px_g px; px_b px; px_a px]
  else [px_r px; px_g px; px_b px].

(** [for (int px_pos = 0; px_pos < px_len; px_pos += channels) ...] *)
Fixpoint dec_loop (fuel : nat) (bytes : list Z) (chunks_len chans px_len px_pos : Z)
         (st : dec_state) : dec_state * list Z :=
  match fuel with
  | O => (st, [])
  | S fuel' =>
      if px_pos <? px_len then
        let st1 := dec_step bytes chunks_len st in
        let '(st2, out) :=
          dec_loop fuel' bytes chunks_len chans px_len (px_pos + chans) st1 in
        (st2, px_write chans (d_px st1) ++ out)
      else (st, [])
  end.

(** The header fields read by [qoi_decode]. *)
Definition dec_header (bytes : list Z) : Z * qoi_desc :=
  (qoi_read_32 bytes 0,
   mk_desc (qoi_read_32 bytes 4) (qoi_read_32 bytes 8)
           (byte_at bytes 12) (byte_at bytes 13)).

Definition header_reads : list Z := map Z.of_nat (seq 0 14).

Definition dec_init : dec_state := mk_dec 14 px_zero index_zero 0 header_reads.

Definition dec_args_invalid (size chans : Z) : bool :=
  (negb (chans =? 0) && negb (chans =? 3) && negb (chans =? 4)) ||
  (size <? QOI_HEADER_SIZE + QOI_PADDING).

Definition dec_header_invalid (magic : Z) (d : qoi_desc) : bool :=
  (width d =? 0) || (height d =? 0) ||
  (channels d <? 3) || (4 <? channels d) || (2 <? colorspace d) ||
  negb (magic =? QOI_MAGIC).

(** [int px_len = desc->width * desc->height * channels] *)
Definition dec_px_len (d : qoi_desc) (chans : Z) : Z :=
  s32 (umul3 (width d) (height d) chans).

(** The state of the pixel loop of [qoi_decode] at its exit, and the bytes
    stored into [pixels]. *)
Definition dec_run (bytes : list Z) (size : Z) (d : qoi_desc) (chans : Z)
  : dec_state * list Z :=
  let px_len := dec_px_len d chans in
  dec_loop (Z.to_nat px_len) bytes (size - QOI_PADDING) chans px_len 0 dec_init.

(** [qoi_decode]: [None] is the [NULL] of the two checks; otherwise the
    bytes stored into [pixels], in order, and the descriptor filled in.  The
    block of [px_len] bytes they are stored into is added by
    [qoi_decode_block]. *)
Definition qoi_decode (bytes : list Z) (size : Z) (chans : Z)
  : option (list Z * qoi_desc) :=
  if dec_args_invalid size chans then None
  else
    let '(magic, d) := dec_header bytes in
    if dec_header_invalid magic d then None
    else
      let chans := if chans =? 0 then channels d else chans in
      Some (snd (dec_run bytes size d chans), d).

(** ** Auxiliary definitions used in the statements and proofs *)

(** The number of turns of [for (px_pos = 0; px_pos < px_len; px_pos += chans)]. *)
Definition loop_count (px_len chans : Z) : nat :=
  if px_len <=? 0 then O else Z.to_nat ((px_len + chans - 1) / chans).

(** [n] turns of the pixel loop of the decoder. *)
Fixpoint dec_iter (n : nat) (bytes : list Z) (chunks_len chans : Z) (st : dec_state)
  : dec_state * list Z :=
  match n with
  | O => (st, [])
  | S n' =>
      let st1 := dec_step bytes chunks_len st in
      let '(st2, out) := dec_iter n' bytes chunks_len chans st1 in
      (st2, px_write chans (d_px st1) ++ out)
  end.

(** [n] turns of the pixel loop of the encoder. *)
Fixpoint enc_iter (n : nat) (pixels : list Z) (chans px_end px_pos : Z)
         (st : enc_state) : enc_state * list chunk :=
  match n with
  | O => (st, [])
  | S n' =>
      let '(st1, cs1) := enc_step pixels chans px_end px_pos st in
      let '(st2, cs2) := enc_iter n' pixels chans px_end (px_pos + chans) st1 in
      (st2, cs1 ++ cs2)
  end.

(** The values taken by [px] in [n] turns of the pixel loop of the encoder. *)
Fixpoint enc_pxs (n : nat) (pixels : list Z) (chans px_pos : Z) (px : qoi_rgba_t)
  : list qoi_rgba_t :=
  match n with
  | O => []
  | S n' =>
      let px1 := enc_read pixels chans px_pos px in
      px1 :: enc_pxs n' pixels chans (px_pos + chans) px1
  end.

(** The decoder reads a chunk in its next turn. *)
Definition dec_reads_chunk (chunks_len : Z) (st : dec_state) : Prop :=
  d_run st <= 0 /\ d_p st < chunks_len.

(** The first byte of a chunk is decoded as QOI_OP_RUN. *)
Definition is_run_tag (b1 : Z) : Prop :=
  b1 <> QOI_OP_RGB /\ b1 <> QOI_OP_RGBA /\ Z.land b1 QOI_MASK_2 = QOI_OP_RUN.

(** [l] contains [n] consecutive zero bytes. *)
Definition has_zero_run (n : nat) (l : list Z) : Prop :=
  exists l1 l2, l = l1 ++ repeat 0 n ++ l2.

(** The number of zero bytes at the head of a list. *)
Fixpoint lead_zeros (l : list Z) : nat :=
  match l with
  | 0 :: t => S (lead_zeros t)
  | _ => O
  end.

(** The number of zero bytes at the end of a list. *)
Definition trail_zeros (l : list Z) : nat := lead_zeros (rev l).

(** The decoder's [qoi_decode]: the indices of [bytes] read by a call. *)
Definition qoi_decode_reads (bytes : list Z) (size : Z) (chans : Z) : list Z :=
  if dec_args_invalid size chans then []
  else
    let '(magic, d) := dec_header bytes in
    if dec_header_invalid magic d then header_reads
    else
      let chans := if chans =? 0 then channels d else chans in
      d_reads (fst (dec_run bytes size d chans)).

(** What the pixel loop of the encoder maintains. *)
Definition enc_inv (st : enc_state) : Prop :=
  e_px st = e_px_prev st /\
  0 <= e_run st < 62 /\
  length (e_index st) = 64%nat /\
  Forall rgba_ok (e_index st) /\
  rgba_ok (e_px_prev st) /\
  index_get (e_index st) (QOI_COLOR_HASH (e_px_prev st) mod 64) = e_px_prev st.

(** What the pixel loop of the decoder maintains: the slot of the current
    pixel holds the current pixel. *)
Definition dec_inv (st : dec_state) : Prop :=
  length (d_index st) = 64%nat /\
  index_get (d_index st) (QOI_COLOR_HASH (d_px st) mod 64) = d_px st.

(** One more byte is owed to the output while a run is pending. *)
Definition pending (run : Z) : Z := if 0 <? run then 1 else 0.

(** The buffer [bytes] holds the bytes [l] from index [p] on. *)
Definition bytes_at (bytes : list Z) (p : Z) (l : list Z) : Prop :=
  forall k, (k < length l)%nat -> byte_at bytes (p + Z.of_nat k) = nth k l 0.

(** The value assembled by [qoi_read_32] from four bytes. *)
Definition be32 (a b c d : Z) : Z :=
  Z.lor (Z.lor (Z.lor (u32 (Z.shiftl a 24)) (u32 (Z.shiftl b 16)))
               (u32 (Z.shiftl c 8))) d.

(** A 3-channel pixel buffer with the alpha byte [a] added to every pixel. *)
Fixpoint widen_rgb (a : Z) (l : list Z) : list Z :=
  match l with
  | r :: g :: b :: t => r :: g :: b :: a :: widen_rgb a t
  | _ => []
  end.

(** No prefix of [l] ends with eight zero bytes. *)
Definition short_zero_runs (l : list Z) : Prop :=
  forall p s, l = p ++ s -> (trail_zeros p < 8)%nat.

(** [l] has short zero runs and ends with at most [k] zero bytes. *)
Definition zero_tail (k : nat) (l : list Z) : Prop :=
  short_zero_runs l /\ (trail_zeros l <= k)%nat.

(** The zero bytes that may end the encoder's output after a pixel: five
    when the pixel hashes to slot 0 (a QOI_OP_INDEX byte 0x00 may follow
    four zero bytes), four otherwise. *)
Definition zero_budget (px : qoi_rgba_t) : nat :=
  if QOI_COLOR_HASH px mod 64 =? 0 then 5%nat else 4%nat.

(** A 4-channel pixel buffer with the alpha byte of every pixel dropped. *)
Fixpoint narrow_rgba (l : list Z) : list Z :=
  match l with
  | r :: g :: b :: _ :: t => r :: g :: b :: narrow_rgba t
  | _ => []
  end.

(** The state of the encoder's pixel loop at its exit. *)
Definition enc_final (data : list Z) (d : qoi_desc) : enc_state :=
  let px_len := enc_px_len d in
  let px_end := px_len - channels d in
  fst (enc_loop (Z.to_nat px_len) data (channels d) px_len px_end 0 enc_init).

(** The first byte of a chunk carries the tag the decoder dispatches on:
    the two 8-bit tags are tested first, the 2-bit tags under
    [QOI_MASK_2] after them. *)
Definition chunk_tag_ok (c : chunk) : Prop :=
  match c with
  | ChRgb b1 _ _ _ => b1 = QOI_OP_RGB
  | ChRgba b1 _ _ _ _ => b1 = QOI_OP_RGBA
  | ChIndex b1 => Z.land b1 QOI_MASK_2 = QOI_OP_INDEX
  | ChDiff b1 => Z.land b1 QOI_MASK_2 = QOI_OP_DIFF
  | ChLuma b1 _ => Z.land b1 QOI_MASK_2 = QOI_OP_LUMA
  | ChRun b1 =>
      Z.land b1 QOI_MASK_2 = QOI_OP_RUN /\ b1 <> QOI_OP_RGB /\ b1 <> QOI_OP_RGBA
  end.

(** ** The blocks of [QOI_MALLOC] *)

(** What a call makes of the block it allocates. *)
Inductive outcome (A : Type) : Type :=
| Null
| Overrun
| Returned (a : A).

Arguments Null {A}.
Arguments Overrun {A}.
Arguments Returned {A} a.

(** [QOI_MALLOC(block_size)] followed by the stores [stores] at the indices
    0, 1, 2, ... of the block, and the return of [r].  [QOI_MALLOC] takes a
    [size_t]: a negative [int] becomes a size above every object size, for
    which the allocator returns [NULL]; every other size is taken to be
    granted. *)
Definition in_block {A : Type} (block_size : Z) (stores : list Z) (r : A)
  : outcome A :=
  if block_size <? 0 then Null
  else if block_size <? Z.of_nat (length stores) then Overrun
  else Returned r.

(** [qoi_encode] with its block of [max_size] bytes. *)
Definition qoi_encode_block (data : list Z) (d : qoi_desc) : outcome (list Z) :=
  match qoi_encode data d with
  | None => Null
  | Some out => in_block (enc_max_size d) out out
  end.

(** [qoi_decode] with its block of [px_len] bytes. *)
Definition qoi_decode_block (bytes : list Z) (size : Z) (chans0 : Z)
  : outcome (list Z * qoi_desc) :=
  match qoi_decode bytes size chans0 with
  | None => Null
  | Some (out, d) =>
      let chans := if chans0 =? 0 then channels d else chans0 in
      in_block (dec_px_len d chans) out (out, d)
  end.

(** ** The values stored by the encoder, before the store *)

(** The right-hand sides of the stores [bytes[p++] = ...] of the pixel loop
    as the [int]s they are computed in, before their conversion to
    [unsigned char]. *)
Definition run_int (run : Z) : Z := Z.lor QOI_OP_RUN (run - 1).

Definition enc_literal_int (px px_prev : qoi_rgba_t) : chunk :=
  if px_a px =? px_a px_prev then
    let vr := s8 (px_r px - px_r px_prev) in
    let vg := s8 (px_g px - px_g px_prev) in
    let vb := s8 (px_b px - px_b px_prev) in
    let vg_r := s8 (vr - vg) in
    let vg_b := s8 (vb - vg) in
    if (-3 <? vr) && (vr <? 2) && (-3 <? vg) && (vg <? 2) &&
       (-3 <? vb) && (vb <? 2) then
      ChDiff (Z.lor (Z.lor (Z.lor QOI_OP_DIFF (Z.shiftl (vr + 2) 4))
                           (Z.shiftl (vg + 2) 2)) (vb + 2))
    else if (-9 <? vg_r) && (vg_r <? 8) && (-33 <? vg) && (vg <? 32) &&
            (-9 <? vg_b) && (vg_b <? 8) then
      ChLuma (Z.lor QOI_OP_LUMA (vg + 32))
             (Z.lor (Z.shiftl (vg_r + 8) 4) (vg_b + 8))
    else
      ChRgb QOI_OP_RGB (px_r px) (px_g px) (px_b px)
  else
    ChRgba QOI_OP_RGBA (px_r px) (px_g px) (px_b px) (px_a px).

(** The [int]s stored in one turn of the pixel loop. *)
Definition enc_step_int (pixels : list Z) (chans px_end px_pos : Z) (st : enc_state)
  : list chunk :=
  let px := enc_read pixels chans px_pos (e_px st) in
  let px_prev := e_px_prev st in
  if rgba_v px =? rgba_v px_prev then
    let run := e_run st + 1 in
    if (run =? 62) || (px_pos =? px_end) then [ChRun (run_int run)] else []
  else
    let flush := if 0 <? e_run st then [ChRun (run_int (e_run st))] else [] in
    let index_pos := QOI_COLOR_HASH px mod 64 in
    if rgba_v (index_get (e_index st) index_pos) =? rgba_v px then
      flush ++ [ChIndex (Z.lor QOI_OP_INDEX index_pos)]
    else
      flush ++ [enc_literal_int px px_prev].

(** The [int]s stored by the pixel loop, turn after turn. *)
Fixpoint enc_loop_int (fuel : nat) (pixels : list Z) (chans px_len px_end px_pos : Z)
         (st : enc_state) : list chunk :=
  match fuel with
  | O => []
  | S fuel' =>
      if px_pos <? px_len then
        enc_step_int pixels chans px_end px_pos st
        ++ enc_loop_int fuel' pixels chans px_len px_end (px_pos + chans)
             (fst (enc_step pixels chans px_end px_pos st))
      else []
  end.

Definition enc_chunks_int (data : list Z) (d : qoi_desc) : list chunk :=
  let px_len := enc_px_len d in
  let px_end := px_len - channels d in
  enc_loop_int (Z.to_nat px_len) data (channels d) px_len px_end 0 enc_init.

(** ** Scenarios *)

Definition hdr (w h c s : Z) : list Z :=
  [113; 111; 105; 102; 0; 0; 0; w; 0; 0; 0; h; c; s].

Example S1 :
  qoi_encode [0; 0; 0; 0] (mk_desc 1 1 4 0)
  = Some (hdr 1 1 4 0 ++ [0xC0] ++ padding).
Proof. reflexivity. Qed.

Example S3 :
  qoi_encode [10; 20; 30; 255; 10; 20; 30; 255] (mk_desc 1 2 4 0)
  = Some (hdr 1 2 4 0 ++ [0xFF; 10; 20; 30; 255; 0xC0] ++ padding).
Proof. reflexivity. Qed.

Example S4 :
  qoi_encode [10; 20; 30; 255; 11; 19; 31; 255] (mk_desc 1 2 4 0)
  = Some (hdr 1 2 4 0 ++ [0xFF; 10; 20; 30; 255; 0x77] ++ padding).
Proof. reflexivity. Qed.

Example S3_decode :
  qoi_decode (hdr 1 2 4 0 ++ [0xFF; 10; 20; 30; 255; 0xC0] ++ padding) 28 4
  = Some ([10; 20; 30; 255; 10; 20; 30; 255], mk_desc 1 2 4 0).
Proof. reflexivity. Qed.

Example S2 :
  qoi_encode [255; 0; 0; 255] (mk_desc 1 1 4 0)
  = Some (hdr 1 1 4 0 ++ [0xFF; 0xFF; 0; 0; 0xFF] ++ padding).
Proof. reflexivity. Qed.

Example S6 :
  qoi_encode [0; 0; 0; 255] (mk_desc 1 1 4 0)
  = Some (hdr 1 1 4 0 ++ [0xFF; 0; 0; 0; 0xFF] ++ padding).
Proof. reflexivity. Qed.

(** A 3-channel pixel is written as QOI_OP_RGB: alpha stays 0 in the encoder. *)
Example S5_code :
  qoi_encode [10; 20; 30] (mk_desc 1 1 3 0)
  = Some (hdr 1 1 3 0 ++ [0xFE; 10; 20; 30] ++ padding).
Proof. reflexivity. Qed.

(** ** Basic facts *)

Lemma list_set_length {A} (l : list A) n x : length (list_set l n x) = length l.
Proof.
  revert n; induction l as [|h t IH]; intros [|n]; simpl; auto.
Qed.

Lemma list_set_nth_eq {A} (l : list A) n x d :
  (n < length l)%nat -> nth n (list_set l n x) d = x.
Proof.
  revert n; induction l as [|h t IH]; intros [|n]; simpl; intros; try lia; auto.
  apply IH; lia.
Qed.

Lemma list_set_same {A} (l : list A) n d :
  list_set l n (nth n l d) = l.
Proof.
  revert n; induction l as [|h t IH]; intros [|n]; simpl; auto.
  now rewrite IH.
Qed.

Lemma list_set_Forall {A} (P : A -> Prop) (l : list A) n x :
  Forall P l -> P x -> Forall P (list_set l n x).
Proof.
  intros Hl Hx; revert n; induction Hl; intros [|n]; simpl; auto.
Qed.

Lemma hash_pos_range c : 0 <= QOI_COLOR_HASH c mod 64 < 64.
Proof. apply Z.mod_pos_bound; lia. Qed.

Lemma index_get_set idx i c :
  0 <= i < Z.of_nat (length idx) -> index_get (index_set idx i c) i = c.
Proof.
  intros H; unfold index_get, index_set. apply list_set_nth_eq; lia.
Qed.

Lemma index_set_same idx i : index_set idx i (index_get idx i) = idx.
Proof. apply list_set_same. Qed.

Lemma index_set_length idx i c : length (index_set idx i c) = length idx.
Proof. apply list_set_length. Qed.

Lemma rgba_v_inj c1 c2 :
  rgba_ok c1 -> rgba_ok c2 -> rgba_v c1 = rgba_v c2 -> c1 = c2.
Proof.
  destruct c1 as [r1 g1 b1 a1], c2 as [r2 g2 b2 a2].
  unfold rgba_ok, rgba_v, is_byte; simpl; intros H1 H2 H.
  assert (r1 = r2 /\ g1 = g2 /\ b1 = b2 /\ a1 = a2) as (-> & -> & -> & ->) by lia.
  reflexivity.
Qed.

Lemma byte_at_ok l i : bytes_ok l -> is_byte (byte_at l i).
Proof.
  intros H; unfold byte_at.
  destruct (Nat.lt_ge_cases (Z.to_nat i) (length l)) as [Hlt|Hge].
  - unfold bytes_ok in H; rewrite Forall_forall in H. now apply H, nth_In.
  - rewrite nth_overflow by lia. unfold is_byte; lia.
Qed.

Lemma some_inj {A} (x y : A) : Some x = Some y -> x = y.
Proof. intros H. now inversion H. Qed.

(** ** The bytes of the chunks, as the decoder sees them *)

Lemma range_cases (n : nat) (P : Z -> Prop) :
  Forall P (map Z.of_nat (seq 0 n)) -> forall k, 0 <= k < Z.of_nat n -> P k.
Proof.
  intros H k Hk. rewrite Forall_forall in H. apply H.
  replace k with (Z.of_nat (Z.to_nat k)) by lia.
  apply in_map, in_seq. lia.
Qed.

Ltac closed_arith :=
  vm_compute; repeat split; solve [ reflexivity | discriminate ].

Ltac each_below tac :=
  match goal with
  | |- forall k, 0 <= k < Z.of_nat ?n -> @?P k =>
      apply (range_cases n P); cbv [seq map];
      repeat (apply Forall_cons; [ tac | ]); apply Forall_nil
  end.

Ltac all_below := each_below closed_arith.

Lemma run_byte_props run :
  1 <= run <= 62 ->
  run_byte run = 191 + run /\
  Z.land (run_byte run) QOI_MASK_2 = QOI_OP_RUN /\
  Z.land (run_byte run) 0x3f = run - 1.
Proof.
  intros H.
  replace run with ((run - 1) + 1) at 1 2 3 4 by lia.
  assert (Hk : 0 <= run - 1 < Z.of_nat 62) by (simpl; lia).
  revert Hk. generalize (run - 1). clear.
  all_below.
Qed.

Lemma index_byte_props h :
  0 <= h < 64 ->
  u8 (Z.lor QOI_OP_INDEX h) = h /\ Z.land h QOI_MASK_2 = QOI_OP_INDEX.
Proof.
  intros H. assert (Hk : 0 <= h < Z.of_nat 64) by (simpl; lia).
  revert Hk. clear. revert h. all_below.
Qed.

Lemma diff_byte_props vr vg vb :
  -3 < vr < 2 -> -3 < vg < 2 -> -3 < vb < 2 ->
  let b1 := u8 (Z.lor (Z.lor (Z.lor QOI_OP_DIFF (Z.shiftl (vr + 2) 4))
                             (Z.shiftl (vg + 2) 2)) (vb + 2)) in
  64 <= b1 < 128 /\
  Z.land b1 QOI_MASK_2 = QOI_OP_DIFF /\
  Z.land (Z.shiftr b1 4) 0x03 - 2 = vr /\
  Z.land (Z.shiftr b1 2) 0x03 - 2 = vg /\
  Z.land b1 0x03 - 2 = vb.
Proof.
  intros Hr Hg Hb.
  assert (vr = -2 \/ vr = -1 \/ vr = 0 \/ vr = 1) as [-> | [-> | [-> | ->]]] by lia;
  assert (vg = -2 \/ vg = -1 \/ vg = 0 \/ vg = 1) as [-> | [-> | [-> | ->]]] by lia;
  assert (vb = -2 \/ vb = -1 \/ vb = 0 \/ vb = 1) as [-> | [-> | [-> | ->]]] by lia;
  closed_arith.
Qed.

Lemma luma_b1_props k :
  0 <= k < 64 ->
  128 <= u8 (Z.lor QOI_OP_LUMA k) < 192 /\
  Z.land (u8 (Z.lor QOI_OP_LUMA k)) QOI_MASK_2 = QOI_OP_LUMA /\
  Z.land (u8 (Z.lor QOI_OP_LUMA k)) 0x3f = k.
Proof.
  intros H. assert (Hk : 0 <= k < Z.of_nat 64) by (simpl; lia).
  revert Hk. clear. revert k. all_below.
Qed.

Lemma luma_b2_hi x :
  0 <= x < 16 -> forall y, 0 <= y < 16 ->
  Z.land (Z.shiftr (u8 (Z.lor (Z.shiftl x 4) y)) 4) 0x0f = x /\
  Z.land (u8 (Z.lor (Z.shiftl x 4) y)) 0x0f = y.
Proof.
  intros H. assert (Hk : 0 <= x < Z.of_nat 16) by (simpl; lia).
  revert Hk. clear. revert x.
  each_below
    ltac:(intros y Hy; assert (Hk : 0 <= y < Z.of_nat 16) by (simpl; lia);
          revert Hk; clear; revert y; all_below).
Qed.

(** ** The run counter of the encoder *)

Lemma enc_literal_not_run px px_prev b : enc_literal px px_prev <> ChRun b.
Proof.
  unfold enc_literal.
  repeat match goal with |- context [if ?c then _ else _] => destruct c end;
    discriminate.
Qed.

Lemma enc_step_run pixels chans px_end px_pos st :
  0 <= e_run st < 62 ->
  0 <= e_run (fst (enc_step pixels chans px_end px_pos st)) < 62 /\
  forall b, In (ChRun b) (snd (enc_step pixels chans px_end px_pos st)) ->
            exists run, 1 <= run <= 62 /\ b = run_byte run.
Proof.
  intros Hrun. unfold enc_step.
  destruct (rgba_v _ =? rgba_v _).
  - destruct ((e_run st + 1 =? 62) || (px_pos =? px_end)) eqn:E; simpl.
    + split; [lia|]. intros b [Hb|[]]. inversion Hb; subst.
      exists (e_run st + 1). split; [lia|reflexivity].
    + apply orb_false_iff in E as [E _]. apply Z.eqb_neq in E.
      split; [lia|]. intros b [].
  - assert (Hflush : forall b,
               In (ChRun b)
                  (if 0 <? e_run st then [ChRun (run_byte (e_run st))] else []) ->
               exists run, 1 <= run <= 62 /\ b = run_byte run).
    { intros b. destruct (0 <? e_run st) eqn:E; [|intros []].
      apply Z.ltb_lt in E. intros [Hb|[]]. inversion Hb; subst.
      exists (e_run st). split; [lia|reflexivity]. }
    destruct (rgba_v (index_get _ _) =? _); simpl; (split; [lia|]);
      intros b Hb; apply in_app_or in Hb as [Hb|[Hb|[]]]; auto;
      try discriminate.
    exfalso. eapply enc_literal_not_run; eauto.
Qed.

Lemma enc_loop_run fuel pixels chans px_len px_end :
  forall px_pos st,
  0 <= e_run st < 62 ->
  forall b, In (ChRun b) (snd (enc_loop fuel pixels chans px_len px_end px_pos st)) ->
            exists run, 1 <= run <= 62 /\ b = run_byte run.
Proof.
  induction fuel as [|fuel IH]; intros px_pos st Hrun b; simpl; [intros []|].
  destruct (px_pos <? px_len); [|intros []].
  pose proof (enc_step_run pixels chans px_end px_pos st Hrun) as [H1 H2].
  destruct (enc_step pixels chans px_end px_pos st) as [st1 cs1]; simpl in *.
  specialize (IH (px_pos + chans) st1 H1 b).
  destruct (enc_loop fuel pixels chans px_len px_end (px_pos + chans) st1)
    as [st2 cs2]; simpl in *.
  intros Hb. apply in_app_or in Hb as [Hb|Hb]; auto.
Qed.

(** C6. Every QOI_OP_RUN chunk written by the encoder is
    [QOI_OP_RUN | (run - 1)] for a run counter between 1 and 62: its tag bits
    are 11, it is neither 0xFE nor 0xFF, and its low six bits hold a value
    between 0 and 61, never 62 or 63. *)
Theorem encoder_run_chunks_bounded (data : list Z) (d : qoi_desc) (b : Z) :
  In (ChRun b) (enc_chunks data d) ->
  (exists run, 1 <= run <= 62 /\ b = run_byte run /\ Z.land b 0x3f = run - 1) /\
  Z.land b QOI_MASK_2 = QOI_OP_RUN /\
  b <> QOI_OP_RGB /\ b <> QOI_OP_RGBA /\
  0 <= Z.land b 0x3f <= 61.
Proof.
  intros Hb. unfold enc_chunks in Hb.
  apply enc_loop_run in Hb; [|unfold enc_init; simpl; lia].
  destruct Hb as (run & Hr & ->).
  destruct (run_byte_props run Hr) as (Hv & Htag & Hlo).
  split; [exists run; auto|].
  split; [exact Htag|].
  rewrite Hlo, Hv. unfold QOI_OP_RGB, QOI_OP_RGBA. repeat split; lia.
Qed.

Lemma encoder_run_chunks_bounded_witness :
  In (ChRun 0xC0) (enc_chunks [0; 0; 0; 0] (mk_desc 1 1 4 0)) /\
  0 <= Z.land 0xC0 0x3f <= 61.
Proof.
  assert (H : In (ChRun 0xC0) (enc_chunks [0; 0; 0; 0] (mk_desc 1 1 4 0)))
    by (left; reflexivity).
  split; [exact H|].
  apply (encoder_run_chunks_bounded [0; 0; 0; 0] (mk_desc 1 1 4 0) 0xC0 H).
Defined.

(** ** The pixel loop of the decoder *)

Lemma dec_chunk_shape bytes st :
  exists p1 px1 run1 rd,
    dec_chunk bytes st
    = mk_dec p1 px1 (index_set (d_index st) (QOI_COLOR_HASH px1 mod 64) px1)
             run1 (d_reads st ++ rd) /\
    d_p st < p1 <= d_p st + 5 /\
    Forall (fun i => d_p st <= i < d_p st + 5) rd /\
    (is_run_tag (byte_at bytes (d_p st)) -> px1 = d_px st).
Proof.
  unfold dec_chunk, is_run_tag.
  repeat match goal with
         | |- context [if ?c then _ else _] => destruct c eqn:?
         end;
    do 4 eexists; (split; [reflexivity|]);
    (split; [lia|]); (split; [repeat constructor; lia|]);
    intros (H1 & H2 & H3);
    repeat match goal with
           | H : (_ =? _) = true |- _ => apply Z.eqb_eq in H
           end;
    try reflexivity; try congruence;
    unfold QOI_OP_INDEX, QOI_OP_DIFF, QOI_OP_LUMA, QOI_OP_RUN in *; congruence.
Qed.

Lemma dec_chunk_index bytes st :
  d_index (dec_chunk bytes st)
  = index_set (d_index st)
              (QOI_COLOR_HASH (d_px (dec_chunk bytes st)) mod 64)
              (d_px (dec_chunk bytes st)).
Proof.
  destruct (dec_chunk_shape bytes st) as (p1 & px1 & run1 & rd & -> & _).
  reflexivity.
Qed.

Lemma dec_chunk_inv bytes st :
  length (d_index st) = 64%nat -> dec_inv (dec_chunk bytes st).
Proof.
  intros Hlen.
  destruct (dec_chunk_shape bytes st) as (p1 & px1 & run1 & rd & -> & _).
  unfold dec_inv; simpl. rewrite index_set_length. split; [assumption|].
  apply index_get_set. rewrite Hlen. pose proof (hash_pos_range px1). simpl. lia.
Qed.

Lemma dec_chunk_run_index bytes st :
  dec_inv st -> is_run_tag (byte_at bytes (d_p st)) ->
  d_index (dec_chunk bytes st) = d_index st /\ d_px (dec_chunk bytes st) = d_px st.
Proof.
  intros [Hlen Hslot] Htag.
  destruct (dec_chunk_shape bytes st) as (p1 & px1 & run1 & rd & -> & _ & _ & Hpx).
  simpl. rewrite (Hpx Htag). split; [|reflexivity].
  rewrite <- Hslot at 2. apply index_set_same.
Qed.

Lemma dec_step_inv bytes chunks_len st :
  dec_inv st -> dec_inv (dec_step bytes chunks_len st).
Proof.
  intros Hinv. unfold dec_step.
  destruct (0 <? d_run st); [exact Hinv|].
  destruct (d_p st <? chunks_len); [|exact Hinv].
  apply dec_chunk_inv, Hinv.
Qed.

Lemma dec_init_inv : dec_inv dec_init.
Proof. split; reflexivity. Qed.

Lemma dec_iter_inv n bytes chunks_len chans :
  forall st, dec_inv st -> dec_inv (fst (dec_iter n bytes chunks_len chans st)).
Proof.
  induction n as [|n IH]; intros st Hinv; simpl; [assumption|].
  specialize (IH _ (dec_step_inv bytes chunks_len st Hinv)).
  destruct (dec_iter n bytes chunks_len chans (dec_step bytes chunks_len st)).
  exact IH.
Qed.

Lemma dec_loop_inv fuel bytes chunks_len chans px_len :
  forall px_pos st,
  dec_inv st ->
  dec_inv (fst (dec_loop fuel bytes chunks_len chans px_len px_pos st)).
Proof.
  induction fuel as [|fuel IH]; intros px_pos st Hinv; simpl; [assumption|].
  destruct (px_pos <? px_len); [|assumption].
  specialize (IH (px_pos + chans) _ (dec_step_inv bytes chunks_len st Hinv)).
  destruct (dec_loop fuel bytes chunks_len chans px_len (px_pos + chans)
                     (dec_step bytes chunks_len st)).
  exact IH.
Qed.

Lemma dec_step_reads_chunk bytes chunks_len st :
  dec_reads_chunk chunks_len st ->
  dec_step bytes chunks_len st = dec_chunk bytes st.
Proof.
  intros [Hrun Hp]. unfold dec_step.
  destruct (0 <? d_run st) eqn:E; [apply Z.ltb_lt in E; lia|].
  destruct (d_p st <? chunks_len) eqn:E2; [reflexivity|].
  apply Z.ltb_ge in E2; lia.
Qed.

(** C7. After any number of turns of the decoder's pixel loop, and at the
    exit of the loop of [qoi_decode], the index slot of the current pixel
    holds the current pixel; a turn that reads a chunk stores the current
    pixel into its slot, and for a QOI_OP_RUN chunk this store leaves the
    index array as it was. *)
Theorem decoder_index_consistent (n : nat) (bytes : list Z) (chunks_len chans : Z) :
  let st := fst (dec_iter n bytes chunks_len chans dec_init) in
  let st' := dec_step bytes chunks_len st in
  index_get (d_index st) (QOI_COLOR_HASH (d_px st) mod 64) = d_px st /\
  (dec_reads_chunk chunks_len st ->
   d_index st' = index_set (d_index st) (QOI_COLOR_HASH (d_px st') mod 64) (d_px st') /\
   index_get (d_index st') (QOI_COLOR_HASH (d_px st') mod 64) = d_px st') /\
  (dec_reads_chunk chunks_len st -> is_run_tag (byte_at bytes (d_p st)) ->
   d_index st' = d_index st /\ d_px st' = d_px st) /\
  (~ dec_reads_chunk chunks_len st ->
   d_index st' = d_index st /\ d_px st' = d_px st) /\
  (forall size d,
     let st_end := fst (dec_run bytes size d chans) in
     index_get (d_index st_end) (QOI_COLOR_HASH (d_px st_end) mod 64)
     = d_px st_end).
Proof.
  intros st st'.
  assert (Hinv : dec_inv st) by (apply dec_iter_inv, dec_init_inv).
  split; [apply Hinv|]. split; [|split; [|split]].
  - intros Hrd. subst st'. rewrite (dec_step_reads_chunk _ _ _ Hrd).
    split; [apply dec_chunk_index|]. apply dec_chunk_inv, Hinv.
  - intros Hrd Htag. subst st'. rewrite (dec_step_reads_chunk _ _ _ Hrd).
    now apply dec_chunk_run_index.
  - intros Hno. subst st'. unfold dec_step, dec_reads_chunk in *.
    destruct (0 <? d_run st) eqn:E; [split; reflexivity|].
    destruct (d_p st <? chunks_len) eqn:E2; [|split; reflexivity].
    apply Z.ltb_ge in E. apply Z.ltb_lt in E2. lia.
  - intros size d st_end. apply (dec_loop_inv _ _ _ _ _ 0 dec_init dec_init_inv).
Qed.

(** ** The [for] loops run [loop_count] turns *)

Lemma loop_count_done px_len chans : px_len <= 0 -> loop_count px_len chans = O.
Proof.
  intros H. unfold loop_count.
  destruct (px_len <=? 0) eqn:E; [reflexivity|]. apply Z.leb_gt in E; lia.
Qed.

Lemma loop_count_step px_len chans :
  0 < chans -> 0 < px_len ->
  loop_count px_len chans = S (loop_count (px_len - chans) chans).
Proof.
  intros Hc Hl. unfold loop_count.
  destruct (px_len <=? 0) eqn:E; [apply Z.leb_le in E; lia|].
  replace (px_len + chans - 1) with ((px_len - 1) + 1 * chans) by lia.
  rewrite Z.div_add by lia.
  assert (0 <= (px_len - 1) / chans) by (apply Z.div_pos; lia).
  destruct (px_len - chans <=? 0) eqn:E2.
  - apply Z.leb_le in E2. rewrite Z.div_small by lia. reflexivity.
  - apply Z.leb_gt in E2.
    replace (px_len - chans + chans - 1) with (px_len - 1) by lia.
    rewrite Z2Nat.inj_add by lia. simpl. lia.
Qed.

Lemma loop_count_exact n chans :
  0 < chans -> loop_count (Z.of_nat n * chans) chans = n.
Proof.
  intros Hc. induction n as [|n IH].
  - reflexivity.
  - rewrite loop_count_step by nia.
    replace (Z.of_nat (S n) * chans - chans) with (Z.of_nat n * chans) by lia.
    now rewrite IH.
Qed.

Lemma loop_count_fuel px_len chans :
  0 < chans -> (loop_count px_len chans <= Z.to_nat px_len)%nat.
Proof.
  intros Hc. unfold loop_count.
  destruct (px_len <=? 0) eqn:E; [lia|]. apply Z.leb_gt in E.
  apply Z2Nat.inj_le; try lia.
  - apply Z.div_pos; lia.
  - apply Z.div_le_upper_bound; nia.
Qed.

Lemma dec_loop_iter bytes chunks_len chans px_len :
  0 < chans ->
  forall fuel px_pos st,
  (loop_count (px_len - px_pos) chans <= fuel)%nat ->
  dec_loop fuel bytes chunks_len chans px_len px_pos st
  = dec_iter (loop_count (px_len - px_pos) chans) bytes chunks_len chans st.
Proof.
  intros Hc. induction fuel as [|fuel IH]; intros px_pos st Hfuel.
  - assert (E : loop_count (px_len - px_pos) chans = O) by lia.
    rewrite E. reflexivity.
  - simpl. destruct (px_pos <? px_len) eqn:E.
    + apply Z.ltb_lt in E.
      rewrite loop_count_step in * by lia. simpl.
      replace (px_len - px_pos - chans) with (px_len - (px_pos + chans)) in * by lia.
      rewrite IH by lia. reflexivity.
    + apply Z.ltb_ge in E. rewrite loop_count_done by lia. reflexivity.
Qed.

Lemma enc_loop_iter pixels chans px_len px_end :
  0 < chans ->
  forall fuel px_pos st,
  (loop_count (px_len - px_pos) chans <= fuel)%nat ->
  enc_loop fuel pixels chans px_len px_end px_pos st
  = enc_iter (loop_count (px_len - px_pos) chans) pixels chans px_end px_pos st.
Proof.
  intros Hc. induction fuel as [|fuel IH]; intros px_pos st Hfuel.
  - assert (E : loop_count (px_len - px_pos) chans = O) by lia.
    rewrite E. reflexivity.
  - simpl. destruct (px_pos <? px_len) eqn:E.
    + apply Z.ltb_lt in E.
      rewrite loop_count_step in * by lia. simpl.
      replace (px_len - px_pos - chans) with (px_len - (px_pos + chans)) in * by lia.
      destruct (enc_step pixels chans px_end px_pos st) as [st1 cs1].
      rewrite IH by lia. reflexivity.
    + apply Z.ltb_ge in E. rewrite loop_count_done by lia. reflexivity.
Qed.

Lemma dec_run_iter bytes size d chans :
  0 < chans ->
  dec_run bytes size d chans
  = dec_iter (loop_count (dec_px_len d chans) chans) bytes (size - QOI_PADDING)
             chans dec_init.
Proof.
  intros Hc. unfold dec_run.
  rewrite dec_loop_iter; rewrite ?Z.sub_0_r; auto using loop_count_fuel.
Qed.

Lemma dec_iter_app a b bytes chunks_len chans :
  forall st,
  dec_iter (a + b) bytes chunks_len chans st
  = let '(st1, o1) := dec_iter a bytes chunks_len chans st in
    let '(st2, o2) := dec_iter b bytes chunks_len chans st1 in
    (st2, o1 ++ o2).
Proof.
  induction a as [|a IH]; intros st; simpl.
  - destruct (dec_iter b bytes chunks_len chans st); reflexivity.
  - rewrite IH.
    destruct (dec_iter a bytes chunks_len chans (dec_step bytes chunks_len st))
      as [st1 o1].
    destruct (dec_iter b bytes chunks_len chans st1) as [st2 o2].
    now rewrite app_assoc.
Qed.

(** Once the cursor is at [chunks_len], every further turn stores the same
    pixel. *)
Lemma dec_iter_exhausted n bytes chunks_len chans :
  forall st,
  chunks_len <= d_p st ->
  snd (dec_iter n bytes chunks_len chans st)
  = flat_map (px_write chans) (repeat (d_px st) n).
Proof.
  induction n as [|n IH]; intros st Hp; simpl; [reflexivity|].
  assert (Hst : d_p (dec_step bytes chunks_len st) = d_p st /\
                d_px (dec_step bytes chunks_len st) = d_px st).
  { unfold dec_step. destruct (0 <? d_run st); [split; reflexivity|].
    destruct (d_p st <? chunks_len) eqn:E; [|split; reflexivity].
    apply Z.ltb_lt in E; lia. }
  destruct Hst as [H1 H2].
  specialize (IH (dec_step bytes chunks_len st)). rewrite H1, H2 in IH.
  destruct (dec_iter n bytes chunks_len chans (dec_step bytes chunks_len st)).
  simpl in *. rewrite H2, IH by assumption. reflexivity.
Qed.

Lemma dec_valid_channels size chans0 d magic :
  dec_args_invalid size chans0 = false ->
  dec_header_invalid magic d = false ->
  0 < (if chans0 =? 0 then channels d else chans0).
Proof.
  unfold dec_args_invalid, dec_header_invalid. intros Ha Hh.
  repeat (apply orb_false_iff in Hh as [Hh ?]).
  apply orb_false_iff in Ha as [Ha ?].
  destruct (chans0 =? 0) eqn:E0; [lia|].
  destruct (chans0 =? 3) eqn:E3; [lia|].
  destruct (chans0 =? 4) eqn:E4; [lia|]. discriminate.
Qed.

(** ** The reads of the decoder *)

Lemma dec_step_reads bytes size st :
  0 <= d_p st ->
  Forall (fun i => 0 <= i < size) (d_reads st) ->
  0 <= d_p (dec_step bytes (size - QOI_PADDING) st) /\
  Forall (fun i => 0 <= i < size)
         (d_reads (dec_step bytes (size - QOI_PADDING) st)).
Proof.
  intros Hp Hrd. unfold dec_step.
  destruct (0 <? d_run st); [split; assumption|].
  destruct (d_p st <? size - QOI_PADDING) eqn:E; [|split; assumption].
  apply Z.ltb_lt in E. unfold QOI_PADDING in E.
  destruct (dec_chunk_shape bytes st) as (p1 & px1 & run1 & rd & -> & Hp1 & Hin & _).
  simpl. split; [lia|]. apply Forall_app. split; [assumption|].
  eapply Forall_impl; [|exact Hin]. simpl. intros i Hi. lia.
Qed.

Lemma dec_iter_reads n bytes size chans :
  forall st,
  0 <= d_p st ->
  Forall (fun i => 0 <= i < size) (d_reads st) ->
  Forall (fun i => 0 <= i < size)
         (d_reads (fst (dec_iter n bytes (size - QOI_PADDING) chans st))).
Proof.
  induction n as [|n IH]; intros st Hp Hrd; simpl; [assumption|].
  destruct (dec_step_reads bytes size st Hp Hrd) as [Hp1 Hrd1].
  specialize (IH _ Hp1 Hrd1).
  destruct (dec_iter n bytes (size - QOI_PADDING) chans
                     (dec_step bytes (size - QOI_PADDING) st)).
  exact IH.
Qed.

Lemma header_reads_bound size :
  QOI_HEADER_SIZE + QOI_PADDING <= size ->
  Forall (fun i => 0 <= i < size) header_reads.
Proof.
  intros H. unfold QOI_HEADER_SIZE, QOI_PADDING in H.
  unfold header_reads. simpl. repeat constructor; lia.
Qed.

(** C10. A call of the decoder with [size >= 22] reads [bytes] only at
    indices below [size]: the header at 0..13, and a chunk of at most five
    bytes only when the cursor is below [size - 8]. *)
Theorem decoder_reads_in_bounds (bytes : list Z) (size chans0 : Z) :
  QOI_HEADER_SIZE + QOI_PADDING <= size ->
  Forall (fun i => 0 <= i < size) (qoi_decode_reads bytes size chans0).
Proof.
  intros Hsize. unfold qoi_decode_reads.
  destruct (dec_args_invalid size chans0) eqn:Ha; [constructor|].
  destruct (dec_header bytes) as [magic d].
  destruct (dec_header_invalid magic d) eqn:Hh;
    [now apply header_reads_bound|].
  rewrite dec_run_iter by (eapply dec_valid_channels; eauto).
  apply dec_iter_reads; simpl; [lia|now apply header_reads_bound].
Qed.

Lemma decoder_reads_in_bounds_witness :
  Forall (fun i => 0 <= i < 28)
    (qoi_decode_reads
       [113; 111; 105; 102; 0; 0; 0; 1; 0; 0; 0; 2; 4; 0;
        0xFF; 10; 20; 30; 255; 0xC0; 0; 0; 0; 0; 0; 0; 0; 0] 28 4).
Proof.
  apply decoder_reads_in_bounds. vm_compute. discriminate.
Defined.

(** ** The colorspace check *)

Lemma dec_header_colorspace bytes :
  colorspace (snd (dec_header bytes)) = byte_at bytes 13.
Proof. reflexivity. Qed.

(** C3. Both [qoi_encode] and [qoi_decode] test [colorspace > 2]: a
    descriptor or header with colorspace 2 is accepted, and only the values
    above 2 are rejected. *)
Theorem colorspace_two_accepted :
  qoi_encode [0; 0; 0; 0] (mk_desc 1 1 4 2)
  = Some (hdr 1 1 4 2 ++ [0xC0] ++ padding) /\
  qoi_decode (hdr 1 1 4 2 ++ [0xC0] ++ padding) 23 4
  = Some ([0; 0; 0; 0], mk_desc 1 1 4 2) /\
  (forall data d, 2 < colorspace d -> qoi_encode data d = None) /\
  (forall bytes size chans,
     2 < byte_at bytes 13 -> qoi_decode bytes size chans = None).
Proof.
  split; [reflexivity|]. split; [reflexivity|]. split.
  - intros data d Hcs. unfold qoi_encode, desc_invalid.
    apply Z.ltb_lt in Hcs. rewrite Hcs, !orb_true_r. reflexivity.
  - intros bytes size chans Hcs. unfold qoi_decode.
    destruct (dec_args_invalid size chans); [reflexivity|].
    pose proof (dec_header_colorspace bytes) as Hd.
    destruct (dec_header bytes) as [magic d]. simpl in Hd.
    unfold dec_header_invalid. rewrite Hd.
    apply Z.ltb_lt in Hcs. rewrite Hcs, !orb_true_r. reflexivity.
Qed.

(** ** The size of the encoder's output *)

Lemma pending_spec run :
  (0 < run /\ pending run = 1) \/ (run <= 0 /\ pending run = 0).
Proof.
  unfold pending. destruct (0 <? run) eqn:E.
  - apply Z.ltb_lt in E; auto.
  - apply Z.ltb_ge in E; auto.
Qed.

Lemma enc_literal_len px px_prev :
  (length (chunk_bytes (enc_literal px px_prev)) <= 5)%nat /\
  (px_a px = px_a px_prev ->
   (length (chunk_bytes (enc_literal px px_prev)) <= 4)%nat).
Proof.
  unfold enc_literal.
  destruct (px_a px =? px_a px_prev) eqn:E.
  - repeat match goal with |- context [if ?c then _ else _] => destruct c end;
      simpl; lia.
  - apply Z.eqb_neq in E. simpl. split; [lia|]. intros; contradiction.
Qed.

Lemma enc_step_px pixels chans px_end px_pos st :
  e_px (fst (enc_step pixels chans px_end px_pos st))
  = e_px_prev (fst (enc_step pixels chans px_end px_pos st)).
Proof.
  unfold enc_step.
  repeat match goal with |- context [if ?c then _ else _] => destruct c end;
    reflexivity.
Qed.

Lemma chunks_bytes_app cs1 cs2 :
  chunks_bytes (cs1 ++ cs2) = chunks_bytes cs1 ++ chunks_bytes cs2.
Proof. apply flat_map_app. Qed.

Lemma chunks_bytes_one c : chunks_bytes [c] = chunk_bytes c.
Proof. apply app_nil_r. Qed.

Lemma flush_length run b :
  Z.of_nat (length (chunks_bytes (if 0 <? run then [ChRun b] else [])))
  = pending run.
Proof. unfold pending. destruct (0 <? run); reflexivity. Qed.

Lemma enc_step_len pixels chans px_end px_pos st :
  chans = 3 \/ chans = 4 ->
  e_px st = e_px_prev st ->
  0 <= e_run st ->
  0 <= e_run (fst (enc_step pixels chans px_end px_pos st)) /\
  Z.of_nat (length (chunks_bytes (snd (enc_step pixels chans px_end px_pos st))))
  + pending (e_run (fst (enc_step pixels chans px_end px_pos st)))
  <= pending (e_run st) + chans + 1.
Proof.
  intros Hc Hpx Hrun. unfold enc_step.
  set (px := enc_read pixels chans px_pos (e_px st)).
  assert (Hlit : Z.of_nat (length (chunk_bytes (enc_literal px (e_px_prev st))))
                 <= chans + 1).
  { destruct (enc_literal_len px (e_px_prev st)) as [H5 H4].
    destruct Hc as [-> | ->]; [|lia].
    assert (px_a px = px_a (e_px_prev st)) by (rewrite <- Hpx; reflexivity).
    specialize (H4 H). lia. }
  destruct (rgba_v px =? rgba_v (e_px_prev st)).
  - destruct ((e_run st + 1 =? 62) || (px_pos =? px_end));
      cbn [fst snd e_run]; rewrite ?chunks_bytes_one;
      cbn [chunks_bytes flat_map chunk_bytes length];
      destruct (pending_spec (e_run st)) as [[? E1] | [? E1]];
      destruct (pending_spec (e_run st + 1)) as [[? E2] | [? E2]];
      rewrite ?E1, ?E2; change (pending 0) with 0; lia.
  - destruct (rgba_v (index_get _ _) =? rgba_v px); cbn [fst snd e_run];
      rewrite chunks_bytes_app, length_app, Nat2Z.inj_add, flush_length,
        chunks_bytes_one;
      change (pending 0) with 0; cbn [chunk_bytes length];
      destruct (pending_spec (e_run st)) as [[? E1] | [? E1]]; rewrite ?E1; lia.
Qed.

Lemma enc_loop_len fuel pixels chans px_len px_end :
  chans = 3 \/ chans = 4 ->
  forall px_pos st,
  e_px st = e_px_prev st ->
  0 <= e_run st ->
  exists k,
    0 <= k /\ (k = 0 \/ px_pos + (k - 1) * chans < px_len) /\
    Z.of_nat (length (chunks_bytes
                        (snd (enc_loop fuel pixels chans px_len px_end px_pos st))))
    <= pending (e_run st) + k * (chans + 1).
Proof.
  intros Hc. induction fuel as [|fuel IH]; intros px_pos st Hpx Hrun; simpl.
  - exists 0. destruct (pending_spec (e_run st)) as [[? ->] | [? ->]]; simpl; lia.
  - destruct (px_pos <? px_len) eqn:E.
    2:{ exists 0. destruct (pending_spec (e_run st)) as [[? ->] | [? ->]];
        simpl; lia. }
    apply Z.ltb_lt in E.
    pose proof (enc_step_len pixels chans px_end px_pos st Hc Hpx Hrun) as [H1 H2].
    pose proof (enc_step_px pixels chans px_end px_pos st) as H3.
    destruct (enc_step pixels chans px_end px_pos st) as [st1 cs1]; simpl in *.
    destruct (IH (px_pos + chans) st1 H3 H1) as (k & Hk & Hlast & Hlen).
    destruct (enc_loop fuel pixels chans px_len px_end (px_pos + chans) st1)
      as [st2 cs2]; simpl in *.
    exists (k + 1). split; [lia|]. split.
    + right. destruct Hlast as [-> | Hlast]; lia.
    + rewrite chunks_bytes_app, length_app.
      destruct (pending_spec (e_run st1)) as [[? E1] | [? E1]];
        rewrite E1 in *; lia.
Qed.

Lemma s32_le x : 0 <= x -> s32 (u32 x) <= x.
Proof.
  intros H. unfold s32, u32.
  assert (0 <= x mod 2 ^ 32 <= x).
  { split; [apply Z.mod_pos_bound; lia|apply Z.mod_le; lia]. }
  assert (2 ^ 32 = 4294967296) by reflexivity.
  assert (2 ^ 31 = 2147483648) by reflexivity.
  destruct (Z_lt_ge_dec (x mod 2 ^ 32) (2 ^ 31)).
  - rewrite Z.mod_small; lia.
  - replace (x mod 2 ^ 32 + 2 ^ 31)
      with ((x mod 2 ^ 32 - 2 ^ 31) + 1 * 2 ^ 32) by lia.
    rewrite Z.mod_add by lia.
    assert (x mod 2 ^ 32 < 2 ^ 32) by (apply Z.mod_pos_bound; lia).
    rewrite Z.mod_small; lia.
Qed.

Lemma umul3_le w h k : 0 <= w -> 0 <= h -> 0 <= k -> s32 (umul3 w h k) <= w * h * k.
Proof.
  intros Hw Hh Hk. unfold umul3.
  assert (0 <= u32 (w * h) <= w * h).
  { unfold u32. split; [apply Z.mod_pos_bound; lia|apply Z.mod_le; nia]. }
  etransitivity; [apply s32_le; nia|nia].
Qed.

Lemma umul3_exact w h k :
  0 <= w -> 0 <= h -> 0 <= k -> w * h * k < 2 ^ 32 -> 0 < k ->
  umul3 w h k = w * h * k.
Proof.
  intros Hw Hh Hk Hlt Hpos. unfold umul3, u32.
  assert (2 ^ 32 = 4294967296) by reflexivity.
  rewrite (Z.mod_small (w * h)) by nia.
  rewrite Z.mod_small by nia. reflexivity.
Qed.

Lemma s32_small x : 0 <= x <= INT_MAX -> s32 x = x.
Proof.
  unfold s32, INT_MAX. intros H.
  assert (2 ^ 32 = 4294967296) by reflexivity.
  assert (2 ^ 31 = 2147483648) by reflexivity.
  rewrite Z.mod_small; lia.
Qed.

Lemma enc_header_length d : length (enc_header d) = 14%nat.
Proof. reflexivity. Qed.

Lemma desc_valid_fields d :
  desc_invalid d = false ->
  width d <> 0 /\ height d <> 0 /\ (channels d = 3 \/ channels d = 4) /\
  colorspace d <= 2.
Proof.
  unfold desc_invalid. intros H.
  repeat (apply orb_false_iff in H as [H ?]).
  repeat match goal with
         | H : (_ =? _) = false |- _ => apply Z.eqb_neq in H
         | H : (_ <? _) = false |- _ => apply Z.ltb_ge in H
         end.
  repeat split; auto; lia.
Qed.

Lemma enc_output_length data d :
  desc_wf d -> desc_invalid d = false ->
  Z.of_nat (length (enc_header d ++ chunks_bytes (enc_chunks data d) ++ padding))
  <= width d * height d * (channels d + 1) + 14 + 8.
Proof.
  intros (Hw & Hh & Hch & Hcs) Hv.
  destruct (desc_valid_fields d Hv) as (Hw0 & Hh0 & Hc & _).
  rewrite !length_app, enc_header_length. unfold padding; simpl length.
  unfold enc_chunks.
  destruct (enc_loop_len (Z.to_nat (enc_px_len d)) data (channels d)
              (enc_px_len d) (enc_px_len d - channels d) Hc 0 enc_init
              eq_refl ltac:(simpl; lia)) as (k & Hk & Hlast & Hlen).
  simpl in Hlen. unfold pending in Hlen. simpl in Hlen.
  assert (Hpx : enc_px_len d <= width d * height d * channels d).
  { apply umul3_le; lia. }
  assert (Hkb : k <= width d * height d).
  { destruct Hlast as [-> | Hlast]; [nia|].
    assert ((k - 1) * channels d < width d * height d * channels d) by lia.
    assert (0 < channels d) by lia. nia. }
  assert (k * (channels d + 1) <= width d * height d * (channels d + 1)) by nia.
  lia.
Qed.

Lemma enc_max_size_exact d :
  desc_wf d -> desc_invalid d = false ->
  width d * height d * (channels d + 1) + 14 + 8 <= INT_MAX ->
  enc_max_size d = width d * height d * (channels d + 1) + 14 + 8.
Proof.
  intros (Hw & Hh & Hch & Hcs) Hv Hfit.
  destruct (desc_valid_fields d Hv) as (Hw0 & Hh0 & Hc & _).
  unfold enc_max_size, QOI_HEADER_SIZE, QOI_PADDING.
  unfold INT_MAX in Hfit.
  assert (2 ^ 32 = 4294967296) by reflexivity.
  assert (2 ^ 31 = 2147483648) by reflexivity.
  assert (0 <= width d * height d * (channels d + 1)) by nia.
  rewrite umul3_exact by lia.
  unfold u32. rewrite (Z.mod_small (_ + 14)) by lia.
  rewrite Z.mod_small by lia.
  apply s32_small. unfold INT_MAX. lia.
Qed.

Lemma in_block_returned {A : Type} (n : Z) (stores : list Z) (r : A) :
  Z.of_nat (length stores) <= n -> in_block n stores r = Returned r.
Proof.
  intros H. unfold in_block.
  replace (n <? 0) with false by (symmetry; apply Z.ltb_ge; lia).
  replace (n <? Z.of_nat (length stores)) with false
    by (symmetry; apply Z.ltb_ge; lia).
  reflexivity.
Qed.






(** ** Wrap-around arithmetic of the differences *)

Lemma u8_add_s8 p c : is_byte p -> is_byte c -> u8 (p + s8 (c - p)) = c.
Proof.
  unfold is_byte, u8, s8. intros Hp Hc.
  Z.div_mod_to_equations. lia.
Qed.

Lemma u8_add_luma p c vg :
  is_byte p -> is_byte c ->
  u8 (p + (vg - 8 + (s8 (s8 (c - p) - vg) + 8))) = c.
Proof.
  unfold is_byte, u8, s8. intros Hp Hc.
  Z.div_mod_to_equations. lia.
Qed.

(** ** The invariant of the encoder's pixel loop *)

Lemma enc_read_ok pixels chans px_pos px :
  bytes_ok pixels -> rgba_ok px -> rgba_ok (enc_read pixels chans px_pos px).
Proof.
  intros Hb (Hr & Hg & Hbl & Ha). unfold enc_read, read_rgba, read_rgb, rgba_ok.
  destruct (chans =? 4); simpl; auto using byte_at_ok.
Qed.

Lemma index_get_ok idx i : Forall rgba_ok idx -> rgba_ok (index_get idx i).
Proof.
  intros H. unfold index_get.
  destruct (Nat.lt_ge_cases (Z.to_nat i) (length idx)) as [Hlt|Hge].
  - rewrite Forall_forall in H. now apply H, nth_In.
  - rewrite nth_overflow by lia. unfold rgba_ok, is_byte; simpl; lia.
Qed.

Lemma enc_init_inv : enc_inv enc_init.
Proof.
  unfold enc_inv, enc_init; simpl.
  repeat split; try lia; try reflexivity; try (unfold is_byte; lia).
  apply Forall_forall. intros x Hx. apply repeat_spec in Hx. subst.
  unfold rgba_ok, is_byte; simpl; lia.
Qed.

(** The three ways a turn of the encoder's loop can go. *)
Lemma enc_step_cases pixels chans px_end px_pos st :
  bytes_ok pixels -> enc_inv st ->
  let px := enc_read pixels chans px_pos (e_px st) in
  let prev := e_px_prev st in
  let h := QOI_COLOR_HASH px mod 64 in
  (px = prev /\ e_run st + 1 <> 62 /\ px_pos <> px_end /\
   enc_step pixels chans px_end px_pos st
   = (mk_enc (e_index st) (e_run st + 1) px px, []))
  \/
  (px = prev /\
   enc_step pixels chans px_end px_pos st
   = (mk_enc (e_index st) 0 px px, [ChRun (run_byte (e_run st + 1))]))
  \/
  (rgba_v px <> rgba_v prev /\
   exists c,
     enc_step pixels chans px_end px_pos st
     = (mk_enc (index_set (e_index st) h px) 0 px px,
        (if 0 <? e_run st then [ChRun (run_byte (e_run st))] else []) ++ [c]) /\
     ((c = ChIndex (u8 (Z.lor QOI_OP_INDEX h)) /\ index_get (e_index st) h = px)
      \/ c = enc_literal px prev)).
Proof.
  intros Hb (Hpx & Hrun & Hlen & Hidx & Hprev & Hslot) px prev h.
  assert (Hok : rgba_ok px).
  { apply enc_read_ok; [assumption|]. now rewrite Hpx. }
  unfold enc_step. fold px prev h.
  destruct (rgba_v px =? rgba_v prev) eqn:E.
  - apply Z.eqb_eq in E. apply rgba_v_inj in E; [|assumption..].
    destruct ((e_run st + 1 =? 62) || (px_pos =? px_end)) eqn:E2.
    + right; left. auto.
    + left. apply orb_false_iff in E2 as [E2 E3].
      apply Z.eqb_neq in E2, E3. auto.
  - apply Z.eqb_neq in E. right; right. split; [assumption|].
    destruct (rgba_v (index_get (e_index st) h) =? rgba_v px) eqn:E2.
    + apply Z.eqb_eq in E2.
      apply rgba_v_inj in E2; [|now apply index_get_ok|assumption].
      exists (ChIndex (u8 (Z.lor QOI_OP_INDEX h))).
      split; [|left; split; [reflexivity|exact E2]].
      replace (index_set (e_index st) h px) with (e_index st); [reflexivity|].
      rewrite <- E2. symmetry. apply index_set_same.
    + eexists. split; [reflexivity|right; reflexivity].
Qed.

Lemma enc_step_inv pixels chans px_end px_pos st :
  bytes_ok pixels -> enc_inv st ->
  enc_inv (fst (enc_step pixels chans px_end px_pos st)).
Proof.
  intros Hb Hinv.
  pose proof (enc_step_cases pixels chans px_end px_pos st Hb Hinv) as Hc.
  destruct Hinv as (Hpx & Hrun & Hlen & Hidx & Hprev & Hslot).
  assert (Hok : rgba_ok (enc_read pixels chans px_pos (e_px st))).
  { apply enc_read_ok; [assumption|]. now rewrite Hpx. }
  cbv zeta in Hc.
  destruct Hc as [(E & H62 & _ & ->) | [(E & ->) | (_ & c & -> & _)]];
    unfold enc_inv; cbn [fst e_px e_px_prev e_run e_index].
  - rewrite E. repeat split; auto; try lia; apply Hprev.
  - rewrite E. repeat split; auto; try lia; apply Hprev.
  - rewrite index_set_length.
    repeat split; auto; try lia; try apply Hok; try now apply list_set_Forall.
      apply index_get_set. rewrite Hlen.
      pose proof (hash_pos_range (enc_read pixels chans px_pos (e_px st))).
      simpl; lia.
Qed.

(** ** The decoder on the chunks of the encoder *)

Lemma bytes_at_cons bytes p b l :
  bytes_at bytes p (b :: l) -> byte_at bytes p = b /\ bytes_at bytes (p + 1) l.
Proof.
  intros H. split.
  - specialize (H O ltac:(simpl; lia)). simpl in H. now rewrite Z.add_0_r in H.
  - intros k Hk. specialize (H (S k) ltac:(simpl; lia)).
    replace (p + 1 + Z.of_nat k) with (p + Z.of_nat (S k)) by lia. exact H.
Qed.

Lemma bytes_at_app bytes p l1 l2 :
  bytes_at bytes p (l1 ++ l2) ->
  bytes_at bytes p l1 /\ bytes_at bytes (p + Z.of_nat (length l1)) l2.
Proof.
  intros H. split.
  - intros k Hk. rewrite H by (rewrite length_app; lia). now apply app_nth1.
  - intros k Hk.
    replace (p + Z.of_nat (length l1) + Z.of_nat k)
      with (p + Z.of_nat (length l1 + k)) by lia.
    rewrite H by (rewrite length_app; lia). apply app_nth2_plus.
Qed.

Lemma bytes_at_middle pre l post :
  bytes_at (pre ++ l ++ post) (Z.of_nat (length pre)) l.
Proof.
  intros k Hk. unfold byte_at.
  replace (Z.to_nat (Z.of_nat (length pre) + Z.of_nat k))
    with (length pre + k)%nat by lia.
  rewrite app_nth2_plus. now apply app_nth1.
Qed.

Ltac eqb_false :=
  match goal with
  | |- context [?x =? ?y] =>
      let E := fresh "E" in
      destruct (x =? y) eqn:E;
      [ apply Z.eqb_eq in E;
        unfold QOI_OP_RGB, QOI_OP_RGBA, QOI_OP_INDEX, QOI_OP_DIFF, QOI_OP_LUMA,
          QOI_OP_RUN, QOI_MASK_2 in *; exfalso; lia
      | clear E ]
  end.

Lemma dec_chunk_op_index bytes st :
  0 <= byte_at bytes (d_p st) < 64 ->
  dec_chunk bytes st
  = let px1 := index_get (d_index st) (byte_at bytes (d_p st)) in
    mk_dec (d_p st + 1) px1
           (index_set (d_index st) (QOI_COLOR_HASH px1 mod 64) px1)
           (d_run st) (d_reads st ++ [d_p st]).
Proof.
  intros Hb. unfold dec_chunk.
  destruct (index_byte_props _ Hb) as [_ Hm]. rewrite Hm.
  do 2 eqb_false. reflexivity.
Qed.

Lemma dec_chunk_op_diff bytes st :
  64 <= byte_at bytes (d_p st) < 128 ->
  Z.land (byte_at bytes (d_p st)) QOI_MASK_2 = QOI_OP_DIFF ->
  dec_chunk bytes st
  = let b1 := byte_at bytes (d_p st) in
    let px := d_px st in
    let px1 := mk_rgba (u8 (px_r px + (Z.land (Z.shiftr b1 4) 0x03 - 2)))
                       (u8 (px_g px + (Z.land (Z.shiftr b1 2) 0x03 - 2)))
                       (u8 (px_b px + (Z.land b1 0x03 - 2)))
                       (px_a px) in
    mk_dec (d_p st + 1) px1
           (index_set (d_index st) (QOI_COLOR_HASH px1 mod 64) px1)
           (d_run st) (d_reads st ++ [d_p st]).
Proof.
  intros Hb Hm. unfold dec_chunk. rewrite Hm.
  do 2 eqb_false. reflexivity.
Qed.

Lemma dec_chunk_op_luma bytes st :
  128 <= byte_at bytes (d_p st) < 192 ->
  Z.land (byte_at bytes (d_p st)) QOI_MASK_2 = QOI_OP_LUMA ->
  dec_chunk bytes st
  = let b1 := byte_at bytes (d_p st) in
    let b2 := byte_at bytes (d_p st + 1) in
    let vg := Z.land b1 0x3f - 32 in
    let px := d_px st in
    let px1 := mk_rgba (u8 (px_r px + (vg - 8 + Z.land (Z.shiftr b2 4) 0x0f)))
                       (u8 (px_g px + vg))
                       (u8 (px_b px + (vg - 8 + Z.land b2 0x0f)))
                       (px_a px) in
    mk_dec (d_p st + 2) px1
           (index_set (d_index st) (QOI_COLOR_HASH px1 mod 64) px1)
           (d_run st) (d_reads st ++ [d_p st; d_p st + 1]).
Proof.
  intros Hb Hm. unfold dec_chunk. rewrite Hm.
  do 2 eqb_false. reflexivity.
Qed.

Lemma dec_chunk_op_run bytes st :
  192 <= byte_at bytes (d_p st) < 254 ->
  Z.land (byte_at bytes (d_p st)) QOI_MASK_2 = QOI_OP_RUN ->
  dec_chunk bytes st
  = let px1 := d_px st in
    mk_dec (d_p st + 1) px1
           (index_set (d_index st) (QOI_COLOR_HASH px1 mod 64) px1)
           (Z.land (byte_at bytes (d_p st)) 0x3f) (d_reads st ++ [d_p st]).
Proof.
  intros Hb Hm. unfold dec_chunk. rewrite Hm.
  do 2 eqb_false. reflexivity.
Qed.

Lemma dec_chunk_op_rgb bytes st :
  byte_at bytes (d_p st) = QOI_OP_RGB ->
  dec_chunk bytes st
  = let p := d_p st in
    let px1 := mk_rgba (byte_at bytes (p + 1)) (byte_at bytes (p + 2))
                       (byte_at bytes (p + 3)) (px_a (d_px st)) in
    mk_dec (p + 4) px1
           (index_set (d_index st) (QOI_COLOR_HASH px1 mod 64) px1)
           (d_run st) (d_reads st ++ [p; p + 1; p + 2; p + 3]).
Proof. intros Hb. unfold dec_chunk. rewrite Hb. reflexivity. Qed.

Lemma dec_chunk_op_rgba bytes st :
  byte_at bytes (d_p st) = QOI_OP_RGBA ->
  dec_chunk bytes st
  = let p := d_p st in
    let px1 := mk_rgba (byte_at bytes (p + 1)) (byte_at bytes (p + 2))
                       (byte_at bytes (p + 3)) (byte_at bytes (p + 4)) in
    mk_dec (p + 5) px1
           (index_set (d_index st) (QOI_COLOR_HASH px1 mod 64) px1)
           (d_run st) (d_reads st ++ [p; p + 1; p + 2; p + 3; p + 4]).
Proof. intros Hb. unfold dec_chunk. rewrite Hb. reflexivity. Qed.

Ltac split_andb H :=
  repeat match type of H with
         | _ && _ = true => let H' := fresh H in apply andb_true_iff in H as [H H']
         end;
  repeat match goal with
         | H0 : (_ <? _) = true |- _ => apply Z.ltb_lt in H0
         end.

Lemma rgba_eta c : mk_rgba (px_r c) (px_g c) (px_b c) (px_a c) = c.
Proof. now destruct c. Qed.

(** The decoder rebuilds the pixel from a QOI_OP_DIFF, QOI_OP_LUMA,
    QOI_OP_RGB or QOI_OP_RGBA chunk of the encoder. *)
Lemma dec_chunk_literal bytes st px :
  rgba_ok px -> rgba_ok (d_px st) ->
  bytes_at bytes (d_p st) (chunk_bytes (enc_literal px (d_px st))) ->
  let st' := dec_chunk bytes st in
  d_p st' = d_p st + Z.of_nat (length (chunk_bytes (enc_literal px (d_px st)))) /\
  d_px st' = px /\
  d_index st' = index_set (d_index st) (QOI_COLOR_HASH px mod 64) px /\
  d_run st' = d_run st.
Proof.
  intros (Hr & Hg & Hb & Ha) (Hr' & Hg' & Hb' & Ha').
  unfold enc_literal.
  set (vr := s8 (px_r px - px_r (d_px st))).
  set (vg := s8 (px_g px - px_g (d_px st))).
  set (vb := s8 (px_b px - px_b (d_px st))).
  destruct (px_a px =? px_a (d_px st)) eqn:Ea.
  - apply Z.eqb_eq in Ea.
    destruct ((-3 <? vr) && (vr <? 2) && (-3 <? vg) && (vg <? 2) &&
              (-3 <? vb) && (vb <? 2)) eqn:Ed.
    + split_andb Ed.
      destruct (diff_byte_props vr vg vb) as (Hrange & Hm & Hdr & Hdg & Hdb);
        try lia.
      cbn [chunk_bytes]. intros Hat. apply bytes_at_cons in Hat as [Hb1 _].
      rewrite <- Hb1 in Hrange, Hm, Hdr, Hdg, Hdb.
      cbv zeta. rewrite dec_chunk_op_diff by assumption. cbv zeta.
      cbn [d_p d_px d_index d_run length].
      rewrite Hdr, Hdg, Hdb. unfold vr, vg, vb.
      rewrite !u8_add_s8 by assumption. rewrite <- Ea, rgba_eta.
      repeat split; lia.
    + destruct ((-9 <? s8 (vr - vg)) && (s8 (vr - vg) <? 8) && (-33 <? vg) &&
                (vg <? 32) && (-9 <? s8 (vb - vg)) && (s8 (vb - vg) <? 8)) eqn:El.
      * split_andb El.
        destruct (luma_b1_props (vg + 32)) as (Hrange & Hm & Hvg); try lia.
        destruct (luma_b2_hi (s8 (vr - vg) + 8) ltac:(lia)
                             (s8 (vb - vg) + 8) ltac:(lia)) as (Hhi & Hlo).
        cbn [chunk_bytes]. intros Hat.
        apply bytes_at_cons in Hat as [Hb1 Hat].
        apply bytes_at_cons in Hat as [Hb2 _].
        rewrite <- Hb1 in Hrange, Hm, Hvg. rewrite <- Hb2 in Hhi, Hlo.
        cbv zeta. rewrite dec_chunk_op_luma by assumption. cbv zeta.
        cbn [d_p d_px d_index d_run length].
        rewrite Hvg, Hhi, Hlo.
        replace (vg + 32 - 32) with vg by lia.
        unfold vr, vb.
        rewrite !u8_add_luma by assumption.
        replace (u8 (px_g (d_px st) + vg)) with (px_g px)
          by (unfold vg; now rewrite u8_add_s8).
        rewrite <- Ea, rgba_eta. repeat split; lia.
      * cbn [chunk_bytes]. intros Hat.
        apply bytes_at_cons in Hat as [Hb1 Hat].
        apply bytes_at_cons in Hat as [Hb2 Hat].
        apply bytes_at_cons in Hat as [Hb3 Hat].
        apply bytes_at_cons in Hat as [Hb4 _].
        cbv zeta. rewrite dec_chunk_op_rgb by assumption. cbv zeta.
        cbn [d_p d_px d_index d_run length].
        replace (d_p st + 2) with (d_p st + 1 + 1) by lia.
        replace (d_p st + 3) with (d_p st + 1 + 1 + 1) by lia.
        rewrite Hb2, Hb3, Hb4, <- Ea, rgba_eta. repeat split; lia.
  - cbn [chunk_bytes]. intros Hat.
    apply bytes_at_cons in Hat as [Hb1 Hat].
    apply bytes_at_cons in Hat as [Hb2 Hat].
    apply bytes_at_cons in Hat as [Hb3 Hat].
    apply bytes_at_cons in Hat as [Hb4 Hat].
    apply bytes_at_cons in Hat as [Hb5 _].
    cbv zeta. rewrite dec_chunk_op_rgba by assumption. cbv zeta.
    cbn [d_p d_px d_index d_run length].
    replace (d_p st + 2) with (d_p st + 1 + 1) by lia.
    replace (d_p st + 3) with (d_p st + 1 + 1 + 1) by lia.
    replace (d_p st + 4) with (d_p st + 1 + 1 + 1 + 1) by lia.
    rewrite Hb2, Hb3, Hb4, Hb5, rgba_eta. repeat split; lia.
Qed.

(** The decoder on the chunk written for a pixel that differs from the
    previous one. *)
Lemma dec_chunk_new_pixel bytes st px c :
  rgba_ok px -> rgba_ok (d_px st) ->
  (c = ChIndex (u8 (Z.lor QOI_OP_INDEX (QOI_COLOR_HASH px mod 64))) /\
   index_get (d_index st) (QOI_COLOR_HASH px mod 64) = px)
  \/ c = enc_literal px (d_px st) ->
  bytes_at bytes (d_p st) (chunk_bytes c) ->
  let st' := dec_chunk bytes st in
  d_p st' = d_p st + Z.of_nat (length (chunk_bytes c)) /\
  d_px st' = px /\
  d_index st' = index_set (d_index st) (QOI_COLOR_HASH px mod 64) px /\
  d_run st' = d_run st.
Proof.
  intros Hpx Hprev [[-> Hhit] | ->] Hat; [|now apply dec_chunk_literal].
  pose proof (hash_pos_range px) as Hh.
  destruct (index_byte_props _ Hh) as [Hu _].
  cbn [chunk_bytes] in *. rewrite Hu in Hat.
  apply bytes_at_cons in Hat as [Hb1 _].
  cbv zeta. rewrite dec_chunk_op_index by (rewrite Hb1; exact Hh). cbv zeta.
  cbn [d_p d_px d_index d_run length]. rewrite Hb1, Hhit.
  repeat split; lia.
Qed.

(** ** Runs in the decoder *)

Lemma dec_iter_in_run k bytes chunks_len co :
  forall st,
  d_run st = Z.of_nat k ->
  let res := dec_iter k bytes chunks_len co st in
  d_p (fst res) = d_p st /\ d_px (fst res) = d_px st /\
  d_index (fst res) = d_index st /\ d_run (fst res) = 0 /\
  snd res = flat_map (px_write co) (repeat (d_px st) k).
Proof.
  induction k as [|k IH]; intros st Hrun; cbv zeta.
  - simpl. auto.
  - cbn [dec_iter].
    assert (Hstep : dec_step bytes chunks_len st
                    = mk_dec (d_p st) (d_px st) (d_index st) (d_run st - 1)
                             (d_reads st)).
    { unfold dec_step. destruct (0 <? d_run st) eqn:E; [reflexivity|].
      apply Z.ltb_ge in E. lia. }
    rewrite Hstep.
    specialize (IH (mk_dec (d_p st) (d_px st) (d_index st) (d_run st - 1)
                           (d_reads st)) ltac:(simpl; lia)).
    cbv zeta in IH. cbn [d_p d_px d_index d_run] in IH.
    destruct (dec_iter k bytes chunks_len co _) as [st2 out].
    cbn [fst snd] in *. destruct IH as (H1 & H2 & H3 & H4 & H5).
    cbn [d_px repeat flat_map]. rewrite H5. auto.
Qed.

Lemma dec_run_chunk r bytes chunks_len co st :
  1 <= r <= 62 ->
  byte_at bytes (d_p st) = run_byte r ->
  d_run st = 0 -> d_p st < chunks_len -> dec_inv st ->
  let res := dec_iter (Z.to_nat r) bytes chunks_len co st in
  d_p (fst res) = d_p st + 1 /\ d_px (fst res) = d_px st /\
  d_index (fst res) = d_index st /\ d_run (fst res) = 0 /\
  snd res = flat_map (px_write co) (repeat (d_px st) (Z.to_nat r)).
Proof.
  intros Hr Hb Hrun Hp [Hlen Hslot]. cbv zeta.
  destruct (run_byte_props r Hr) as (Hv & Hm & Hlo).
  replace (Z.to_nat r) with (S (Z.to_nat (r - 1))) by lia.
  cbn [dec_iter].
  assert (Hstep : dec_step bytes chunks_len st
                  = mk_dec (d_p st + 1) (d_px st) (d_index st) (r - 1)
                           (d_reads st ++ [d_p st])).
  { rewrite dec_step_reads_chunk by (split; lia).
    rewrite dec_chunk_op_run by (rewrite Hb; first [exact Hm | rewrite Hv; lia]).
    cbv zeta. rewrite Hb, Hlo. f_equal.
    rewrite <- Hslot at 2. apply index_set_same. }
  rewrite Hstep.
  pose proof (dec_iter_in_run (Z.to_nat (r - 1)) bytes chunks_len co
                (mk_dec (d_p st + 1) (d_px st) (d_index st) (r - 1)
                        (d_reads st ++ [d_p st])) ltac:(simpl; lia)) as IH.
  cbv zeta in IH. cbn [d_p d_px d_index d_run] in IH.
  destruct (dec_iter (Z.to_nat (r - 1)) bytes chunks_len co _) as [st2 out].
  cbn [fst snd] in *. destruct IH as (H1 & H2 & H3 & H4 & H5).
  cbn [d_px repeat flat_map]. rewrite H5. auto.
Qed.

Lemma dec_flush run bytes chunks_len co st :
  0 <= run <= 62 ->
  let flush := if 0 <? run then [ChRun (run_byte run)] else [] in
  bytes_at bytes (d_p st) (chunks_bytes flush) ->
  d_run st = 0 ->
  d_p st + Z.of_nat (length (chunks_bytes flush)) <= chunks_len ->
  dec_inv st ->
  let res := dec_iter (Z.to_nat run) bytes chunks_len co st in
  d_p (fst res) = d_p st + Z.of_nat (length (chunks_bytes flush)) /\
  d_px (fst res) = d_px st /\
  d_index (fst res) = d_index st /\ d_run (fst res) = 0 /\
  snd res = flat_map (px_write co) (repeat (d_px st) (Z.to_nat run)).
Proof.
  intros Hr flush. subst flush.
  destruct (0 <? run) eqn:E.
  - apply Z.ltb_lt in E. rewrite chunks_bytes_one. cbn [chunk_bytes length].
    intros Hat Hrun Hp Hinv. apply bytes_at_cons in Hat as [Hb _].
    apply dec_run_chunk; auto; lia.
  - apply Z.ltb_ge in E. assert (run = 0) as -> by lia.
    intros _ Hrun _ _. simpl. rewrite Z.add_0_r. auto.
Qed.

Lemma snd_dec_iter_app a b bytes chunks_len co st :
  snd (dec_iter (a + b) bytes chunks_len co st)
  = snd (dec_iter a bytes chunks_len co st)
    ++ snd (dec_iter b bytes chunks_len co (fst (dec_iter a bytes chunks_len co st))).
Proof.
  rewrite dec_iter_app.
  destruct (dec_iter a bytes chunks_len co st) as [st1 o1]. cbn [fst snd].
  destruct (dec_iter b bytes chunks_len co st1) as [st2 o2]. reflexivity.
Qed.

Lemma repeat_snoc {A} (x : A) n l : repeat x (S n) ++ l = repeat x n ++ x :: l.
Proof.
  induction n as [|n IH]; [reflexivity|].
  change (repeat x (S (S n))) with (x :: repeat x (S n)).
  cbn [app repeat]. now rewrite <- IH.
Qed.

Lemma chunk_bytes_nonempty c : (1 <= length (chunk_bytes c))%nat.
Proof. destruct c; simpl; lia. Qed.

(** ** The decoder follows the encoder *)

(** With [run] pixels of a pending run still owed, the decoder, placed at
    the chunks the encoder writes in its remaining [n] turns, produces the
    pending pixels and then the [n] pixels read by the encoder. *)
Lemma codec_sync pixels chans co px_end chunks_len bytes :
  bytes_ok pixels -> 0 < chans ->
  forall n px_pos es ds,
  enc_inv es ->
  px_pos + Z.of_nat n * chans = px_end + chans ->
  (0 < e_run es -> n <> O) ->
  bytes_at bytes (d_p ds)
           (chunks_bytes (snd (enc_iter n pixels chans px_end px_pos es))) ->
  d_p ds + Z.of_nat (length (chunks_bytes
                               (snd (enc_iter n pixels chans px_end px_pos es))))
  <= chunks_len ->
  d_px ds = e_px_prev es -> d_index ds = e_index es -> d_run ds = 0 ->
  snd (dec_iter (Z.to_nat (e_run es) + n) bytes chunks_len co ds)
  = flat_map (px_write co)
      (repeat (e_px_prev es) (Z.to_nat (e_run es))
       ++ enc_pxs n pixels chans px_pos (e_px es)).
Proof.
  intros Hb Hc.
  induction n as [|n IH];
    intros px_pos es ds Hinv Hpos Hrun0 Hat Hlen Hpx Hidx Hrun.
  - destruct Hinv as (_ & Hr & _).
    assert (e_run es = 0) as ->.
    { destruct (Z.eq_dec (e_run es) 0); [assumption|].
      exfalso. apply Hrun0; [lia|reflexivity]. }
    reflexivity.
  - cbn [enc_iter enc_pxs] in *.
    pose proof (enc_step_cases pixels chans px_end px_pos es Hb Hinv) as Hcases.
    pose proof (enc_step_inv pixels chans px_end px_pos es Hb Hinv) as Hinv1.
    assert (Hdinv : dec_inv ds).
    { destruct Hinv as (_ & _ & Hl & _ & _ & Hs).
      split; rewrite Hidx; [assumption|]. rewrite Hpx. exact Hs. }
    assert (Hokp : rgba_ok (e_px_prev es)) by apply Hinv.
    assert (Hok : rgba_ok (enc_read pixels chans px_pos (e_px es))).
    { apply enc_read_ok; [assumption|].
      destruct Hinv as (-> & _). assumption. }
    assert (Hr : 0 <= e_run es < 62) by apply Hinv.
    cbv zeta in Hcases.
    set (px := enc_read pixels chans px_pos (e_px es)) in *.
    destruct Hcases
      as [(E & H62 & Hend & Hstep) | [(E & Hstep) | (Hne & c & Hstep & Hc')]];
      rewrite Hstep in *; cbn [fst] in Hinv1.
    + specialize (IH (px_pos + chans) _ ds Hinv1).
      destruct (enc_iter n pixels chans px_end (px_pos + chans) _)
        as [st2 cs2].
      cbn [snd app e_run e_px_prev e_px e_index] in *.
      replace (Z.to_nat (e_run es) + S n)%nat
        with (Z.to_nat (e_run es + 1) + n)%nat by lia.
      rewrite IH; try assumption; try lia; try congruence.
      replace (Z.to_nat (e_run es + 1)) with (S (Z.to_nat (e_run es))) by lia.
      rewrite repeat_snoc, <- E. reflexivity.
    + destruct (enc_iter n pixels chans px_end (px_pos + chans) _)
        as [st2 cs2] eqn:Eiter.
      cbn [snd app chunks_bytes flat_map chunk_bytes length] in Hat, Hlen.
      apply bytes_at_cons in Hat as [Hb1 Hat].
      pose proof (dec_run_chunk (e_run es + 1) bytes chunks_len co ds
                    ltac:(lia) Hb1 Hrun ltac:(lia) Hdinv) as Hdec.
      cbv zeta in Hdec. destruct Hdec as (H1 & H2 & H3 & H4 & H5).
      replace (Z.to_nat (e_run es) + S n)%nat
        with (Z.to_nat (e_run es + 1) + n)%nat by lia.
      rewrite snd_dec_iter_app, H5.
      specialize (IH (px_pos + chans) _
                     (fst (dec_iter (Z.to_nat (e_run es + 1)) bytes chunks_len co ds))
                     Hinv1).
      rewrite Eiter in IH.
      cbn [snd e_run e_px_prev e_px e_index] in IH.
      change (Z.to_nat 0 + n)%nat with n in IH.
      rewrite IH; try lia; try congruence.
      * rewrite <- flat_map_app. f_equal. cbn [repeat app].
        replace (Z.to_nat (e_run es + 1)) with (S (Z.to_nat (e_run es))) by lia.
        rewrite Hpx, repeat_snoc, <- E. reflexivity.
      * rewrite H1. exact Hat.
      * rewrite H1. unfold chunks_bytes. lia.
    + destruct (enc_iter n pixels chans px_end (px_pos + chans) _)
        as [st2 cs2] eqn:Eiter.
      cbn [snd] in Hat, Hlen.
      rewrite !chunks_bytes_app, chunks_bytes_one in Hat, Hlen.
      rewrite <- app_assoc in Hat, Hlen.
      apply bytes_at_app in Hat as [Hat1 Hat].
      apply bytes_at_app in Hat as [Hat2 Hat3].
      rewrite !length_app in Hlen.
      pose proof (chunk_bytes_nonempty c) as Hcne.
      pose proof (dec_flush (e_run es) bytes chunks_len co ds ltac:(lia)
                    Hat1 Hrun ltac:(lia) Hdinv) as Hdec.
      cbv zeta in Hdec. destruct Hdec as (H1 & H2 & H3 & H4 & H5).
      set (ds1 := fst (dec_iter (Z.to_nat (e_run es)) bytes chunks_len co ds)) in *.
      replace (Z.to_nat (e_run es) + S n)%nat
        with (Z.to_nat (e_run es) + (1 + n))%nat by lia.
      rewrite snd_dec_iter_app, H5. fold ds1.
      rewrite snd_dec_iter_app.
      assert (Hstep1 : dec_step bytes chunks_len ds1 = dec_chunk bytes ds1).
      { apply dec_step_reads_chunk. split; lia. }
      pose proof (dec_chunk_new_pixel bytes ds1 px c Hok) as Hch.
      rewrite H2, H3, Hpx, Hidx, H1 in Hch.
      specialize (Hch Hokp Hc' Hat2). cbv zeta in Hch.
      destruct Hch as (G1 & G2 & G3 & G4).
      cbn [dec_iter fst snd]. rewrite Hstep1, G2, app_nil_r.
      specialize (IH (px_pos + chans) _ (dec_chunk bytes ds1) Hinv1).
      rewrite Eiter in IH.
      cbn [snd e_run e_px_prev e_px e_index] in IH.
      change (Z.to_nat 0 + n)%nat with n in IH.
      rewrite IH; try lia; try congruence.
      * rewrite Hpx. rewrite !flat_map_app. cbn [repeat app flat_map].
        reflexivity.
      * rewrite G1. exact Hat3.
Qed.

(** ** The header *)

Lemma lor_disjoint_add x y n :
  0 <= n -> x mod 2 ^ n = 0 -> 0 <= y < 2 ^ n -> Z.lor x y = x + y.
Proof.
  intros Hn Hx Hy.
  assert (Hland : Z.land x y = 0).
  { apply Z.bits_inj'. intros m Hm. rewrite Z.land_spec, Z.bits_0.
    destruct (Z_lt_ge_dec m n) as [Hlt|Hge].
    - rewrite <- (Z.mod_pow2_bits_low x n m Hlt), Hx, Z.bits_0. reflexivity.
    - rewrite <- (Z.mod_small y (2 ^ n)) by lia.
      rewrite Z.mod_pow2_bits_high by lia. apply andb_false_r. }
  pose proof (Z.add_lor_land x y). lia.
Qed.

Lemma be32_value a b c d :
  is_byte a -> is_byte b -> is_byte c -> is_byte d ->
  be32 a b c d = a * 2 ^ 24 + b * 2 ^ 16 + c * 2 ^ 8 + d.
Proof.
  unfold is_byte, be32, u32. intros Ha Hb Hc Hd.
  rewrite !Z.shiftl_mul_pow2 by lia.
  assert (P32 : 2 ^ 32 = 4294967296) by reflexivity.
  assert (P24 : 2 ^ 24 = 16777216) by reflexivity.
  assert (P16 : 2 ^ 16 = 65536) by reflexivity.
  assert (P8 : 2 ^ 8 = 256) by reflexivity.
  rewrite !Z.mod_small by lia.
  rewrite (lor_disjoint_add (a * 2 ^ 24) (b * 2 ^ 16) 24); try lia.
  2:{ apply Z.mod_mul. lia. }
  rewrite (lor_disjoint_add _ (c * 2 ^ 8) 16); try lia.
  2:{ replace (a * 2 ^ 24 + b * 2 ^ 16) with ((a * 2 ^ 8 + b) * 2 ^ 16) by lia.
      apply Z.mod_mul. lia. }
  rewrite (lor_disjoint_add _ d 8); try lia.
  replace (a * 2 ^ 24 + b * 2 ^ 16 + c * 2 ^ 8)
    with ((a * 2 ^ 16 + b * 2 ^ 8 + c) * 2 ^ 8) by lia.
  apply Z.mod_mul. lia.
Qed.

Lemma qoi_write_32_value v :
  0 <= v < 2 ^ 32 ->
  qoi_write_32 v
  = [v / 2 ^ 24; (v / 2 ^ 16) mod 2 ^ 8; (v / 2 ^ 8) mod 2 ^ 8; v mod 2 ^ 8].
Proof.
  intros Hv. unfold qoi_write_32.
  rewrite !Z.shiftr_land.
  change (Z.shiftr 0xff000000 24) with (Z.ones 8).
  change (Z.shiftr 0x00ff0000 16) with (Z.ones 8).
  change (Z.shiftr 0x0000ff00 8) with (Z.ones 8).
  change 0x000000ff with (Z.ones 8).
  rewrite !(Z.land_comm (Z.ones 8)), !Z.land_ones by lia.
  rewrite !Z.shiftr_div_pow2 by lia.
  f_equal. apply Z.mod_small.
  assert (P32 : 2 ^ 32 = 2 ^ 24 * 2 ^ 8) by reflexivity.
  split; [apply Z.div_pos; lia|apply Z.div_lt_upper_bound; lia].
Qed.

Lemma qoi_write_32_bytes v : 0 <= v < 2 ^ 32 -> bytes_ok (qoi_write_32 v).
Proof.
  intros Hv. rewrite qoi_write_32_value by assumption.
  assert (P32 : 2 ^ 32 = 2 ^ 24 * 2 ^ 8) by reflexivity.
  assert (P8 : 2 ^ 8 = 256) by reflexivity.
  repeat constructor; unfold is_byte; rewrite <- ?P8;
    try (apply Z.mod_pos_bound; lia);
    try (apply Z.div_pos; lia); apply Z.div_lt_upper_bound; lia.
Qed.

Lemma qoi_read_write_32 v :
  0 <= v < 2 ^ 32 ->
  match qoi_write_32 v with
  | [a; b; c; d] => be32 a b c d = v
  | _ => False
  end.
Proof.
  intros Hv. pose proof (qoi_write_32_bytes v Hv) as Hb.
  rewrite qoi_write_32_value in * by assumption.
  inversion Hb as [|? ? Ha Hb1]; subst. inversion Hb1 as [|? ? Hb2 Hb3]; subst.
  inversion Hb3 as [|? ? Hc Hb4]; subst. inversion Hb4 as [|? ? Hd _]; subst.
  rewrite be32_value by assumption.
  assert (P32 : 2 ^ 32 = 4294967296) by reflexivity.
  assert (P24 : 2 ^ 24 = 16777216) by reflexivity.
  assert (P16 : 2 ^ 16 = 65536) by reflexivity.
  assert (P8 : 2 ^ 8 = 256) by reflexivity.
  rewrite P32, P24, P16, P8 in *. clear - Hv.
  Z.div_mod_to_equations. lia.
Qed.

Lemma dec_header_cons a0 a1 a2 a3 w0 w1 w2 w3 h0 h1 h2 h3 c s rest :
  dec_header (a0 :: a1 :: a2 :: a3 :: w0 :: w1 :: w2 :: w3
              :: h0 :: h1 :: h2 :: h3 :: c :: s :: rest)
  = (be32 a0 a1 a2 a3, mk_desc (be32 w0 w1 w2 w3) (be32 h0 h1 h2 h3) c s).
Proof. reflexivity. Qed.

Lemma header_roundtrip d rest :
  desc_wf d -> dec_header (enc_header d ++ rest) = (QOI_MAGIC, d).
Proof.
  intros (Hw & Hh & _). unfold enc_header.
  pose proof (qoi_read_write_32 (width d) Hw) as Rw.
  pose proof (qoi_read_write_32 (height d) Hh) as Rh.
  change (qoi_write_32 QOI_MAGIC) with [113; 111; 105; 102].
  destruct (qoi_write_32 (width d)) as [|w0 [|w1 [|w2 [|w3 [|]]]]];
    try contradiction.
  destruct (qoi_write_32 (height d)) as [|h0 [|h1 [|h2 [|h3 [|]]]]];
    try contradiction.
  cbn [app]. rewrite dec_header_cons, Rw, Rh.
  destruct d; reflexivity.
Qed.

(** ** Sizes that fit an [int] *)

Lemma chunks_bytes_ok_len pre cb :
  Z.of_nat (length (pre ++ cb ++ padding))
  = Z.of_nat (length pre) + Z.of_nat (length cb) + 8.
Proof. rewrite !length_app. unfold padding. simpl length. lia. Qed.

Lemma px_len_exact w h k :
  0 <= w -> 0 <= h -> 0 < k -> w * h * k <= INT_MAX ->
  s32 (umul3 w h k) = w * h * k.
Proof.
  intros Hw Hh Hk Hfit. unfold INT_MAX in *.
  assert (2 ^ 32 = 4294967296) by reflexivity.
  assert (2 ^ 31 = 2147483648) by reflexivity.
  rewrite umul3_exact by nia. apply s32_small. unfold INT_MAX. nia.
Qed.

(** ** A stream that ends early *)

Lemma qoi_read_32_be32 bytes p :
  qoi_read_32 bytes p
  = be32 (byte_at bytes p) (byte_at bytes (p + 1)) (byte_at bytes (p + 2))
         (byte_at bytes (p + 3)).
Proof. reflexivity. Qed.

Lemma qoi_read_32_range bytes p : bytes_ok bytes -> 0 <= qoi_read_32 bytes p.
Proof.
  intros Hb. rewrite qoi_read_32_be32, be32_value by now apply byte_at_ok.
  pose proof (byte_at_ok bytes p Hb). pose proof (byte_at_ok bytes (p + 1) Hb).
  pose proof (byte_at_ok bytes (p + 2) Hb). pose proof (byte_at_ok bytes (p + 3) Hb).
  unfold is_byte in *. lia.
Qed.

Lemma loop_count_pixels w h k :
  0 <= w -> 0 <= h -> 0 < k -> w * h * k <= INT_MAX ->
  Z.of_nat (loop_count (s32 (umul3 w h k)) k) = w * h.
Proof.
  intros Hw Hh Hk Hfit. rewrite px_len_exact by assumption.
  replace (w * h) with (Z.of_nat (Z.to_nat (w * h))) at 1 by nia.
  rewrite loop_count_exact by assumption. nia.
Qed.

Lemma decode_exhausted (bytes : list Z) (size chans0 : Z) (i : nat) :
  dec_args_invalid size chans0 = false ->
  dec_header_invalid (fst (dec_header bytes)) (snd (dec_header bytes)) = false ->
  let d := snd (dec_header bytes) in
  let chans := if chans0 =? 0 then channels d else chans0 in
  let n := loop_count (dec_px_len d chans) chans in
  let chunks_len := size - QOI_PADDING in
  let st := fst (dec_iter i bytes chunks_len chans dec_init) in
  (i <= n)%nat ->
  chunks_len <= d_p st ->
  qoi_decode bytes size chans0
  = Some (snd (dec_iter i bytes chunks_len chans dec_init)
          ++ flat_map (px_write chans) (repeat (d_px st) (n - i)), d).
Proof.
  intros Ha Hh d chans n chunks_len st Hi Hp.
  pose proof (dec_valid_channels _ _ _ _ Ha Hh) as Hc.
  unfold qoi_decode. rewrite Ha.
  destruct (dec_header bytes) as [magic d0] eqn:Eh. simpl in *.
  rewrite Hh. rewrite dec_run_iter by exact Hc.
  change (if chans0 =? 0 then channels d0 else chans0) with chans.
  change (loop_count (dec_px_len d0 chans) chans) with n.
  replace n with (i + (n - i))%nat at 1 by lia.
  rewrite dec_iter_app.
  pose proof (dec_iter_exhausted (n - i) bytes chunks_len chans st Hp) as Hrest.
  subst st chunks_len.
  destruct (dec_iter i bytes _ chans dec_init) as [st1 o1]. simpl in *.
  destruct (dec_iter (n - i) bytes _ chans st1) as [st2 o2]. simpl in *.
  now rewrite Hrest.
Qed.

Lemma dec_channels_3_4 size chans0 magic d :
  dec_args_invalid size chans0 = false ->
  dec_header_invalid magic d = false ->
  let chans := if chans0 =? 0 then channels d else chans0 in
  chans = 3 \/ chans = 4.
Proof.
  unfold dec_args_invalid, dec_header_invalid. intros Ha Hh.
  repeat (apply orb_false_iff in Hh as [Hh ?]).
  apply orb_false_iff in Ha as [Ha _].
  repeat match goal with
         | H : (_ <? _) = false |- _ => apply Z.ltb_ge in H
         end.
  cbv zeta. destruct (chans0 =? 0) eqn:E0; [lia|].
  destruct (chans0 =? 3) eqn:E3; [apply Z.eqb_eq in E3; now left|].
  destruct (chans0 =? 4) eqn:E4; [apply Z.eqb_eq in E4; now right|].
  discriminate Ha.
Qed.

Lemma dec_iter_length n bytes chunks_len chans :
  chans = 3 \/ chans = 4 ->
  forall st,
  Z.of_nat (length (snd (dec_iter n bytes chunks_len chans st)))
  = Z.of_nat n * chans.
Proof.
  intros Hc. induction n as [|n IH]; intros st; [reflexivity|].
  cbn [dec_iter]. specialize (IH (dec_step bytes chunks_len st)).
  destruct (dec_iter n bytes chunks_len chans (dec_step bytes chunks_len st))
    as [st2 out].
  cbn [snd] in *. rewrite length_app, Nat2Z.inj_add, IH.
  assert (Z.of_nat (length (px_write chans (d_px (dec_step bytes chunks_len st))))
          = chans) by (destruct Hc as [-> | ->]; reflexivity).
  lia.
Qed.

(** The length of what the decoder stores: one pixel per turn. *)
Lemma qoi_decode_length bytes size chans0 out d :
  qoi_decode bytes size chans0 = Some (out, d) ->
  let chans := if chans0 =? 0 then channels d else chans0 in
  d = snd (dec_header bytes) /\ (chans = 3 \/ chans = 4) /\
  Z.of_nat (length out)
  = Z.of_nat (loop_count (dec_px_len d chans) chans) * chans.
Proof.
  intros Hdec chans. unfold qoi_decode in Hdec.
  destruct (dec_args_invalid size chans0) eqn:Ha; [discriminate|].
  destruct (dec_header bytes) as [magic d0].
  destruct (dec_header_invalid magic d0) eqn:Hh; [discriminate|].
  apply some_inj in Hdec.
  assert (d0 = d) by (apply (f_equal snd) in Hdec; exact Hdec). subst d0.
  apply (f_equal fst) in Hdec. cbn [fst] in Hdec.
  pose proof (dec_channels_3_4 _ _ _ _ Ha Hh) as Hc. cbv zeta in Hc.
  fold chans in Hc, Hdec.
  split; [reflexivity|]. split; [exact Hc|].
  rewrite <- Hdec, dec_run_iter by lia. now apply dec_iter_length.
Qed.

(** Within the sizes an [int] can hold the stores of the decoder fill its
    block exactly. *)
Lemma decode_block_returned bytes size chans0 out d :
  bytes_ok bytes ->
  qoi_decode bytes size chans0 = Some (out, d) ->
  let chans := if chans0 =? 0 then channels d else chans0 in
  width d * height d * chans <= INT_MAX ->
  Z.of_nat (loop_count (dec_px_len d chans) chans) = width d * height d /\
  Z.of_nat (length out) = width d * height d * chans /\
  qoi_decode_block bytes size chans0 = Returned (out, d).
Proof.
  intros Hb Hdec chans Hfit.
  destruct (qoi_decode_length _ _ _ _ _ Hdec) as (Hd & Hc & Hlen).
  fold chans in Hc, Hlen.
  assert (Hw : 0 <= width d)
    by (rewrite Hd; unfold dec_header; cbn [snd width];
        apply qoi_read_32_range, Hb).
  assert (Hh : 0 <= height d)
    by (rewrite Hd; unfold dec_header; cbn [snd height];
        apply qoi_read_32_range, Hb).
  assert (Hn : Z.of_nat (loop_count (dec_px_len d chans) chans)
               = width d * height d)
    by (unfold dec_px_len; apply loop_count_pixels; lia).
  assert (Hpx : dec_px_len d chans = width d * height d * chans)
    by (unfold dec_px_len; apply px_len_exact; lia).
  rewrite Hn in Hlen. split; [exact Hn|]. split; [exact Hlen|].
  unfold qoi_decode_block. rewrite Hdec. fold chans.
  apply in_block_returned. lia.
Qed.

(** C8 (amended). When the header is accepted, [width * height * channels]
    fits an [int] and the cursor has reached [size - QOI_PADDING] after [i]
    turns of the pixel loop, the call does not fail: it returns the full
    buffer of [width * height] pixels, in which every remaining pixel
    position holds the pixel computed last. *)
Theorem decoder_truncated_stream (bytes : list Z) (size chans0 : Z) (i : nat) :
  bytes_ok bytes ->
  dec_args_invalid size chans0 = false ->
  dec_header_invalid (fst (dec_header bytes)) (snd (dec_header bytes)) = false ->
  let d := snd (dec_header bytes) in
  let chans := if chans0 =? 0 then channels d else chans0 in
  let n := loop_count (dec_px_len d chans) chans in
  let chunks_len := size - QOI_PADDING in
  let st := fst (dec_iter i bytes chunks_len chans dec_init) in
  width d * height d * chans <= INT_MAX ->
  (i <= n)%nat ->
  chunks_len <= d_p st ->
  Z.of_nat n = width d * height d /\
  qoi_decode_block bytes size chans0
  = Returned (snd (dec_iter i bytes chunks_len chans dec_init)
              ++ flat_map (px_write chans) (repeat (d_px st) (n - i)), d).
Proof.
  intros Hb Ha Hh d chans n chunks_len st Hfit Hi Hp.
  pose proof (decode_exhausted bytes size chans0 i Ha Hh Hi Hp) as Hdec.
  destruct (decode_block_returned _ _ _ _ _ Hb Hdec Hfit) as (Hn & _ & Hblk).
  split; [exact Hn|exact Hblk].
Qed.

Lemma decoder_truncated_stream_witness :
  let bytes := [113; 111; 105; 102; 0; 0; 0; 1; 0; 0; 0; 3; 4; 0;
                0xFF; 10; 20; 30; 255; 0; 0; 0; 0; 0; 0; 0; 0] in
  qoi_decode_block bytes 27 4
  = Returned ([10; 20; 30; 255; 10; 20; 30; 255; 10; 20; 30; 255],
              mk_desc 1 3 4 0).
Proof.
  intros bytes.
  refine (proj2 (decoder_truncated_stream bytes 27 4 1 _ _ _ _ _ _)).
  - repeat constructor; unfold is_byte; lia.
  - reflexivity.
  - reflexivity.
  - vm_compute. discriminate.
  - vm_compute. lia.
  - vm_compute. discriminate.
Defined.

(** C8 (as stated) fails at the 22-byte stream of a 32768 x 32768 image
    decoded with 3 channels: the header passes the validation and the
    cursor is at [size - 8] with every pixel still to be produced, but
    [width * height * 3] is negative as an [int], the allocation of the
    pixel buffer fails and the call returns [NULL]. *)
Lemma decoder_truncated_null :
  let bytes := [113; 111; 105; 102; 0; 0; 128; 0; 0; 0; 128; 0; 3; 0] ++ padding in
  let d := snd (dec_header bytes) in
  bytes_ok bytes /\
  dec_args_invalid 22 3 = false /\
  dec_header_invalid (fst (dec_header bytes)) d = false /\
  d = mk_desc 32768 32768 3 0 /\
  22 - QOI_PADDING <= d_p dec_init /\
  dec_px_len d 3 = -1073741824 /\
  qoi_decode_block bytes 22 3 = Null.
Proof.
  split; [repeat constructor; unfold is_byte; lia|].
  repeat split; vm_compute; discriminate.
Qed.

(** ** Round trip *)

(** Within the sizes an [int] can hold, decoding the encoder's output
    yields the pixels the encoder has read, in the requested format. *)
Lemma roundtrip_pixels data d co :
  desc_wf d -> desc_invalid d = false -> bytes_ok data ->
  co = 3 \/ co = 4 ->
  width d * height d * (channels d + 1) + QOI_HEADER_SIZE + QOI_PADDING <= INT_MAX ->
  width d * height d * co <= INT_MAX ->
  exists enc,
    qoi_encode data d = Some enc /\
    Z.of_nat (length enc) <= INT_MAX /\
    qoi_decode enc (Z.of_nat (length enc)) co
    = Some (flat_map (px_write co)
              (enc_pxs (Z.to_nat (width d * height d)) data (channels d) 0 px_zero),
            d).
Proof.
  intros Hwf Hvalid Hdata Hco Hfit Hfit2.
  pose proof Hwf as (Hw & Hh & Hch & Hcs).
  destruct (desc_valid_fields d Hvalid) as (Hw0 & Hh0 & Hc & Hcs2).
  unfold QOI_HEADER_SIZE, QOI_PADDING in Hfit.
  assert (Hc0 : 0 < channels d) by lia.
  assert (Hco0 : 0 < co) by lia.
  assert (Hwh : 0 < width d * height d) by nia.
  set (n := Z.to_nat (width d * height d)).
  assert (Hn : Z.of_nat n = width d * height d) by (unfold n; lia).
  assert (Hpxl : enc_px_len d = Z.of_nat n * channels d).
  { unfold enc_px_len.
    rewrite px_len_exact; [now rewrite Hn|lia|lia|lia|unfold INT_MAX in *; nia]. }
  assert (Hdpxl : dec_px_len d co = Z.of_nat n * co).
  { unfold dec_px_len.
    rewrite px_len_exact; [now rewrite Hn|lia|lia|lia|lia]. }
  assert (Hchunks : enc_chunks data d
                    = snd (enc_iter n data (channels d)
                                    (enc_px_len d - channels d) 0 enc_init)).
  { unfold enc_chunks. rewrite enc_loop_iter; try assumption.
    - rewrite Z.sub_0_r, Hpxl, loop_count_exact by assumption. reflexivity.
    - rewrite Z.sub_0_r. now apply loop_count_fuel. }
  unfold qoi_encode. rewrite Hvalid.
  set (cb := chunks_bytes (enc_chunks data d)).
  exists (enc_header d ++ cb ++ padding).
  split; [reflexivity|].
  pose proof (chunks_bytes_ok_len (enc_header d) cb) as Hlen.
  rewrite enc_header_length in Hlen.
  pose proof (enc_output_length data d Hwf Hvalid) as Hb1. fold cb in Hb1.
  split; [lia|].
  unfold qoi_decode.
  assert (Hargs : dec_args_invalid (Z.of_nat (length (enc_header d ++ cb ++ padding))) co
                  = false).
  { unfold dec_args_invalid, QOI_HEADER_SIZE, QOI_PADDING.
    apply orb_false_iff. split.
    - destruct Hco as [-> | ->]; reflexivity.
    - apply Z.ltb_ge. lia. }
  rewrite Hargs, header_roundtrip by assumption.
  assert (Hhdr : dec_header_invalid QOI_MAGIC d = false).
  { unfold dec_header_invalid. unfold desc_invalid in Hvalid.
    rewrite Hvalid. reflexivity. }
  rewrite Hhdr.
  assert (Hco' : (if co =? 0 then channels d else co) = co).
  { destruct (co =? 0) eqn:E; [apply Z.eqb_eq in E; lia|reflexivity]. }
  rewrite Hco', dec_run_iter by assumption.
  rewrite Hdpxl, loop_count_exact by assumption.
  f_equal. f_equal.
  pose proof (codec_sync data (channels d) co (enc_px_len d - channels d)
                (Z.of_nat (length (enc_header d ++ cb ++ padding)) - QOI_PADDING)
                (enc_header d ++ cb ++ padding) Hdata Hc0 n 0 enc_init dec_init
                enc_init_inv) as Hsync.
  rewrite <- Hchunks in Hsync. fold cb in Hsync.
  apply Hsync.
  - lia.
  - simpl. lia.
  - change (d_p dec_init) with (Z.of_nat (length (enc_header d))).
    apply bytes_at_middle.
  - unfold QOI_PADDING. simpl d_p. lia.
  - reflexivity.
  - reflexivity.
  - reflexivity.
Qed.

Lemma pxs_rgba_bytes n :
  forall pre rest px,
  length rest = (4 * n)%nat ->
  flat_map (px_write 4)
           (enc_pxs n (pre ++ rest) 4 (Z.of_nat (length pre)) px) = rest.
Proof.
  induction n as [|n IH]; intros pre rest px Hlen.
  - destruct rest; [reflexivity|discriminate].
  - destruct rest as [|r [|g [|b [|a rest]]]]; try (simpl in Hlen; lia).
    cbn [enc_pxs flat_map]. unfold enc_read. cbn [Z.eqb Pos.eqb].
    unfold read_rgba.
    pose proof (bytes_at_middle pre [r; g; b; a] rest) as Hat.
    cbn [app] in Hat.
    apply bytes_at_cons in Hat as [-> Hat]. apply bytes_at_cons in Hat as [H1 Hat].
    apply bytes_at_cons in Hat as [H2 Hat]. apply bytes_at_cons in Hat as [H3 _].
    replace (Z.of_nat (length pre) + 2) with (Z.of_nat (length pre) + 1 + 1) by lia.
    replace (Z.of_nat (length pre) + 3)
      with (Z.of_nat (length pre) + 1 + 1 + 1) by lia.
    rewrite H1, H2, H3. cbn [px_write Z.eqb Pos.eqb px_r px_g px_b px_a app].
    do 4 f_equal.
    specialize (IH (pre ++ [r; g; b; a]) rest (mk_rgba r g b a)).
    rewrite <- app_assoc in IH. cbn [app] in IH.
    rewrite length_app in IH. cbn [length] in IH.
    replace (Z.of_nat (length pre) + 4) with (Z.of_nat (length pre + 4)) by lia.
    apply IH. simpl in Hlen. lia.
Qed.

Lemma pxs_rgb_bytes n :
  forall pre rest px,
  length rest = (3 * n)%nat ->
  flat_map (px_write 3)
           (enc_pxs n (pre ++ rest) 3 (Z.of_nat (length pre)) px) = rest.
Proof.
  induction n as [|n IH]; intros pre rest px Hlen.
  - destruct rest; [reflexivity|discriminate].
  - destruct rest as [|r [|g [|b rest]]]; try (simpl in Hlen; lia).
    cbn [enc_pxs flat_map]. unfold enc_read. cbn [Z.eqb Pos.eqb].
    unfold read_rgb.
    pose proof (bytes_at_middle pre [r; g; b] rest) as Hat.
    cbn [app] in Hat.
    apply bytes_at_cons in Hat as [-> Hat]. apply bytes_at_cons in Hat as [H1 Hat].
    apply bytes_at_cons in Hat as [H2 _].
    replace (Z.of_nat (length pre) + 2) with (Z.of_nat (length pre) + 1 + 1) by lia.
    rewrite H1, H2. cbn [px_write Z.eqb Pos.eqb px_r px_g px_b px_a app].
    do 3 f_equal.
    specialize (IH (pre ++ [r; g; b]) rest (mk_rgba r g b (px_a px))).
    rewrite <- app_assoc in IH. cbn [app] in IH.
    rewrite length_app in IH. cbn [length] in IH.
    replace (Z.of_nat (length pre) + 3) with (Z.of_nat (length pre + 3)) by lia.
    apply IH. simpl in Hlen. lia.
Qed.

Lemma pxs_widen_bytes n :
  forall pre rest px,
  length rest = (3 * n)%nat ->
  flat_map (px_write 4)
           (enc_pxs n (pre ++ rest) 3 (Z.of_nat (length pre)) px)
  = widen_rgb (px_a px) rest.
Proof.
  induction n as [|n IH]; intros pre rest px Hlen.
  - destruct rest; [reflexivity|discriminate].
  - destruct rest as [|r [|g [|b rest]]]; try (simpl in Hlen; lia).
    cbn [enc_pxs flat_map widen_rgb]. unfold enc_read. cbn [Z.eqb Pos.eqb].
    unfold read_rgb.
    pose proof (bytes_at_middle pre [r; g; b] rest) as Hat.
    cbn [app] in Hat.
    apply bytes_at_cons in Hat as [-> Hat]. apply bytes_at_cons in Hat as [H1 Hat].
    apply bytes_at_cons in Hat as [H2 _].
    replace (Z.of_nat (length pre) + 2) with (Z.of_nat (length pre) + 1 + 1) by lia.
    rewrite H1, H2. cbn [px_write Z.eqb Pos.eqb px_r px_g px_b px_a app].
    do 4 f_equal.
    specialize (IH (pre ++ [r; g; b]) rest (mk_rgba r g b (px_a px))).
    rewrite <- app_assoc in IH. cbn [app] in IH.
    rewrite length_app in IH. cbn [length] in IH.
    replace (Z.of_nat (length pre) + 3) with (Z.of_nat (length pre + 3)) by lia.
    apply IH. simpl in Hlen. lia.
Qed.

Lemma widen_rgb_alpha a n :
  forall l, length l = (3 * n)%nat ->
  length (widen_rgb a l) = (4 * n)%nat /\
  forall i, 0 <= i < Z.of_nat n -> byte_at (widen_rgb a l) (4 * i + 3) = a.
Proof.
  induction n as [|n IH]; intros l Hlen.
  - destruct l; [|discriminate]. split; [reflexivity|]. intros i Hi. simpl in Hi. lia.
  - destruct l as [|r [|g [|b l]]]; try (simpl in Hlen; lia).
    destruct (IH l ltac:(simpl in Hlen; lia)) as [IHlen IHa].
    cbn [widen_rgb]. split; [cbn [length]; lia|].
    intros i Hi. destruct (Z.eq_dec i 0) as [-> | Hne]; [reflexivity|].
    specialize (IHa (i - 1) ltac:(lia)). unfold byte_at in *.
    replace (Z.to_nat (4 * i + 3)) with (4 + Z.to_nat (4 * (i - 1) + 3))%nat by lia.
    exact IHa.
Qed.

(** C1 (amended). For a 4-channel descriptor whose worst-case output size
    [width * height * 5 + 22] fits an [int], the size of the encoder's
    output fits an [int] and decoding it with 4 channels gives back the pixel
    buffer and the descriptor. *)
Theorem roundtrip_rgba (data : list Z) (d : qoi_desc) :
  desc_wf d -> channels d = 4 -> 1 <= width d -> 1 <= height d ->
  colorspace d = QOI_SRGB \/ colorspace d = QOI_LINEAR ->
  bytes_ok data -> Z.of_nat (length data) = width d * height d * 4 ->
  width d * height d * (channels d + 1) + QOI_HEADER_SIZE + QOI_PADDING <= INT_MAX ->
  exists enc,
    qoi_encode data d = Some enc /\
    Z.of_nat (length enc) <= INT_MAX /\
    qoi_decode enc (Z.of_nat (length enc)) 4 = Some (data, d).
Proof.
  intros Hwf Hch Hw Hh Hcs Hdata Hlen Hfit.
  assert (Hvalid : desc_invalid d = false).
  { unfold desc_invalid, QOI_SRGB, QOI_LINEAR in *. rewrite Hch.
    repeat (apply orb_false_iff; split);
      first [apply Z.eqb_neq; lia | apply Z.ltb_ge; lia]. }
  destruct (roundtrip_pixels data d 4 Hwf Hvalid Hdata (or_intror eq_refl) Hfit)
    as (enc & Henc & Hsize & Hdec).
  { unfold QOI_HEADER_SIZE, QOI_PADDING in Hfit. rewrite Hch in Hfit. nia. }
  exists enc. split; [exact Henc|]. split; [exact Hsize|].
  rewrite Hdec. do 2 f_equal.
  rewrite Hch.
  apply (pxs_rgba_bytes (Z.to_nat (width d * height d)) [] data px_zero). lia.
Qed.

Lemma roundtrip_rgba_witness :
  exists enc,
    qoi_encode [10; 20; 30; 255; 11; 19; 31; 255] (mk_desc 1 2 4 0) = Some enc /\
    qoi_decode enc (Z.of_nat (length enc)) 4
    = Some ([10; 20; 30; 255; 11; 19; 31; 255], mk_desc 1 2 4 0).
Proof.
  destruct (roundtrip_rgba [10; 20; 30; 255; 11; 19; 31; 255] (mk_desc 1 2 4 0))
    as (enc & H1 & _ & H2).
  - unfold desc_wf, is_byte; simpl; lia.
  - reflexivity.
  - simpl; lia.
  - simpl; lia.
  - left; reflexivity.
  - repeat constructor; unfold is_byte; lia.
  - reflexivity.
  - vm_compute; discriminate.
  - exists enc. split; assumption.
Defined.

Lemma bytes_ok_zeros n : bytes_ok (repeat 0 n).
Proof.
  apply Forall_forall. intros x Hx. apply repeat_spec in Hx. subst.
  unfold is_byte; lia.
Qed.

Lemma encode_wrapped_sizes (P : list Z) (c : Z) :
  c = 3 \/ c = 4 ->
  qoi_encode P (mk_desc 65536 65536 c 0)
  = Some ([113; 111; 105; 102; 0; 1; 0; 0; 0; 1; 0; 0; c; 0] ++ padding).
Proof. intros [-> | ->]; reflexivity. Qed.

Lemma roundtrip_wraps_gen (c : Z) (n : nat) :
  c = 3 \/ c = 4 -> Z.of_nat n = 65536 * 65536 * c ->
  let d := mk_desc 65536 65536 c 0 in
  let P := repeat 0 n in
  desc_wf d /\ 1 <= width d /\ 1 <= height d /\
  colorspace d = QOI_SRGB /\ bytes_ok P /\
  Z.of_nat (length P) = width d * height d * c /\
  exists enc,
    qoi_encode P d = Some enc /\
    qoi_decode enc (Z.of_nat (length enc)) c = Some ([], d) /\
    qoi_decode enc (Z.of_nat (length enc)) c <> Some (P, d).
Proof.
  intros Hc Hn d P.
  assert (Hwf : desc_wf d).
  { unfold desc_wf, is_byte, d; simpl. destruct Hc as [-> | ->]; lia. }
  split; [exact Hwf|]. split; [simpl; lia|]. split; [simpl; lia|].
  split; [reflexivity|]. split; [apply bytes_ok_zeros|].
  split; [unfold P; rewrite repeat_length; exact Hn|].
  exists ([113; 111; 105; 102; 0; 1; 0; 0; 0; 1; 0; 0; c; 0] ++ padding).
  split; [now apply encode_wrapped_sizes|].
  assert (Hdec : qoi_decode
                   ([113; 111; 105; 102; 0; 1; 0; 0; 0; 1; 0; 0; c; 0] ++ padding)
                   (Z.of_nat (length ([113; 111; 105; 102; 0; 1; 0; 0; 0; 1; 0; 0; c; 0]
                                      ++ padding))) c
                 = Some ([], d)).
  { unfold d. destruct Hc as [-> | ->]; reflexivity. }
  split; [exact Hdec|]. rewrite Hdec. intros H. apply some_inj in H.
  assert (HP : [] = P) by congruence.
  unfold P in HP. destruct n; [destruct Hc as [-> | ->]; simpl in Hn; lia|].
  discriminate HP.
Qed.

(** C1 (as stated) fails at a 65536 x 65536 image: [width * height * 4]
    wraps to 0 in [unsigned int], the encoder writes the header and the
    padding only, and the decoder returns no pixel. *)
Lemma roundtrip_rgba_wraps :
  let d := mk_desc 65536 65536 4 0 in
  let P := repeat 0 (Z.to_nat (65536 * 65536 * 4)) in
  desc_wf d /\ 1 <= width d /\ 1 <= height d /\
  colorspace d = QOI_SRGB /\ bytes_ok P /\
  Z.of_nat (length P) = width d * height d * 4 /\
  exists enc,
    qoi_encode P d = Some enc /\
    qoi_decode enc (Z.of_nat (length enc)) 4 = Some ([], d) /\
    qoi_decode enc (Z.of_nat (length enc)) 4 <> Some (P, d).
Proof.
  apply (roundtrip_wraps_gen 4 (Z.to_nat (65536 * 65536 * 4)) (or_intror eq_refl)).
  apply Z2Nat.id. discriminate.
Qed.

(** C4 (amended). For a 3-channel descriptor whose worst-case output size
    [width * height * 4 + 22] fits an [int], the size of the encoder's
    output fits an [int] and decoding it with 3 channels gives back the pixel
    buffer and the descriptor. *)
Theorem roundtrip_rgb (data : list Z) (d : qoi_desc) :
  desc_wf d -> channels d = 3 -> 1 <= width d -> 1 <= height d ->
  colorspace d = QOI_SRGB \/ colorspace d = QOI_LINEAR ->
  bytes_ok data -> Z.of_nat (length data) = width d * height d * 3 ->
  width d * height d * (channels d + 1) + QOI_HEADER_SIZE + QOI_PADDING <= INT_MAX ->
  exists enc,
    qoi_encode data d = Some enc /\
    Z.of_nat (length enc) <= INT_MAX /\
    qoi_decode enc (Z.of_nat (length enc)) 3 = Some (data, d).
Proof.
  intros Hwf Hch Hw Hh Hcs Hdata Hlen Hfit.
  assert (Hvalid : desc_invalid d = false).
  { unfold desc_invalid, QOI_SRGB, QOI_LINEAR in *. rewrite Hch.
    repeat (apply orb_false_iff; split);
      first [apply Z.eqb_neq; lia | apply Z.ltb_ge; lia]. }
  destruct (roundtrip_pixels data d 3 Hwf Hvalid Hdata (or_introl eq_refl) Hfit)
    as (enc & Henc & Hsize & Hdec).
  { unfold QOI_HEADER_SIZE, QOI_PADDING in Hfit. rewrite Hch in Hfit. nia. }
  exists enc. split; [exact Henc|]. split; [exact Hsize|].
  rewrite Hdec. do 2 f_equal.
  rewrite Hch.
  apply (pxs_rgb_bytes (Z.to_nat (width d * height d)) [] data px_zero). lia.
Qed.

Lemma roundtrip_rgb_witness :
  exists enc,
    qoi_encode [10; 20; 30; 10; 20; 30; 200; 0; 7] (mk_desc 3 1 3 1) = Some enc /\
    qoi_decode enc (Z.of_nat (length enc)) 3
    = Some ([10; 20; 30; 10; 20; 30; 200; 0; 7], mk_desc 3 1 3 1).
Proof.
  destruct (roundtrip_rgb [10; 20; 30; 10; 20; 30; 200; 0; 7] (mk_desc 3 1 3 1))
    as (enc & H1 & _ & H2).
  - unfold desc_wf, is_byte; simpl; lia.
  - reflexivity.
  - simpl; lia.
  - simpl; lia.
  - right; reflexivity.
  - repeat constructor; unfold is_byte; lia.
  - reflexivity.
  - vm_compute; discriminate.
  - exists enc. split; assumption.
Defined.

(** C4 (as stated) fails at a 65536 x 65536 image: [width * height * 3]
    wraps to 0 in [unsigned int]. *)
Lemma roundtrip_rgb_wraps :
  let d := mk_desc 65536 65536 3 0 in
  let P := repeat 0 (Z.to_nat (65536 * 65536 * 3)) in
  desc_wf d /\ 1 <= width d /\ 1 <= height d /\
  colorspace d = QOI_SRGB /\ bytes_ok P /\
  Z.of_nat (length P) = width d * height d * 3 /\
  exists enc,
    qoi_encode P d = Some enc /\
    qoi_decode enc (Z.of_nat (length enc)) 3 = Some ([], d) /\
    qoi_decode enc (Z.of_nat (length enc)) 3 <> Some (P, d).
Proof.
  apply (roundtrip_wraps_gen 3 (Z.to_nat (65536 * 65536 * 3)) (or_introl eq_refl)).
  apply Z2Nat.id. discriminate.
Qed.

(** C2 (amended). For a 3-channel descriptor whose worst-case output size
    fits an [int], decoding the encoder's output with 4 channels gives the
    input pixels with alpha 0 at every pixel position: the encoder leaves
    the alpha of [px] at its initial value 0. *)
Theorem widen_alpha_zero (data : list Z) (d : qoi_desc) :
  desc_wf d -> channels d = 3 -> 1 <= width d -> 1 <= height d ->
  colorspace d = QOI_SRGB \/ colorspace d = QOI_LINEAR ->
  bytes_ok data -> Z.of_nat (length data) = width d * height d * 3 ->
  width d * height d * (channels d + 1) + QOI_HEADER_SIZE + QOI_PADDING <= INT_MAX ->
  exists enc,
    qoi_encode data d = Some enc /\
    Z.of_nat (length enc) <= INT_MAX /\
    qoi_decode enc (Z.of_nat (length enc)) 4 = Some (widen_rgb 0 data, d) /\
    Z.of_nat (length (widen_rgb 0 data)) = width d * height d * 4 /\
    forall i, 0 <= i < width d * height d ->
              byte_at (widen_rgb 0 data) (4 * i + 3) = 0.
Proof.
  intros Hwf Hch Hw Hh Hcs Hdata Hlen Hfit.
  assert (Hvalid : desc_invalid d = false).
  { unfold desc_invalid, QOI_SRGB, QOI_LINEAR in *. rewrite Hch.
    repeat (apply orb_false_iff; split);
      first [apply Z.eqb_neq; lia | apply Z.ltb_ge; lia]. }
  destruct (roundtrip_pixels data d 4 Hwf Hvalid Hdata (or_intror eq_refl) Hfit)
    as (enc & Henc & Hsize & Hdec).
  { unfold QOI_HEADER_SIZE, QOI_PADDING in Hfit. rewrite Hch in Hfit. nia. }
  exists enc. split; [exact Henc|]. split; [exact Hsize|].
  assert (Hwh : 0 <= width d * height d) by nia.
  destruct (widen_rgb_alpha 0 (Z.to_nat (width d * height d)) data ltac:(lia))
    as [Hl Ha].
  split; [|split].
  - rewrite Hdec. do 2 f_equal. rewrite Hch.
    apply (pxs_widen_bytes (Z.to_nat (width d * height d)) [] data px_zero). lia.
  - lia.
  - intros i Hi. apply Ha. lia.
Qed.

Lemma widen_alpha_zero_witness :
  exists enc,
    qoi_encode [10; 20; 30; 200; 0; 7] (mk_desc 1 2 3 0) = Some enc /\
    qoi_decode enc (Z.of_nat (length enc)) 4
    = Some ([10; 20; 30; 0; 200; 0; 7; 0], mk_desc 1 2 3 0).
Proof.
  destruct (widen_alpha_zero [10; 20; 30; 200; 0; 7] (mk_desc 1 2 3 0))
    as (enc & H1 & _ & H2 & _).
  - unfold desc_wf, is_byte; simpl; lia.
  - reflexivity.
  - simpl; lia.
  - simpl; lia.
  - left; reflexivity.
  - repeat constructor; unfold is_byte; lia.
  - reflexivity.
  - vm_compute; discriminate.
  - exists enc. split; assumption.
Defined.

Lemma widen_wraps_gen (n : nat) :
  Z.of_nat n = 65536 * 65536 * 3 ->
  let d := mk_desc 65536 65536 3 0 in
  let P := repeat 0 n in
  bytes_ok P /\ Z.of_nat (length P) = width d * height d * 3 /\
  exists enc,
    qoi_encode P d = Some enc /\
    qoi_decode enc (Z.of_nat (length enc)) 4 = Some ([], d).
Proof.
  intros Hn d P. split; [apply bytes_ok_zeros|].
  split; [unfold P; rewrite repeat_length; exact Hn|].
  exists ([113; 111; 105; 102; 0; 1; 0; 0; 0; 1; 0; 0; 3; 0] ++ padding).
  split; [apply encode_wrapped_sizes; now left|reflexivity].
Qed.

(** C2 (as stated) fails on a single 3-channel pixel: decoded with 4
    channels its alpha is 0, not 255.  It also fails at a 65536 x 65536
    image, whose sizes wrap to 0: the decoder returns no pixel at all. *)
Lemma widen_alpha_not_255 :
  (let d := mk_desc 1 1 3 0 in
   let P := [10; 20; 30] in
   exists enc out,
     qoi_encode P d = Some enc /\
     qoi_decode enc (Z.of_nat (length enc)) 4 = Some (out, d) /\
     out = [10; 20; 30; 0] /\
     byte_at out 3 <> 255) /\
  (let d := mk_desc 65536 65536 3 0 in
   let P := repeat 0 (Z.to_nat (65536 * 65536 * 3)) in
   bytes_ok P /\ Z.of_nat (length P) = width d * height d * 3 /\
   exists enc,
     qoi_encode P d = Some enc /\
     qoi_decode enc (Z.of_nat (length enc)) 4 = Some ([], d)).
Proof.
  split.
  - eexists. eexists. split; [reflexivity|]. split; [reflexivity|].
    split; [reflexivity|]. vm_compute. discriminate.
  - apply (widen_wraps_gen (Z.to_nat (65536 * 65536 * 3))).
    apply Z2Nat.id. discriminate.
Qed.

(** ** Zero bytes in the encoder's output *)

Lemma lead_zeros_repeat n (l : list Z) :
  (n <= lead_zeros (repeat 0%Z n ++ l))%nat.
Proof. induction n as [|n IH]; simpl; lia. Qed.

Lemma rev_repeat {A} (x : A) n : rev (repeat x n) = repeat x n.
Proof.
  induction n as [|n IH]; [reflexivity|].
  simpl. rewrite IH. change [x] with (repeat x 1).
  rewrite <- repeat_app. now rewrite Nat.add_1_r.
Qed.

Lemma short_zero_runs_sound l : short_zero_runs l -> ~ has_zero_run 8 l.
Proof.
  intros H (l1 & l2 & E).
  specialize (H (l1 ++ repeat 0 8) l2). rewrite <- app_assoc in H.
  specialize (H E). unfold trail_zeros in H.
  rewrite rev_app_distr, rev_repeat in H.
  pose proof (lead_zeros_repeat 8 (rev l1)). lia.
Qed.

Lemma trail_zeros_snoc l b :
  trail_zeros (l ++ [b]) = if b =? 0 then S (trail_zeros l) else O.
Proof.
  unfold trail_zeros. rewrite rev_app_distr. simpl.
  destruct b; reflexivity.
Qed.

Lemma short_zero_runs_nil : short_zero_runs [].
Proof.
  intros p s E. symmetry in E. apply app_eq_nil in E as [-> _].
  unfold trail_zeros; simpl; lia.
Qed.

Lemma short_zero_runs_snoc l b :
  short_zero_runs l -> (trail_zeros (l ++ [b]) < 8)%nat ->
  short_zero_runs (l ++ [b]).
Proof.
  intros H Hb p s E.
  destruct s as [|x s] using rev_ind.
  - rewrite app_nil_r in E. now subst p.
  - rewrite app_assoc in E. apply app_inj_tail in E as [E _].
    exact (H p s E).
Qed.

Lemma zero_tail_snoc k l b :
  zero_tail k l -> (k < 7)%nat -> zero_tail (S k) (l ++ [b]).
Proof.
  intros [Hs Ht] Hk.
  assert (trail_zeros (l ++ [b]) <= S k)%nat.
  { rewrite trail_zeros_snoc. destruct (b =? 0); lia. }
  split; [apply short_zero_runs_snoc; [assumption|lia]|assumption].
Qed.

Lemma zero_tail_snoc_nz l b :
  short_zero_runs l -> b <> 0 -> zero_tail 0 (l ++ [b]).
Proof.
  intros Hs Hb.
  assert (trail_zeros (l ++ [b]) = O).
  { rewrite trail_zeros_snoc. destruct (b =? 0) eqn:E; [|reflexivity].
    apply Z.eqb_eq in E. contradiction. }
  split; [apply short_zero_runs_snoc; [assumption|lia]|lia].
Qed.

(** After a nonzero byte, up to seven arbitrary bytes keep zero runs short. *)
Lemma zero_tail_app_nz l b t :
  short_zero_runs l -> b <> 0 -> (length t <= 7)%nat ->
  zero_tail (length t) (l ++ b :: t).
Proof.
  intros Hs Hb. induction t as [|x t IH] using rev_ind; intros Hlen.
  - now apply zero_tail_snoc_nz.
  - rewrite length_app in *. simpl length in *.
    change (b :: t ++ [x]) with ((b :: t) ++ [x]). rewrite app_assoc.
    replace (length t + 1)%nat with (S (length t)) by lia.
    apply zero_tail_snoc; [apply IH|]; lia.
Qed.

Lemma zero_tail_weaken k k' l : zero_tail k l -> (k <= k')%nat -> zero_tail k' l.
Proof. intros [Hs Ht] Hk. split; [assumption|lia]. Qed.

Lemma enc_literal_bytes px px_prev :
  exists b1 t,
    chunk_bytes (enc_literal px px_prev) = b1 :: t /\ b1 <> 0 /\
    (length t <= 4)%nat.
Proof.
  unfold enc_literal.
  set (vr := s8 (px_r px - px_r px_prev)).
  set (vg := s8 (px_g px - px_g px_prev)).
  set (vb := s8 (px_b px - px_b px_prev)).
  destruct (px_a px =? px_a px_prev).
  - destruct ((-3 <? vr) && (vr <? 2) && (-3 <? vg) && (vg <? 2) &&
              (-3 <? vb) && (vb <? 2)) eqn:Ed.
    + split_andb Ed.
      destruct (diff_byte_props vr vg vb) as (Hrange & _); try lia.
      do 2 eexists. split; [reflexivity|]. split; [lia|simpl; lia].
    + destruct ((-9 <? s8 (vr - vg)) && (s8 (vr - vg) <? 8) && (-33 <? vg) &&
                (vg <? 32) && (-9 <? s8 (vb - vg)) && (s8 (vb - vg) <? 8)) eqn:El.
      * split_andb El.
        destruct (luma_b1_props (vg + 32)) as (Hrange & _); try lia.
        do 2 eexists. split; [reflexivity|]. split; [lia|simpl; lia].
      * do 2 eexists. split; [reflexivity|].
        split; [unfold QOI_OP_RGB; lia|simpl; lia].
  - do 2 eexists. split; [reflexivity|].
    split; [unfold QOI_OP_RGBA; lia|simpl; lia].
Qed.

Lemma zero_budget_bounds px : (4 <= zero_budget px <= 5)%nat.
Proof. unfold zero_budget. destruct (_ =? 0); lia. Qed.

Lemma flush_zero_tail out run k :
  0 <= run < 62 -> zero_tail k out ->
  let flush := if 0 <? run then [ChRun (run_byte run)] else [] in
  zero_tail (if 0 <? run then 0%nat else k) (out ++ chunks_bytes flush).
Proof.
  intros Hr Hz. cbv zeta. destruct (0 <? run) eqn:E.
  - apply Z.ltb_lt in E. rewrite chunks_bytes_one. cbn [chunk_bytes].
    apply zero_tail_snoc_nz; [apply Hz|].
    destruct (run_byte_props run ltac:(lia)) as (-> & _). lia.
  - simpl. now rewrite app_nil_r.
Qed.

(** One turn of the encoder keeps the zero runs of its output short. *)
Lemma enc_step_zero_tail pixels chans px_end px_pos st out :
  bytes_ok pixels -> enc_inv st ->
  zero_tail (zero_budget (e_px_prev st)) out ->
  zero_tail (zero_budget (e_px_prev (fst (enc_step pixels chans px_end px_pos st))))
            (out ++ chunks_bytes (snd (enc_step pixels chans px_end px_pos st))).
Proof.
  intros Hb Hinv Hz.
  pose proof (enc_step_cases pixels chans px_end px_pos st Hb Hinv) as Hcases.
  assert (Hr : 0 <= e_run st < 62) by apply Hinv.
  assert (Hslot : index_get (e_index st) (QOI_COLOR_HASH (e_px_prev st) mod 64)
                  = e_px_prev st) by apply Hinv.
  cbv zeta in Hcases.
  set (px := enc_read pixels chans px_pos (e_px st)) in *.
  destruct Hcases
    as [(E & H62 & Hend & Hstep) | [(E & Hstep) | (Hne & c & Hstep & Hc)]];
    rewrite Hstep; cbn [fst snd e_px_prev].
  - simpl. rewrite app_nil_r, E. exact Hz.
  - rewrite chunks_bytes_one. cbn [chunk_bytes].
    eapply zero_tail_weaken.
    + apply zero_tail_snoc_nz; [apply Hz|].
      destruct (run_byte_props (e_run st + 1) ltac:(lia)) as (-> & _). lia.
    + lia.
  - rewrite chunks_bytes_app, chunks_bytes_one, app_assoc.
    pose proof (flush_zero_tail out (e_run st) _ Hr Hz) as Hf. cbv zeta in Hf.
    set (out1 := out ++ chunks_bytes
                          (if 0 <? e_run st then [ChRun (run_byte (e_run st))] else []))
      in *.
    pose proof (zero_budget_bounds px) as Hbud.
    destruct Hc as [[-> Hhit] | ->].
    + pose proof (hash_pos_range px) as Hh.
      destruct (index_byte_props _ Hh) as [-> _]. cbn [chunk_bytes].
      destruct (Z.eq_dec (QOI_COLOR_HASH px mod 64) 0) as [E0 | E0].
      * assert (Htail : zero_tail 4 out1).
        { destruct (0 <? e_run st); [eapply zero_tail_weaken; [exact Hf|lia]|].
          eapply zero_tail_weaken; [exact Hf|].
          unfold zero_budget.
          destruct (QOI_COLOR_HASH (e_px_prev st) mod 64 =? 0) eqn:Ep; [|lia].
          apply Z.eqb_eq in Ep. exfalso. apply Hne.
          rewrite Ep in Hslot. rewrite E0 in Hhit. congruence. }
        unfold zero_budget. rewrite E0. simpl.
        apply zero_tail_snoc; [exact Htail|lia].
      * eapply zero_tail_weaken;
          [apply zero_tail_snoc_nz; [apply Hf|exact E0]|lia].
    + destruct (enc_literal_bytes px (e_px_prev st)) as (b1 & t & -> & Hb1 & Ht).
      eapply zero_tail_weaken;
        [apply zero_tail_app_nz; [apply Hf|exact Hb1|lia]|lia].
Qed.

Lemma enc_loop_zero_tail fuel pixels chans px_len px_end :
  bytes_ok pixels ->
  forall px_pos st out,
  enc_inv st ->
  zero_tail (zero_budget (e_px_prev st)) out ->
  zero_tail 5
    (out ++ chunks_bytes (snd (enc_loop fuel pixels chans px_len px_end px_pos st))).
Proof.
  intros Hb. induction fuel as [|fuel IH]; intros px_pos st out Hinv Hz; simpl.
  - rewrite app_nil_r. eapply zero_tail_weaken; [exact Hz|].
    apply zero_budget_bounds.
  - destruct (px_pos <? px_len).
    2:{ rewrite app_nil_r. eapply zero_tail_weaken; [exact Hz|].
        apply zero_budget_bounds. }
    pose proof (enc_step_zero_tail pixels chans px_end px_pos st out Hb Hinv Hz)
      as Hz1.
    pose proof (enc_step_inv pixels chans px_end px_pos st Hb Hinv) as Hinv1.
    destruct (enc_step pixels chans px_end px_pos st) as [st1 cs1].
    cbn [fst snd] in *.
    specialize (IH (px_pos + chans) st1 _ Hinv1 Hz1).
    destruct (enc_loop fuel pixels chans px_len px_end (px_pos + chans) st1)
      as [st2 cs2].
    cbn [snd] in *. now rewrite chunks_bytes_app, app_assoc.
Qed.

Lemma lead_zeros_padding n (l : list Z) :
  lead_zeros (repeat 0 n ++ l) = (n + lead_zeros l)%nat.
Proof. induction n as [|n IH]; [reflexivity|]. simpl. now rewrite IH. Qed.

Lemma trail_zeros_padding n (l : list Z) :
  trail_zeros (l ++ repeat 0 n) = (n + trail_zeros l)%nat.
Proof.
  unfold trail_zeros. rewrite rev_app_distr, rev_repeat.
  apply lead_zeros_padding.
Qed.

Lemma header_zero_tail d :
  desc_wf d -> desc_invalid d = false -> zero_tail 1 (enc_header d).
Proof.
  intros (Hw & Hh & _) Hvalid.
  destruct (desc_valid_fields d Hvalid) as (Hw0 & _ & Hc & _).
  unfold enc_header.
  pose proof (qoi_read_write_32 (width d) Hw) as Rw.
  change (qoi_write_32 QOI_MAGIC) with [113; 111; 105; 102].
  destruct (qoi_write_32 (width d)) as [|w0 [|w1 [|w2 [|w3 [|]]]]];
    try contradiction.
  destruct (qoi_write_32 (height d)) as [|h0 [|h1 [|h2 [|h3 [|? ?]]]]] eqn:Eh;
    try discriminate Eh.
  cbn [app].
  assert (Hnz : w0 <> 0 \/ w1 <> 0 \/ w2 <> 0 \/ w3 <> 0).
  { destruct (Z.eq_dec w0 0) as [-> |]; [|now left].
    destruct (Z.eq_dec w1 0) as [-> |]; [|now right; left].
    destruct (Z.eq_dec w2 0) as [-> |]; [|now right; right; left].
    destruct (Z.eq_dec w3 0) as [-> |]; [|now right; right; right].
    exfalso. apply Hw0. rewrite <- Rw. reflexivity. }
  assert (S0 : short_zero_runs [113; 111; 105]).
  { apply (zero_tail_app_nz [] 113 [111; 105]);
      [apply short_zero_runs_nil|lia|simpl; lia]. }
  assert (Hcnz : channels d <> 0) by lia.
  destruct Hnz as [Hn | [Hn | [Hn | Hn]]].
  - pose proof (zero_tail_app_nz [113; 111; 105] 102 [] S0 ltac:(lia)
                  ltac:(simpl; lia)) as [S1 _].
    pose proof (zero_tail_app_nz _ w0 [w1; w2; w3; h0; h1; h2; h3] S1 Hn
                  ltac:(simpl; lia)) as [S2 _].
    exact (zero_tail_app_nz _ (channels d) [colorspace d] S2 Hcnz
             ltac:(simpl; lia)).
  - pose proof (zero_tail_app_nz [113; 111; 105] 102 [w0] S0 ltac:(lia)
                  ltac:(simpl; lia)) as [S1 _].
    pose proof (zero_tail_app_nz _ w1 [w2; w3; h0; h1; h2; h3] S1 Hn
                  ltac:(simpl; lia)) as [S2 _].
    exact (zero_tail_app_nz _ (channels d) [colorspace d] S2 Hcnz
             ltac:(simpl; lia)).
  - pose proof (zero_tail_app_nz [113; 111; 105] 102 [w0; w1] S0 ltac:(lia)
                  ltac:(simpl; lia)) as [S1 _].
    pose proof (zero_tail_app_nz _ w2 [w3; h0; h1; h2; h3] S1 Hn
                  ltac:(simpl; lia)) as [S2 _].
    exact (zero_tail_app_nz _ (channels d) [colorspace d] S2 Hcnz
             ltac:(simpl; lia)).
  - pose proof (zero_tail_app_nz [113; 111; 105] 102 [w0; w1; w2] S0 ltac:(lia)
                  ltac:(simpl; lia)) as [S1 _].
    pose proof (zero_tail_app_nz _ w3 [h0; h1; h2; h3] S1 Hn
                  ltac:(simpl; lia)) as [S2 _].
    exact (zero_tail_app_nz _ (channels d) [colorspace d] S2 Hcnz
             ltac:(simpl; lia)).
Qed.

(** C5 (amended). The encoder's output is the header and the chunks
    followed by the eight 0x00 bytes of the padding loop; the header and
    chunks before them never contain eight consecutive zero bytes and end
    with at most five, so the output ends with at least eight and at most
    thirteen 0x00 bytes. *)
Theorem encoder_trailer (data : list Z) (d : qoi_desc) (out : list Z) :
  desc_wf d -> bytes_ok data ->
  qoi_encode data d = Some out ->
  let body := enc_header d ++ chunks_bytes (enc_chunks data d) in
  out = body ++ repeat 0 8 /\ ~ has_zero_run 8 body /\
  (8 <= trail_zeros out <= 13)%nat.
Proof.
  intros Hwf Hdata Henc body. unfold qoi_encode in Henc.
  destruct (desc_invalid d) eqn:Hvalid; [discriminate|].
  apply some_inj in Henc. subst out.
  assert (Hz : zero_tail 5 body).
  { unfold body, enc_chunks.
    apply enc_loop_zero_tail; [assumption|apply enc_init_inv|].
    eapply zero_tail_weaken; [now apply header_zero_tail|].
    change (e_px_prev enc_init) with px_zero. vm_compute. lia. }
  destruct Hz as [Hshort Htail].
  split; [unfold body; now rewrite <- app_assoc|].
  split; [now apply short_zero_runs_sound|].
  rewrite app_assoc. fold body. unfold padding.
  change (Z.to_nat QOI_PADDING) with 8%nat.
  rewrite trail_zeros_padding. lia.
Qed.

Lemma encoder_trailer_witness :
  let out := hdr 1 1 4 0 ++ [0xFF; 0; 0; 0; 0xFF] ++ padding in
  out = (hdr 1 1 4 0 ++ [0xFF; 0; 0; 0; 0xFF]) ++ repeat 0 8 /\
  ~ has_zero_run 8 (hdr 1 1 4 0 ++ [0xFF; 0; 0; 0; 0xFF]) /\
  (8 <= trail_zeros out <= 13)%nat.
Proof.
  apply (encoder_trailer [0; 0; 0; 255] (mk_desc 1 1 4 0)).
  - unfold desc_wf, is_byte; simpl; lia.
  - repeat constructor; unfold is_byte; lia.
  - reflexivity.
Defined.

(** C5 (as stated) fails at the two pixels (0,0,0,255), (0,0,0,0): the
    second pixel is found in slot 0 of the index and is written as the
    QOI_OP_INDEX byte 0x00, so the output ends with nine 0x00 bytes, and the
    eight bytes before the last one are zero as well. *)
Lemma encoder_trailer_nine_zeros :
  let d := mk_desc 2 1 4 0 in
  let data := [0; 0; 0; 255; 0; 0; 0; 0] in
  let out := hdr 2 1 4 0 ++ [0xFF; 0; 0; 0; 0xFF; 0x00] ++ padding in
  desc_wf d /\ desc_invalid d = false /\ bytes_ok data /\
  Z.of_nat (length data) = width d * height d * channels d /\
  qoi_encode data d = Some out /\
  trail_zeros out = 9%nat /\
  out = (hdr 2 1 4 0 ++ [0xFF; 0; 0; 0; 0xFF]) ++ repeat 0 8 ++ [0].
Proof.
  split; [unfold desc_wf, is_byte; simpl; lia|].
  split; [reflexivity|].
  split; [repeat constructor; unfold is_byte; lia|].
  repeat split.
Qed.

(** * Further properties of the code *)

(** ** [qoi_write_32] and [qoi_read_32] *)

(** X1. [qoi_read_32] reads back, at any offset of any buffer, the value
    that [qoi_write_32] has stored there. *)
Theorem read_32_write_32 (pre post : list Z) (v : Z) :
  0 <= v < 2 ^ 32 ->
  qoi_read_32 (pre ++ qoi_write_32 v ++ post) (Z.of_nat (length pre)) = v.
Proof.
  intros Hv. rewrite qoi_read_32_be32.
  pose proof (bytes_at_middle pre (qoi_write_32 v) post) as Hat.
  pose proof (qoi_read_write_32 v Hv) as Hrw.
  destruct (qoi_write_32 v) as [|a [|b [|c [|d [|]]]]]; try contradiction.
  apply bytes_at_cons in Hat as [-> Hat]. apply bytes_at_cons in Hat as [-> Hat].
  apply bytes_at_cons in Hat as [H2 Hat]. apply bytes_at_cons in Hat as [H3 _].
  replace (Z.of_nat (length pre) + 2) with (Z.of_nat (length pre) + 1 + 1) by lia.
  replace (Z.of_nat (length pre) + 3)
    with (Z.of_nat (length pre) + 1 + 1 + 1) by lia.
  rewrite H2, H3. exact Hrw.
Qed.

Lemma read_32_write_32_witness :
  qoi_read_32 ([7; 7] ++ qoi_write_32 0x01020304 ++ [9]) 2 = 0x01020304.
Proof.
  apply (read_32_write_32 [7; 7] [9] 0x01020304). vm_compute.
  split; [discriminate|reflexivity].
Defined.

(** X2. [qoi_write_32] stores four bytes, most significant first. *)
Theorem write_32_big_endian (v : Z) :
  0 <= v < 2 ^ 32 ->
  exists b0 b1 b2 b3,
    qoi_write_32 v = [b0; b1; b2; b3] /\
    is_byte b0 /\ is_byte b1 /\ is_byte b2 /\ is_byte b3 /\
    v = b0 * 2 ^ 24 + b1 * 2 ^ 16 + b2 * 2 ^ 8 + b3.
Proof.
  intros Hv. pose proof (qoi_write_32_bytes v Hv) as Hb.
  pose proof (qoi_read_write_32 v Hv) as Hrw.
  destruct (qoi_write_32 v) as [|b0 [|b1 [|b2 [|b3 [|]]]]]; try contradiction.
  unfold bytes_ok in Hb.
  apply Forall_cons_iff in Hb as [H0 Hb]. apply Forall_cons_iff in Hb as [H1 Hb].
  apply Forall_cons_iff in Hb as [H2 Hb]. apply Forall_cons_iff in Hb as [H3 _].
  exists b0, b1, b2, b3. repeat (split; [assumption || reflexivity|]).
  rewrite <- Hrw at 1. now apply be32_value.
Qed.

Lemma write_32_big_endian_witness :
  exists b0 b1 b2 b3,
    qoi_write_32 0x01020304 = [b0; b1; b2; b3] /\
    is_byte b0 /\ is_byte b1 /\ is_byte b2 /\ is_byte b3 /\
    0x01020304 = b0 * 2 ^ 24 + b1 * 2 ^ 16 + b2 * 2 ^ 8 + b3.
Proof.
  apply write_32_big_endian. vm_compute. split; [discriminate|reflexivity].
Defined.

(** ** The header written by the encoder *)

Lemma dec_header_channels bytes :
  channels (snd (dec_header bytes)) = byte_at bytes 12.
Proof. reflexivity. Qed.

(** X3. The output of the encoder is at least 22 bytes long and starts
    with the bytes 'q' 'o' 'i' 'f'; the decoder's header parse reads the
    descriptor back from it and accepts it. *)
Theorem encoder_header_exact (data : list Z) (d : qoi_desc) (out : list Z) :
  desc_wf d ->
  qoi_encode data d = Some out ->
  QOI_HEADER_SIZE + QOI_PADDING <= Z.of_nat (length out) /\
  firstn 4 out = [113; 111; 105; 102] /\
  dec_header out = (QOI_MAGIC, d) /\
  dec_header_invalid QOI_MAGIC d = false /\
  byte_at out 12 = channels d /\ byte_at out 13 = colorspace d.
Proof.
  intros Hwf Henc. unfold qoi_encode in Henc.
  destruct (desc_invalid d) eqn:Hv; [discriminate|].
  apply some_inj in Henc. subst out.
  pose proof (header_roundtrip d (chunks_bytes (enc_chunks data d) ++ padding) Hwf)
    as Hhdr.
  split; [|split; [|split; [|split]]].
  - rewrite !length_app, enc_header_length. unfold padding. simpl length.
    unfold QOI_HEADER_SIZE, QOI_PADDING. lia.
  - reflexivity.
  - exact Hhdr.
  - unfold dec_header_invalid. unfold desc_invalid in Hv. now rewrite Hv.
  - revert Hhdr.
    generalize (enc_header d ++ chunks_bytes (enc_chunks data d) ++ padding).
    intros out Hhdr.
    pose proof (dec_header_channels out) as H12.
    pose proof (dec_header_colorspace out) as H13.
    rewrite Hhdr in H12, H13. cbn [snd] in H12, H13. now split.
Qed.

Lemma encoder_header_exact_witness :
  dec_header (hdr 1 2 4 0 ++ [0xFF; 10; 20; 30; 255; 0x77] ++ padding)
  = (QOI_MAGIC, mk_desc 1 2 4 0).
Proof.
  refine (proj1 (proj2 (proj2
    (encoder_header_exact [10; 20; 30; 255; 11; 19; 31; 255] (mk_desc 1 2 4 0)
       _ _ _)))).
  - unfold desc_wf, is_byte; simpl; lia.
  - reflexivity.
Defined.

(** ** What the encoder writes *)

Lemma u8_range x : is_byte (u8 x).
Proof. unfold is_byte, u8. apply Z.mod_pos_bound; lia. Qed.

Lemma enc_literal_bytes_ok px px_prev :
  rgba_ok px -> bytes_ok (chunk_bytes (enc_literal px px_prev)).
Proof.
  intros (Hr & Hg & Hb & Ha). unfold enc_literal.
  repeat match goal with |- context [if ?c then _ else _] => destruct c end;
    cbn [chunk_bytes]; unfold bytes_ok;
    repeat first [apply Forall_nil | apply Forall_cons];
    first [apply u8_range | assumption
          | unfold is_byte, QOI_OP_RGB, QOI_OP_RGBA; lia].
Qed.

Lemma enc_step_bytes_ok pixels chans px_end px_pos st :
  bytes_ok pixels -> enc_inv st ->
  bytes_ok (chunks_bytes (snd (enc_step pixels chans px_end px_pos st))).
Proof.
  intros Hb Hinv.
  pose proof (enc_step_cases pixels chans px_end px_pos st Hb Hinv) as Hcases.
  assert (Hok : rgba_ok (enc_read pixels chans px_pos (e_px st))).
  { apply enc_read_ok; [assumption|].
    destruct Hinv as (-> & _ & _ & _ & Hp & _). exact Hp. }
  cbv zeta in Hcases.
  destruct Hcases as [(_ & _ & _ & ->) | [(_ & ->) | (_ & c & -> & Hc)]];
    cbn [snd].
  - constructor.
  - rewrite chunks_bytes_one. cbn [chunk_bytes].
    apply Forall_cons; [apply u8_range|apply Forall_nil].
  - rewrite chunks_bytes_app, chunks_bytes_one. apply Forall_app. split.
    + destruct (0 <? e_run st); [|constructor].
      rewrite chunks_bytes_one.
      apply Forall_cons; [apply u8_range|apply Forall_nil].
    + destruct Hc as [[-> _] | ->].
      * apply Forall_cons; [apply u8_range|apply Forall_nil].
      * now apply enc_literal_bytes_ok.
Qed.

Lemma enc_loop_inv fuel pixels chans px_len px_end :
  bytes_ok pixels ->
  forall px_pos st,
  enc_inv st ->
  enc_inv (fst (enc_loop fuel pixels chans px_len px_end px_pos st)).
Proof.
  intros Hb. induction fuel as [|fuel IH]; intros px_pos st Hinv; simpl;
    [assumption|].
  destruct (px_pos <? px_len); [|assumption].
  pose proof (enc_step_inv pixels chans px_end px_pos st Hb Hinv) as Hinv1.
  destruct (enc_step pixels chans px_end px_pos st) as [st1 cs1].
  cbn [fst] in Hinv1. specialize (IH (px_pos + chans) st1 Hinv1).
  destruct (enc_loop fuel pixels chans px_len px_end (px_pos + chans) st1).
  exact IH.
Qed.

Lemma enc_loop_bytes_ok fuel pixels chans px_len px_end :
  bytes_ok pixels ->
  forall px_pos st,
  enc_inv st ->
  bytes_ok (chunks_bytes (snd (enc_loop fuel pixels chans px_len px_end px_pos st))).
Proof.
  intros Hb. induction fuel as [|fuel IH]; intros px_pos st Hinv; simpl;
    [constructor|].
  destruct (px_pos <? px_len); [|constructor].
  pose proof (enc_step_inv pixels chans px_end px_pos st Hb Hinv) as Hinv1.
  pose proof (enc_step_bytes_ok pixels chans px_end px_pos st Hb Hinv) as Hok.
  destruct (enc_step pixels chans px_end px_pos st) as [st1 cs1].
  cbn [fst snd] in *. specialize (IH (px_pos + chans) st1 Hinv1).
  destruct (enc_loop fuel pixels chans px_len px_end (px_pos + chans) st1).
  cbn [snd] in *. rewrite chunks_bytes_app. apply Forall_app. now split.
Qed.

Lemma u8_small x : is_byte x -> u8 x = x.
Proof. unfold is_byte, u8. intros H. apply Z.mod_small. lia. Qed.

Lemma lor_byte a b : is_byte a -> is_byte b -> is_byte (Z.lor a b).
Proof.
  unfold is_byte. intros Ha Hb.
  assert (H0 : 0 <= Z.lor a b) by (apply Z.lor_nonneg; lia).
  split; [exact H0|].
  destruct (Z.eq_dec (Z.lor a b) 0) as [-> |Hnz]; [lia|].
  change 256 with (2 ^ 8). apply Z.log2_lt_pow2; [lia|].
  rewrite Z.log2_lor by lia.
  assert (La : Z.log2 a < 8).
  { destruct (Z.eq_dec a 0) as [-> |]; [reflexivity|].
    apply Z.log2_lt_pow2; [lia|]. change (2 ^ 8) with 256. lia. }
  assert (Lb : Z.log2 b < 8).
  { destruct (Z.eq_dec b 0) as [-> |]; [reflexivity|].
    apply Z.log2_lt_pow2; [lia|]. change (2 ^ 8) with 256. lia. }
  lia.
Qed.

Lemma run_int_exact run : 1 <= run <= 62 -> run_byte run = run_int run.
Proof.
  intros H. unfold run_byte, run_int. apply u8_small.
  apply lor_byte; unfold is_byte, QOI_OP_RUN; lia.
Qed.

Lemma enc_literal_int_exact px px_prev :
  enc_literal_int px px_prev = enc_literal px px_prev.
Proof.
  unfold enc_literal_int, enc_literal.
  destruct (px_a px =? px_a px_prev); [|reflexivity].
  set (vr := s8 (px_r px - px_r px_prev)).
  set (vg := s8 (px_g px - px_g px_prev)).
  set (vb := s8 (px_b px - px_b px_prev)).
  destruct ((-3 <? vr) && (vr <? 2) && (-3 <? vg) && (vg <? 2) &&
            (-3 <? vb) && (vb <? 2)) eqn:E1.
  - repeat (apply andb_true_iff in E1 as [E1 ?]).
    repeat match goal with H : (_ <? _) = true |- _ => apply Z.ltb_lt in H end.
    f_equal. symmetry. apply u8_small.
    repeat apply lor_byte; rewrite ?Z.shiftl_mul_pow2 by lia;
      unfold is_byte, QOI_OP_DIFF; lia.
  - destruct ((-9 <? s8 (vr - vg)) && (s8 (vr - vg) <? 8) && (-33 <? vg) &&
              (vg <? 32) && (-9 <? s8 (vb - vg)) && (s8 (vb - vg) <? 8)) eqn:E2;
      [|reflexivity].
    repeat (apply andb_true_iff in E2 as [E2 ?]).
    repeat match goal with H : (_ <? _) = true |- _ => apply Z.ltb_lt in H end.
    f_equal; symmetry; apply u8_small;
      repeat apply lor_byte; rewrite ?Z.shiftl_mul_pow2 by lia;
      unfold is_byte, QOI_OP_LUMA; lia.
Qed.

Lemma enc_step_int_exact pixels chans px_end px_pos st :
  0 <= e_run st < 62 ->
  enc_step_int pixels chans px_end px_pos st
  = snd (enc_step pixels chans px_end px_pos st).
Proof.
  intros Hrun. unfold enc_step_int, enc_step.
  set (px := enc_read pixels chans px_pos (e_px st)).
  assert (Hflush : (if 0 <? e_run st then [ChRun (run_int (e_run st))] else [])
                   = (if 0 <? e_run st then [ChRun (run_byte (e_run st))] else [])).
  { destruct (0 <? e_run st) eqn:E; [|reflexivity].
    apply Z.ltb_lt in E. rewrite run_int_exact by lia. reflexivity. }
  destruct (rgba_v px =? rgba_v (e_px_prev st)).
  - destruct ((e_run st + 1 =? 62) || (px_pos =? px_end)); cbn [snd];
      [|reflexivity].
    rewrite run_int_exact by lia. reflexivity.
  - rewrite Hflush.
    destruct (rgba_v (index_get (e_index st) (QOI_COLOR_HASH px mod 64))
              =? rgba_v px); cbn [snd].
    + do 3 f_equal. symmetry. apply u8_small. apply lor_byte.
      * unfold is_byte, QOI_OP_INDEX. lia.
      * pose proof (Z.mod_pos_bound (QOI_COLOR_HASH px) 64 ltac:(lia)).
        unfold is_byte. lia.
    + now rewrite enc_literal_int_exact.
Qed.

Lemma enc_loop_int_exact fuel pixels chans px_len px_end :
  bytes_ok pixels ->
  forall px_pos st,
  enc_inv st ->
  enc_loop_int fuel pixels chans px_len px_end px_pos st
  = snd (enc_loop fuel pixels chans px_len px_end px_pos st).
Proof.
  intros Hb. induction fuel as [|fuel IH]; intros px_pos st Hinv; simpl;
    [reflexivity|].
  destruct (px_pos <? px_len); [|reflexivity].
  rewrite enc_step_int_exact by apply Hinv.
  pose proof (enc_step_inv pixels chans px_end px_pos st Hb Hinv) as Hinv1.
  destruct (enc_step pixels chans px_end px_pos st) as [st1 cs1].
  cbn [fst snd] in *. rewrite (IH (px_pos + chans) st1 Hinv1).
  destruct (enc_loop fuel pixels chans px_len px_end (px_pos + chans) st1).
  reflexivity.
Qed.

(** X4. No store of the encoder truncates: the [int]s that the pixel loop
    computes for its tags, run lengths, index positions and differences are
    the bytes found in the output, and the output holds bytes only, the
    header fields included. *)
Theorem encoder_output_bytes (data : list Z) (d : qoi_desc) (out : list Z) :
  desc_wf d -> bytes_ok data ->
  qoi_encode data d = Some out ->
  enc_chunks_int data d = enc_chunks data d /\
  out = enc_header d ++ chunks_bytes (enc_chunks_int data d) ++ padding /\
  bytes_ok out.
Proof.
  intros (Hw & Hh & Hc & Hs) Hdata Henc. unfold qoi_encode in Henc.
  destruct (desc_invalid d); [discriminate|].
  apply some_inj in Henc. subst out.
  assert (Hint : enc_chunks_int data d = enc_chunks data d).
  { unfold enc_chunks_int, enc_chunks.
    apply enc_loop_int_exact; [assumption|apply enc_init_inv]. }
  split; [exact Hint|]. split; [now rewrite Hint|].
  apply Forall_app. split; [|apply Forall_app; split].
  - unfold enc_header. repeat (apply Forall_app; split);
      try (apply qoi_write_32_bytes; assumption).
    + change (qoi_write_32 QOI_MAGIC) with [113; 111; 105; 102].
      repeat first [apply Forall_nil | apply Forall_cons]; unfold is_byte; lia.
    + repeat first [apply Forall_nil | apply Forall_cons]; assumption.
  - apply enc_loop_bytes_ok; [assumption|apply enc_init_inv].
  - apply bytes_ok_zeros.
Qed.

Lemma encoder_output_bytes_witness :
  let data := [10; 20; 30; 255; 11; 19; 31; 255] in
  let d := mk_desc 1 2 4 0 in
  let out := hdr 1 2 4 0 ++ [0xFF; 10; 20; 30; 255; 0x77] ++ padding in
  enc_chunks_int data d = enc_chunks data d /\
  out = enc_header d ++ chunks_bytes (enc_chunks_int data d) ++ padding /\
  bytes_ok out.
Proof.
  intros data d out. apply (encoder_output_bytes data d out).
  - unfold desc_wf, is_byte; simpl; lia.
  - repeat constructor; unfold is_byte; lia.
  - reflexivity.
Defined.

(** X5. At the exit of the encoder's pixel loop, whatever the pixel data,
    no run is pending beyond 61 pixels, the index has its 64 slots, and the
    slot of the last pixel holds the last pixel. *)
Theorem encoder_index_consistent (data : list Z) (d : qoi_desc) :
  bytes_ok data ->
  let st := enc_final data d in
  index_get (e_index st) (QOI_COLOR_HASH (e_px_prev st) mod 64) = e_px_prev st /\
  length (e_index st) = 64%nat /\
  0 <= e_run st < 62 /\
  e_px st = e_px_prev st /\
  rgba_ok (e_px_prev st).
Proof.
  intros Hdata st.
  assert (Hinv : enc_inv st).
  { unfold st, enc_final. apply enc_loop_inv; [assumption|apply enc_init_inv]. }
  destruct Hinv as (H1 & H2 & H3 & _ & H5 & H6). auto.
Qed.

Lemma encoder_index_consistent_witness :
  let st := enc_final [10; 20; 30; 255; 11; 19; 31; 255] (mk_desc 1 2 4 0) in
  index_get (e_index st) (QOI_COLOR_HASH (e_px_prev st) mod 64) = e_px_prev st.
Proof.
  refine (proj1 (encoder_index_consistent _ _ _)).
  repeat constructor; unfold is_byte; lia.
Defined.

(** ** Three-channel input *)

Lemma enc_step_alpha pixels chans px_end px_pos st :
  chans <> 4 ->
  e_px st = e_px_prev st -> px_a (e_px_prev st) = 0 ->
  px_a (e_px_prev (fst (enc_step pixels chans px_end px_pos st))) = 0 /\
  forall b1 r g b a,
    ~ In (ChRgba b1 r g b a) (snd (enc_step pixels chans px_end px_pos st)).
Proof.
  intros Hc Hpx Ha.
  assert (Hread : px_a (enc_read pixels chans px_pos (e_px st))
                  = px_a (e_px_prev st)).
  { unfold enc_read. destruct (chans =? 4) eqn:E; [apply Z.eqb_eq in E; lia|].
    rewrite <- Hpx. reflexivity. }
  assert (Hlit : forall b1 r g b a,
             enc_literal (enc_read pixels chans px_pos (e_px st)) (e_px_prev st)
             <> ChRgba b1 r g b a).
  { intros b1 r g b a. unfold enc_literal. rewrite Hread, Z.eqb_refl.
    repeat match goal with |- context [if ?c then _ else _] => destruct c end;
      discriminate. }
  unfold enc_step.
  repeat match goal with
         | |- context [if ?c then _ else _] => destruct c
         end; cbn [fst snd e_px_prev];
    (split; [congruence|]); intros b1 r g b a Hin;
    repeat (apply in_app_or in Hin as [Hin|Hin]);
    repeat match goal with
           | H : In _ (_ :: _) |- _ => destruct H as [H|H]
           | H : In _ [] |- _ => destruct H
           end; try discriminate; eapply Hlit; eauto.
Qed.

Lemma enc_loop_alpha fuel pixels chans px_len px_end :
  chans <> 4 ->
  forall px_pos st,
  e_px st = e_px_prev st -> px_a (e_px_prev st) = 0 ->
  px_a (e_px_prev (fst (enc_loop fuel pixels chans px_len px_end px_pos st))) = 0 /\
  forall b1 r g b a,
    ~ In (ChRgba b1 r g b a)
         (snd (enc_loop fuel pixels chans px_len px_end px_pos st)).
Proof.
  intros Hc. induction fuel as [|fuel IH]; intros px_pos st Hpx Ha; simpl.
  - split; [assumption|]. intros ? ? ? ? ? [].
  - destruct (px_pos <? px_len); [|split; [assumption|intros ? ? ? ? ? []]].
    pose proof (enc_step_alpha pixels chans px_end px_pos st Hc Hpx Ha) as [H1 H2].
    pose proof (enc_step_px pixels chans px_end px_pos st) as H3.
    destruct (enc_step pixels chans px_end px_pos st) as [st1 cs1].
    cbn [fst snd] in *.
    destruct (IH (px_pos + chans) st1 H3 H1) as [H4 H5].
    destruct (enc_loop fuel pixels chans px_len px_end (px_pos + chans) st1)
      as [st2 cs2].
    cbn [fst snd] in *. split; [assumption|].
    intros b1 r g b a Hin. apply in_app_or in Hin as [Hin|Hin].
    + eapply H2; eauto.
    + eapply H5; eauto.
Qed.

(** X6. For a 3-channel descriptor the encoder keeps the alpha of its
    pixel at 0 and never writes a QOI_OP_RGBA chunk. *)
Theorem rgb_input_never_rgba (data : list Z) (d : qoi_desc) :
  channels d = 3 ->
  px_a (e_px_prev (enc_final data d)) = 0 /\
  forall b1 r g b a, ~ In (ChRgba b1 r g b a) (enc_chunks data d).
Proof.
  intros Hc. unfold enc_final, enc_chunks.
  apply enc_loop_alpha; [lia|reflexivity|reflexivity].
Qed.

Lemma rgb_input_never_rgba_witness :
  px_a (e_px_prev (enc_final [10; 20; 30] (mk_desc 1 1 3 0))) = 0 /\
  forall b1 r g b a,
    ~ In (ChRgba b1 r g b a) (enc_chunks [10; 20; 30] (mk_desc 1 1 3 0)).
Proof.
  exact (rgb_input_never_rgba [10; 20; 30] (mk_desc 1 1 3 0) eq_refl).
Defined.

(** ** The arguments and the header of the decoder *)

Lemma dec_header_bytes bytes :
  dec_header bytes
  = (be32 (byte_at bytes 0) (byte_at bytes 1) (byte_at bytes 2) (byte_at bytes 3),
     mk_desc (be32 (byte_at bytes 4) (byte_at bytes 5) (byte_at bytes 6)
                   (byte_at bytes 7))
             (be32 (byte_at bytes 8) (byte_at bytes 9) (byte_at bytes 10)
                   (byte_at bytes 11))
             (byte_at bytes 12) (byte_at bytes 13)).
Proof. reflexivity. Qed.

Lemma qoi_decode_none bytes size chans :
  qoi_decode bytes size chans = None <->
  dec_args_invalid size chans = true \/
  dec_header_invalid (fst (dec_header bytes)) (snd (dec_header bytes)) = true.
Proof.
  unfold qoi_decode. destruct (dec_args_invalid size chans).
  - split; auto.
  - destruct (dec_header bytes) as [magic d]. cbn [fst snd].
    destruct (dec_header_invalid magic d); split; auto; try discriminate.
    intros [H|H]; discriminate H.
Qed.

Lemma qoi_decode_zero_channels (bytes : list Z) (size : Z) :
  qoi_decode bytes size 0 = qoi_decode bytes size (byte_at bytes 12).
Proof.
  unfold qoi_decode, dec_args_invalid.
  pose proof (dec_header_channels bytes) as Hc.
  destruct (dec_header bytes) as [magic d]. cbn [snd] in Hc. rewrite <- Hc.
  unfold dec_header_invalid.
  assert (Hcases : channels d = 0 \/ channels d = 3 \/ channels d = 4 \/
                   (channels d < 3 /\ channels d <> 0) \/ 4 < channels d) by lia.
  destruct (size <? QOI_HEADER_SIZE + QOI_PADDING);
    [cbn [Z.eqb negb andb orb]; now rewrite orb_true_r|].
  destruct Hcases as [E | [E | [E | [[E E'] | E]]]].
  - rewrite E. cbn [Z.eqb Z.ltb Z.compare negb andb orb].
    rewrite !orb_true_r. reflexivity.
  - rewrite E. reflexivity.
  - rewrite E. reflexivity.
  - assert (H3 : (channels d <? 3) = true) by (apply Z.ltb_lt; lia).
    assert (E0 : (channels d =? 0) = false) by (apply Z.eqb_neq; lia).
    assert (E3 : (channels d =? 3) = false) by (apply Z.eqb_neq; lia).
    assert (E4 : (channels d =? 4) = false) by (apply Z.eqb_neq; lia).
    rewrite H3, E0, E3, E4. cbn [Z.eqb negb andb orb].
    rewrite !orb_true_r. reflexivity.
  - assert (H4 : (4 <? channels d) = true) by (apply Z.ltb_lt; lia).
    assert (E0 : (channels d =? 0) = false) by (apply Z.eqb_neq; lia).
    assert (E3 : (channels d =? 3) = false) by (apply Z.eqb_neq; lia).
    assert (E4 : (channels d =? 4) = false) by (apply Z.eqb_neq; lia).
    rewrite H4, E0, E3, E4. cbn [Z.eqb negb andb orb].
    rewrite !orb_true_r. reflexivity.
Qed.

(** X7. Asking the decoder for 0 channels is asking it for the number of
    channels stored in byte 12 of the header; the call fails when that byte
    is neither 3 nor 4. *)
Theorem decode_default_channels (bytes : list Z) (size : Z) :
  qoi_decode bytes size 0 = qoi_decode bytes size (byte_at bytes 12) /\
  (byte_at bytes 12 <> 3 -> byte_at bytes 12 <> 4 ->
   qoi_decode bytes size 0 = None).
Proof.
  split; [apply qoi_decode_zero_channels|].
  intros H3 H4. apply qoi_decode_none. right.
  rewrite dec_header_bytes. cbn [fst snd]. unfold dec_header_invalid.
  cbn [channels].
  destruct (Z_lt_ge_dec (byte_at bytes 12) 3).
  - replace (byte_at bytes 12 <? 3) with true by (symmetry; apply Z.ltb_lt; lia).
    now rewrite !orb_true_r.
  - replace (4 <? byte_at bytes 12) with true by (symmetry; apply Z.ltb_lt; lia).
    now rewrite !orb_true_r.
Qed.

Lemma decode_default_channels_witness :
  qoi_decode (hdr 1 1 5 0 ++ [0xC0] ++ padding) 23 0 = None.
Proof.
  apply (proj2 (decode_default_channels (hdr 1 1 5 0 ++ [0xC0] ++ padding) 23));
    vm_compute; intro H; discriminate H.
Defined.

Lemma be32_magic_iff a b c d :
  is_byte a -> is_byte b -> is_byte c -> is_byte d ->
  be32 a b c d = QOI_MAGIC <-> a = 113 /\ b = 111 /\ c = 105 /\ d = 102.
Proof.
  intros Ha Hb Hc Hd. rewrite be32_value by assumption.
  change QOI_MAGIC with 1903126886.
  change (2 ^ 24) with 16777216. change (2 ^ 16) with 65536.
  change (2 ^ 8) with 256. unfold is_byte in *. lia.
Qed.

Lemma be32_zero_iff a b c d :
  is_byte a -> is_byte b -> is_byte c -> is_byte d ->
  be32 a b c d = 0 <-> a = 0 /\ b = 0 /\ c = 0 /\ d = 0.
Proof.
  intros Ha Hb Hc Hd. rewrite be32_value by assumption.
  change (2 ^ 24) with 16777216. change (2 ^ 16) with 65536.
  change (2 ^ 8) with 256. unfold is_byte in *. lia.
Qed.

Lemma qoi_decode_none_bytes (bytes : list Z) (size chans : Z) :
  bytes_ok bytes ->
  (qoi_decode bytes size chans = None <->
   (chans <> 0 /\ chans <> 3 /\ chans <> 4) \/
   size < 22 \/
   ~ (byte_at bytes 0 = 113 /\ byte_at bytes 1 = 111 /\
      byte_at bytes 2 = 105 /\ byte_at bytes 3 = 102) \/
   (byte_at bytes 4 = 0 /\ byte_at bytes 5 = 0 /\
    byte_at bytes 6 = 0 /\ byte_at bytes 7 = 0) \/
   (byte_at bytes 8 = 0 /\ byte_at bytes 9 = 0 /\
    byte_at bytes 10 = 0 /\ byte_at bytes 11 = 0) \/
   byte_at bytes 12 < 3 \/ 4 < byte_at bytes 12 \/ 2 < byte_at bytes 13).
Proof.
  intros Hb. rewrite qoi_decode_none, dec_header_bytes. cbn [fst snd].
  unfold dec_args_invalid, dec_header_invalid, QOI_HEADER_SIZE, QOI_PADDING.
  cbn [width height channels colorspace].
  rewrite !orb_true_iff, !andb_true_iff, !negb_true_iff, !Z.eqb_neq,
    !Z.eqb_eq, !Z.ltb_lt.
  rewrite (be32_magic_iff _ _ _ _ (byte_at_ok _ 0 Hb) (byte_at_ok _ 1 Hb)
             (byte_at_ok _ 2 Hb) (byte_at_ok _ 3 Hb)).
  rewrite (be32_zero_iff _ _ _ _ (byte_at_ok _ 4 Hb) (byte_at_ok _ 5 Hb)
             (byte_at_ok _ 6 Hb) (byte_at_ok _ 7 Hb)).
  rewrite (be32_zero_iff _ _ _ _ (byte_at_ok _ 8 Hb) (byte_at_ok _ 9 Hb)
             (byte_at_ok _ 10 Hb) (byte_at_ok _ 11 Hb)).
  change (14 + 8) with 22. tauto.
Qed.

Lemma or8_snoc (A1 A2 A3 A4 A5 A6 A7 A8 Q : Prop) :
  A1 \/ A2 \/ A3 \/ A4 \/ A5 \/ A6 \/ A7 \/ A8 \/ Q <->
  (A1 \/ A2 \/ A3 \/ A4 \/ A5 \/ A6 \/ A7 \/ A8) \/ Q.
Proof. tauto. Qed.

Lemma in_block_null {A : Type} (n : Z) (stores : list Z) (r : A) :
  in_block n stores r = Null <-> n < 0.
Proof.
  unfold in_block. destruct (n <? 0) eqn:E.
  - apply Z.ltb_lt in E. tauto.
  - apply Z.ltb_ge in E.
    destruct (n <? Z.of_nat (length stores)); split;
      try discriminate; intros; lia.
Qed.

(** X8. The decoder returns NULL exactly when the requested channel count
    is not 0, 3 or 4, or the size is below 22, or the first four bytes are
    not 'q' 'o' 'i' 'f', or the four width bytes or the four height bytes
    are all zero, or the channels byte is not 3 or 4, or the colorspace byte
    is above 2, or [width * height * channels], wrapped to an [int], is
    negative.  Nothing after the 14 bytes of the header makes it return
    NULL. *)
Theorem decoder_failure (bytes : list Z) (size chans : Z) :
  bytes_ok bytes ->
  (qoi_decode_block bytes size chans = Null <->
   (chans <> 0 /\ chans <> 3 /\ chans <> 4) \/
   size < 22 \/
   ~ (byte_at bytes 0 = 113 /\ byte_at bytes 1 = 111 /\
      byte_at bytes 2 = 105 /\ byte_at bytes 3 = 102) \/
   (byte_at bytes 4 = 0 /\ byte_at bytes 5 = 0 /\
    byte_at bytes 6 = 0 /\ byte_at bytes 7 = 0) \/
   (byte_at bytes 8 = 0 /\ byte_at bytes 9 = 0 /\
    byte_at bytes 10 = 0 /\ byte_at bytes 11 = 0) \/
   byte_at bytes 12 < 3 \/ 4 < byte_at bytes 12 \/ 2 < byte_at bytes 13 \/
   dec_px_len (snd (dec_header bytes))
              (if chans =? 0 then byte_at bytes 12 else chans) < 0).
Proof.
  intros Hb. pose proof (qoi_decode_none_bytes bytes size chans Hb) as Hnone.
  eapply iff_trans; [|apply iff_sym, or8_snoc].
  match type of Hnone with _ <-> ?D => set (D8 := D) in * end.
  clearbody D8. unfold qoi_decode_block.
  destruct (qoi_decode bytes size chans) as [[out d]|] eqn:Hdec.
  - destruct (qoi_decode_length _ _ _ _ _ Hdec) as (Hd & _ & _).
    rewrite in_block_null. rewrite <- Hd.
    replace (byte_at bytes 12) with (channels d) by (rewrite Hd; reflexivity).
    split; [intros H; right; exact H|].
    intros [H | H]; [apply Hnone in H; discriminate H|exact H].
  - split; [|reflexivity]. intros _. left. now apply Hnone.
Qed.

Lemma decoder_failure_witness :
  qoi_decode_block
    ([113; 111; 105; 102; 0; 0; 128; 0; 0; 0; 128; 0; 3; 0] ++ padding) 22 0
  = Null.
Proof.
  apply decoder_failure.
  - repeat constructor; unfold is_byte; lia.
  - do 8 right. vm_compute. reflexivity.
Defined.

(** ** What the decoder returns *)

Lemma dec_loop_invariant (P : dec_state -> Prop) bytes chunks_len chans px_len :
  (forall st, P st -> P (dec_step bytes chunks_len st)) ->
  forall fuel px_pos st,
  P st -> P (fst (dec_loop fuel bytes chunks_len chans px_len px_pos st)).
Proof.
  intros Hstep. induction fuel as [|fuel IH]; intros px_pos st HP; simpl;
    [assumption|].
  destruct (px_pos <? px_len); [|assumption].
  specialize (IH (px_pos + chans) _ (Hstep st HP)).
  destruct (dec_loop fuel bytes chunks_len chans px_len (px_pos + chans)
                     (dec_step bytes chunks_len st)).
  exact IH.
Qed.

Lemma dec_iter_invariant (P : dec_state -> Prop) bytes chunks_len chans :
  (forall st, P st -> P (dec_step bytes chunks_len st)) ->
  forall n st, P st -> P (fst (dec_iter n bytes chunks_len chans st)).
Proof.
  intros Hstep. induction n as [|n IH]; intros st HP; simpl; [assumption|].
  specialize (IH _ (Hstep st HP)).
  destruct (dec_iter n bytes chunks_len chans (dec_step bytes chunks_len st)).
  exact IH.
Qed.

Lemma rgba_ok_mk r g b a :
  is_byte r -> is_byte g -> is_byte b -> is_byte a -> rgba_ok (mk_rgba r g b a).
Proof. unfold rgba_ok; simpl; auto. Qed.

Lemma dec_step_ok bytes chunks_len st :
  bytes_ok bytes ->
  rgba_ok (d_px st) /\ Forall rgba_ok (d_index st) ->
  rgba_ok (d_px (dec_step bytes chunks_len st)) /\
  Forall rgba_ok (d_index (dec_step bytes chunks_len st)).
Proof.
  intros Hb [Hpx Hidx]. unfold dec_step.
  destruct (0 <? d_run st); [now split|].
  destruct (d_p st <? chunks_len); [|now split].
  assert (Hpx' : rgba_ok (d_px (dec_chunk bytes st))).
  { destruct Hpx as (Hr & Hg & Hbl & Ha). unfold dec_chunk.
    repeat match goal with
           | |- context [if ?c then _ else _] => destruct c
           end; cbn [d_px];
      try (apply rgba_ok_mk; auto using byte_at_ok, u8_range);
      try (now apply index_get_ok); repeat split; assumption. }
  split; [exact Hpx'|].
  rewrite dec_chunk_index. now apply list_set_Forall.
Qed.

Lemma px_write_ok chans px : rgba_ok px -> bytes_ok (px_write chans px).
Proof.
  intros (Hr & Hg & Hb & Ha). unfold px_write.
  destruct (chans =? 4); repeat first [apply Forall_nil | apply Forall_cons];
    assumption.
Qed.

Lemma px_write_length chans px :
  chans = 3 \/ chans = 4 -> Z.of_nat (length (px_write chans px)) = chans.
Proof. intros [-> | ->]; reflexivity. Qed.

Lemma dec_iter_output n bytes chunks_len chans :
  bytes_ok bytes -> chans = 3 \/ chans = 4 ->
  forall st,
  rgba_ok (d_px st) /\ Forall rgba_ok (d_index st) ->
  bytes_ok (snd (dec_iter n bytes chunks_len chans st)) /\
  Z.of_nat (length (snd (dec_iter n bytes chunks_len chans st)))
  = Z.of_nat n * chans.
Proof.
  intros Hb Hc. induction n as [|n IH]; intros st Hok.
  - split; [constructor|reflexivity].
  - cbn [dec_iter].
    pose proof (dec_step_ok bytes chunks_len st Hb Hok) as Hok1.
    destruct (IH _ Hok1) as [IH1 IH2].
    destruct (dec_iter n bytes chunks_len chans (dec_step bytes chunks_len st))
      as [st2 out].
    cbn [snd] in *. split.
    + apply Forall_app. split; [apply px_write_ok, Hok1|exact IH1].
    + rewrite length_app, Nat2Z.inj_add, IH2, px_write_length by assumption. lia.
Qed.

Lemma dec_init_ok : rgba_ok (d_px dec_init) /\ Forall rgba_ok (d_index dec_init).
Proof.
  split; [unfold rgba_ok, is_byte; simpl; lia|].
  apply Forall_forall. intros x Hx. apply repeat_spec in Hx. subst.
  unfold rgba_ok, is_byte; simpl; lia.
Qed.

Lemma dec_header_valid_fields magic d :
  dec_header_invalid magic d = false ->
  width d <> 0 /\ height d <> 0 /\ (channels d = 3 \/ channels d = 4) /\
  colorspace d <= 2 /\ magic = QOI_MAGIC.
Proof.
  unfold dec_header_invalid. intros H.
  repeat (apply orb_false_iff in H as [H ?]).
  repeat match goal with
         | H : (_ =? _) = false |- _ => apply Z.eqb_neq in H
         | H : (_ <? _) = false |- _ => apply Z.ltb_ge in H
         | H : negb _ = false |- _ => apply negb_false_iff, Z.eqb_eq in H
         end.
  repeat split; auto; lia.
Qed.

Lemma be32_range a b c d :
  is_byte a -> is_byte b -> is_byte c -> is_byte d ->
  0 <= be32 a b c d < 2 ^ 32.
Proof.
  intros Ha Hb Hc Hd. rewrite be32_value by assumption.
  change (2 ^ 32) with 4294967296.
  change (2 ^ 24) with 16777216. change (2 ^ 16) with 65536.
  change (2 ^ 8) with 256. unfold is_byte in *. lia.
Qed.

Lemma decode_some_shape (bytes : list Z) (size chans0 : Z)
        (out : list Z) (d : qoi_desc) :
  bytes_ok bytes ->
  qoi_decode bytes size chans0 = Some (out, d) ->
  let chans := if chans0 =? 0 then channels d else chans0 in
  (1 <= width d < 2 ^ 32 /\ 1 <= height d < 2 ^ 32 /\
   (channels d = 3 \/ channels d = 4) /\ 0 <= colorspace d <= 2) /\
  (chans = 3 \/ chans = 4) /\
  bytes_ok out /\
  Z.of_nat (length out) = Z.of_nat (loop_count (dec_px_len d chans) chans) * chans /\
  (width d * height d * chans <= INT_MAX ->
   Z.of_nat (length out) = width d * height d * chans).
Proof.
  intros Hb Hdec chans. unfold qoi_decode in Hdec.
  destruct (dec_args_invalid size chans0) eqn:Ha; [discriminate|].
  pose proof (dec_header_bytes bytes) as Hhdr.
  destruct (dec_header bytes) as [magic d0].
  destruct (dec_header_invalid magic d0) eqn:Hh; [discriminate|].
  apply some_inj in Hdec.
  assert (d0 = d) by (apply (f_equal snd) in Hdec; exact Hdec). subst d0.
  assert (Hout : out = snd (dec_run bytes size d chans)).
  { apply (f_equal fst) in Hdec. cbn [fst] in Hdec. symmetry. exact Hdec. }
  clear Hdec.
  pose proof (dec_valid_channels _ _ _ _ Ha Hh) as Hc0. fold chans in Hc0.
  destruct (dec_header_valid_fields _ _ Hh) as (Hw & Hhh & Hch & Hcs & _).
  assert (Hfields : 0 <= width d < 2 ^ 32 /\ 0 <= height d < 2 ^ 32 /\
                    0 <= colorspace d).
  { injection Hhdr as _ Hd. rewrite Hd. cbn [width height colorspace].
    split; [|split].
    - apply be32_range; now apply byte_at_ok.
    - apply be32_range; now apply byte_at_ok.
    - apply (byte_at_ok bytes 13 Hb). }
  assert (Hchans : chans = 3 \/ chans = 4).
  { unfold chans, dec_args_invalid in *.
    destruct (chans0 =? 0) eqn:E0; [exact Hch|].
    apply orb_false_iff in Ha as [Ha _].
    destruct (chans0 =? 3) eqn:E3; [apply Z.eqb_eq in E3; now left|].
    destruct (chans0 =? 4) eqn:E4; [apply Z.eqb_eq in E4; now right|].
    discriminate Ha. }
  rewrite dec_run_iter in Hout by exact Hc0.
  destruct (dec_iter_output (loop_count (dec_px_len d chans) chans) bytes
              (size - QOI_PADDING) chans Hb Hchans dec_init dec_init_ok)
    as [Hok Hlen].
  rewrite <- Hout in Hok, Hlen.
  split; [repeat split; try lia; exact Hch|].
  split; [exact Hchans|]. split; [exact Hok|]. split; [exact Hlen|].
  intros Hfit. rewrite Hlen. unfold dec_px_len.
  rewrite loop_count_pixels; lia.
Qed.

Lemma in_block_cases {A : Type} (n : Z) (stores : list Z) (r : A) :
  (n < 0 /\ in_block n stores r = Null) \/
  (0 <= n < Z.of_nat (length stores) /\ in_block n stores r = Overrun) \/
  (Z.of_nat (length stores) <= n /\ in_block n stores r = Returned r).
Proof.
  unfold in_block. destruct (n <? 0) eqn:E.
  - apply Z.ltb_lt in E. left. now split.
  - apply Z.ltb_ge in E. right.
    destruct (n <? Z.of_nat (length stores)) eqn:E2.
    + apply Z.ltb_lt in E2. left. split; [lia|reflexivity].
    + apply Z.ltb_ge in E2. right. split; [lia|reflexivity].
Qed.

Lemma qoi_decode_block_returned bytes size chans0 out d :
  qoi_decode_block bytes size chans0 = Returned (out, d) ->
  qoi_decode bytes size chans0 = Some (out, d) /\
  Z.of_nat (length out)
  <= dec_px_len d (if chans0 =? 0 then channels d else chans0).
Proof.
  unfold qoi_decode_block.
  destruct (qoi_decode bytes size chans0) as [[out0 d0]|]; [|discriminate].
  cbv zeta.
  destruct (in_block_cases
              (dec_px_len d0 (if chans0 =? 0 then channels d0 else chans0))
              out0 (out0, d0)) as [[_ ->] | [[_ ->] | [Hle ->]]];
    try discriminate.
  intros H. injection H as -> ->. now split.
Qed.

(** The turns of the loop cover [px_len]: the last turn starts below it. *)
Lemma loop_count_cover px_len chans :
  0 < chans ->
  px_len <= Z.of_nat (loop_count px_len chans) * chans /\
  (Z.of_nat (loop_count px_len chans) * chans <= px_len <->
   0 <= px_len /\ px_len mod chans = 0).
Proof.
  intros Hc. unfold loop_count.
  destruct (px_len <=? 0) eqn:E.
  - apply Z.leb_le in E. change (Z.of_nat 0) with 0.
    split; [lia|]. split.
    + intros H. assert (px_len = 0) by lia. subst. now rewrite Z.mod_0_l by lia.
    + intros [H _]. lia.
  - apply Z.leb_gt in E.
    assert (Hq : 0 <= (px_len + chans - 1) / chans) by (apply Z.div_pos; lia).
    rewrite Z2Nat.id by exact Hq.
    pose proof (Z.div_mod (px_len + chans - 1) chans ltac:(lia)) as H1.
    pose proof (Z.mod_pos_bound (px_len + chans - 1) chans Hc) as H2.
    pose proof (Z.div_mod px_len chans ltac:(lia)) as H3.
    pose proof (Z.mod_pos_bound px_len chans Hc) as H4.
    set (q := (px_len + chans - 1) / chans) in *.
    set (r := (px_len + chans - 1) mod chans) in *.
    set (q' := px_len / chans) in *.
    set (r' := px_len mod chans) in *.
    clearbody q r q' r'. split; [nia|]. split.
    + intros H. split; [lia|].
      assert (Hr : r = chans - 1) by nia.
      assert (Hd : chans * (q - q') = r') by lia.
      assert (q - q' = 0) by nia. nia.
    + intros [_ H].
      assert (Hd : chans * (q' + 1 - q) = r + 1) by lia.
      assert (q' + 1 - q = 1) by nia. nia.
Qed.

(** X9. When the decoder returns a pixel buffer, having stored nothing
    past the end of its block, the descriptor it fills in has a width and a
    height between 1 and 2^32 - 1, 3 or 4 channels and a colorspace of at
    most 2; the block of [px_len] bytes is filled completely, with bytes,
    [px_len] is a multiple of the channel count, and it is
    [width * height * channels] when that fits an [int]. *)
Theorem decoder_result_shape (bytes : list Z) (size chans0 : Z)
        (out : list Z) (d : qoi_desc) :
  bytes_ok bytes ->
  qoi_decode_block bytes size chans0 = Returned (out, d) ->
  let chans := if chans0 =? 0 then channels d else chans0 in
  (1 <= width d < 2 ^ 32 /\ 1 <= height d < 2 ^ 32 /\
   (channels d = 3 \/ channels d = 4) /\ 0 <= colorspace d <= 2) /\
  (chans = 3 \/ chans = 4) /\
  bytes_ok out /\
  Z.of_nat (length out) = dec_px_len d chans /\
  dec_px_len d chans mod chans = 0 /\
  (width d * height d * chans <= INT_MAX ->
   dec_px_len d chans = width d * height d * chans).
Proof.
  intros Hb Hblk chans.
  destruct (qoi_decode_block_returned _ _ _ _ _ Hblk) as [Hdec Hle].
  fold chans in Hle.
  destruct (decode_some_shape _ _ _ _ _ Hb Hdec)
    as (Hfields & Hchans & Hok & Hlen & Hfit).
  fold chans in Hchans, Hlen, Hfit.
  destruct (loop_count_cover (dec_px_len d chans) chans ltac:(lia))
    as [Hcover Hexact].
  assert (Heq : Z.of_nat (length out) = dec_px_len d chans) by lia.
  split; [exact Hfields|]. split; [exact Hchans|]. split; [exact Hok|].
  split; [exact Heq|]. split.
  - apply Hexact. lia.
  - intros H. rewrite <- Heq. now apply Hfit.
Qed.

Lemma decoder_result_shape_witness :
  let bytes := [113; 111; 105; 102; 0; 0; 0; 1; 0; 0; 0; 3; 4; 0;
                0xFF; 10; 20; 30; 255; 0; 0; 0; 0; 0; 0; 0; 0] in
  let out := [10; 20; 30; 255; 10; 20; 30; 255; 10; 20; 30; 255] in
  Z.of_nat (length out) = dec_px_len (mk_desc 1 3 4 0) 4.
Proof.
  intros bytes out.
  refine (proj1 (proj2 (proj2 (proj2
    (decoder_result_shape bytes 27 4 out (mk_desc 1 3 4 0) _ _))))).
  - repeat constructor; unfold is_byte; lia.
  - reflexivity.
Defined.

(** X20. When the header is accepted, the decoder stores past the end of
    its pixel block exactly when [px_len], the wrapped
    [width * height * channels], is positive and not a multiple of the
    channel count: the last turn of the loop starts below [px_len] and
    stores a whole pixel.  It returns NULL exactly when [px_len] is
    negative. *)
Theorem decoder_overrun (bytes : list Z) (size chans0 : Z)
        (out : list Z) (d : qoi_desc) :
  qoi_decode bytes size chans0 = Some (out, d) ->
  let chans := if chans0 =? 0 then channels d else chans0 in
  (qoi_decode_block bytes size chans0 = Overrun <->
   0 < dec_px_len d chans /\ dec_px_len d chans mod chans <> 0) /\
  (qoi_decode_block bytes size chans0 = Null <-> dec_px_len d chans < 0).
Proof.
  intros Hdec chans.
  destruct (qoi_decode_length _ _ _ _ _ Hdec) as (_ & Hc & Hlen).
  fold chans in Hc, Hlen.
  destruct (loop_count_cover (dec_px_len d chans) chans ltac:(lia))
    as [Hcover Hexact].
  unfold qoi_decode_block. rewrite Hdec. fold chans.
  destruct (in_block_cases (dec_px_len d chans) out (out, d))
    as [[Hn ->] | [[Hn ->] | [Hn ->]]].
  - split; [split; [discriminate|intros [H _]; lia]|].
    split; [intros _; exact Hn|reflexivity].
  - split; [|split; [discriminate|lia]].
    split; [|reflexivity]. intros _. split.
    + destruct (Z.eq_dec (dec_px_len d chans) 0) as [E|]; [|lia].
      rewrite E in *. change (loop_count 0 chans) with O in Hlen. lia.
    + intros Hm.
      assert (Z.of_nat (loop_count (dec_px_len d chans) chans) * chans
              <= dec_px_len d chans) by (apply Hexact; lia).
      lia.
  - split; [|split; [discriminate|lia]].
    split; [discriminate|].
    intros [Hpos Hm]. exfalso. apply Hm. apply Hexact. lia.
Qed.

Lemma decoder_overrun_witness :
  qoi_decode_block
    ([113; 111; 105; 102; 85; 85; 85; 86; 0; 0; 0; 1; 3; 0] ++ padding) 22 3
  = Overrun.
Proof.
  refine (proj2 (proj1 (decoder_overrun
    ([113; 111; 105; 102; 85; 85; 85; 86; 0; 0; 0; 1; 3; 0] ++ padding) 22 3
    [0; 0; 0] (mk_desc 1431655766 1 3 0) _)) _).
  - reflexivity.
  - vm_compute. split; [reflexivity|discriminate].
Defined.

(** ** The run counter and the cursor of the decoder *)

Lemma run_tag_low6 b :
  is_byte b -> Z.land b QOI_MASK_2 = QOI_OP_RUN ->
  b <> QOI_OP_RGB -> b <> QOI_OP_RGBA ->
  0 <= Z.land b 0x3f <= 61.
Proof.
  unfold is_byte. intros Hb.
  assert (Hk : 0 <= b < Z.of_nat 256) by (simpl; lia).
  revert Hk. clear. revert b.
  each_below
    ltac:(intros H1 H2 H3; vm_compute in H1, H2, H3;
          first [ discriminate H1 | congruence
                | vm_compute; split; discriminate ]).
Qed.

Lemma dec_step_bounds bytes chunks_len st :
  bytes_ok bytes ->
  0 <= d_run st <= 61 /\ 14 <= d_p st /\ (d_p st <= chunks_len + 4 \/ d_p st = 14) ->
  let st' := dec_step bytes chunks_len st in
  0 <= d_run st' <= 61 /\ 14 <= d_p st' /\
  (d_p st' <= chunks_len + 4 \/ d_p st' = 14).
Proof.
  intros Hb (Hrun & Hp & Hmax). cbv zeta. unfold dec_step.
  destruct (0 <? d_run st) eqn:E.
  - apply Z.ltb_lt in E. cbn [d_run d_p]. repeat split; lia.
  - apply Z.ltb_ge in E.
    destruct (d_p st <? chunks_len) eqn:E2; [|repeat split; lia].
    apply Z.ltb_lt in E2.
    destruct (dec_chunk_shape bytes st) as (p1 & px1 & run1 & rd & Heq & Hp1 & _).
    assert (Hrun1 : 0 <= d_run (dec_chunk bytes st) <= 61).
    { pose proof (byte_at_ok bytes (d_p st) Hb) as Hbyte. unfold dec_chunk.
      destruct (byte_at bytes (d_p st) =? QOI_OP_RGB) eqn:T1; [cbn [d_run]; lia|].
      destruct (byte_at bytes (d_p st) =? QOI_OP_RGBA) eqn:T2; [cbn [d_run]; lia|].
      apply Z.eqb_neq in T1, T2.
      repeat match goal with
             | |- context [if ?c then _ else _] => destruct c eqn:?
             end; cbn [d_run]; try lia.
      apply run_tag_low6; try assumption. now apply Z.eqb_eq. }
    rewrite Heq in *. cbn [d_run d_p] in *. repeat split; lia.
Qed.

(** X10. On a buffer of bytes, after any number of turns of the decoder's
    pixel loop and at the exit of the loop of [qoi_decode], the run counter
    is between 0 and 61 (a QOI_OP_RUN chunk stands for at most 62 pixels)
    and the cursor is at least 14 and at most [size - 4]. *)
Theorem decoder_state_bounds (bytes : list Z) (size chans : Z) (n : nat) :
  bytes_ok bytes -> QOI_HEADER_SIZE + QOI_PADDING <= size ->
  let inb st := 0 <= d_run st <= 61 /\ 14 <= d_p st <= size - 4 in
  inb (fst (dec_iter n bytes (size - QOI_PADDING) chans dec_init)) /\
  forall d, inb (fst (dec_run bytes size d chans)).
Proof.
  intros Hb Hsize inb. unfold QOI_HEADER_SIZE, QOI_PADDING in *.
  set (P := fun st => 0 <= d_run st <= 61 /\ 14 <= d_p st /\
                      (d_p st <= size - 8 + 4 \/ d_p st = 14)).
  assert (Hstep : forall st, P st -> P (dec_step bytes (size - 8) st)).
  { intros st HP. now apply dec_step_bounds. }
  assert (Hinit : P dec_init) by (unfold P; simpl; lia).
  assert (Himp : forall st, P st -> inb st).
  { unfold P, inb. intros st (H1 & H2 & H3). lia. }
  split.
  - apply Himp. now apply dec_iter_invariant.
  - intros d. apply Himp. unfold dec_run. now apply dec_loop_invariant.
Qed.

Lemma decoder_state_bounds_witness :
  0 <= d_run (fst (dec_iter 1
                     [113; 111; 105; 102; 0; 0; 0; 1; 0; 0; 0; 3; 4; 0;
                      0xFD; 0; 0; 0; 0; 0; 0; 0; 0] (23 - QOI_PADDING) 4 dec_init))
  <= 61.
Proof.
  refine (proj1 (proj1 (decoder_state_bounds _ 23 4 1 _ _))).
  - repeat constructor; unfold is_byte; lia.
  - vm_compute. discriminate.
Defined.

(** ** A file with no chunk *)

Lemma px_write_zero_zeros chans n :
  Forall (fun x => x = 0) (flat_map (px_write chans) (repeat px_zero n)).
Proof.
  induction n as [|n IH]; [constructor|].
  cbn [repeat flat_map]. apply Forall_app. split; [|exact IH].
  unfold px_write. destruct (chans =? 4); repeat constructor.
Qed.

Lemma decode_header_only_some (bytes : list Z) (size chans0 : Z) :
  dec_args_invalid size chans0 = false ->
  dec_header_invalid (fst (dec_header bytes)) (snd (dec_header bytes)) = false ->
  size <= QOI_HEADER_SIZE + QOI_PADDING ->
  exists out,
    qoi_decode bytes size chans0 = Some (out, snd (dec_header bytes)) /\
    Forall (fun x => x = 0) out.
Proof.
  intros Ha Hh Hsize.
  pose proof (dec_valid_channels _ _ _ _ Ha Hh) as Hc.
  unfold qoi_decode. rewrite Ha.
  destruct (dec_header bytes) as [magic d]. cbn [fst snd] in *. rewrite Hh.
  eexists. split; [reflexivity|].
  rewrite dec_run_iter by exact Hc.
  rewrite dec_iter_exhausted
    by (unfold QOI_HEADER_SIZE, QOI_PADDING in *; simpl; lia).
  apply px_write_zero_zeros.
Qed.

(** X11. A stream that holds nothing but a valid header and the padding
    (size 22), of an image whose [width * height * channels] fits an
    [int], decodes without an error to the full buffer of
    [width * height] pixels, whose bytes are all 0. *)
Theorem decode_header_only (bytes : list Z) (size chans0 : Z) :
  bytes_ok bytes ->
  dec_args_invalid size chans0 = false ->
  dec_header_invalid (fst (dec_header bytes)) (snd (dec_header bytes)) = false ->
  size <= QOI_HEADER_SIZE + QOI_PADDING ->
  let d := snd (dec_header bytes) in
  let chans := if chans0 =? 0 then channels d else chans0 in
  width d * height d * chans <= INT_MAX ->
  exists out,
    qoi_decode_block bytes size chans0 = Returned (out, d) /\
    Forall (fun x => x = 0) out /\
    Z.of_nat (length out) = width d * height d * chans.
Proof.
  intros Hb Ha Hh Hsize d chans Hfit.
  destruct (decode_header_only_some bytes size chans0 Ha Hh Hsize)
    as (out & Hdec & Hz).
  destruct (decode_block_returned _ _ _ _ _ Hb Hdec Hfit) as (_ & Hlen & Hblk).
  exists out. split; [exact Hblk|]. split; [exact Hz|exact Hlen].
Qed.

Lemma decode_header_only_witness :
  exists out,
    qoi_decode_block (hdr 2 2 3 1 ++ padding) 22 0
    = Returned (out, mk_desc 2 2 3 1) /\
    Forall (fun x => x = 0) out /\
    Z.of_nat (length out) = 2 * 2 * 3.
Proof.
  apply (decode_header_only (hdr 2 2 3 1 ++ padding) 22 0).
  - repeat constructor; unfold is_byte; lia.
  - reflexivity.
  - reflexivity.
  - vm_compute; discriminate.
  - vm_compute; discriminate.
Defined.

(** ** The predictor state shared by encoder and decoder *)

Lemma fst_dec_iter_app a b bytes chunks_len co st :
  fst (dec_iter (a + b) bytes chunks_len co st)
  = fst (dec_iter b bytes chunks_len co (fst (dec_iter a bytes chunks_len co st))).
Proof.
  rewrite dec_iter_app.
  destruct (dec_iter a bytes chunks_len co st) as [st1 o1]. cbn [fst snd].
  destruct (dec_iter b bytes chunks_len co st1) as [st2 o2]. reflexivity.
Qed.

(** At the end of the chunks of the encoder's remaining [n] turns the
    decoder holds the encoder's pixel and index, with no run pending. *)
Lemma codec_sync_state pixels chans co px_end chunks_len bytes :
  bytes_ok pixels -> 0 < chans ->
  forall n px_pos es ds,
  enc_inv es ->
  px_pos + Z.of_nat n * chans = px_end + chans ->
  (0 < e_run es -> n <> O) ->
  bytes_at bytes (d_p ds)
           (chunks_bytes (snd (enc_iter n pixels chans px_end px_pos es))) ->
  d_p ds + Z.of_nat (length (chunks_bytes
                               (snd (enc_iter n pixels chans px_end px_pos es))))
  <= chunks_len ->
  d_px ds = e_px_prev es -> d_index ds = e_index es -> d_run ds = 0 ->
  let es' := fst (enc_iter n pixels chans px_end px_pos es) in
  let ds' := fst (dec_iter (Z.to_nat (e_run es) + n) bytes chunks_len co ds) in
  d_p ds' = d_p ds + Z.of_nat (length (chunks_bytes
                        (snd (enc_iter n pixels chans px_end px_pos es)))) /\
  d_px ds' = e_px_prev es' /\ d_index ds' = e_index es' /\
  d_run ds' = 0 /\ e_run es' = 0.
Proof.
  intros Hb Hc.
  induction n as [|n IH];
    intros px_pos es ds Hinv Hpos Hrun0 Hat Hlen Hpx Hidx Hrun; cbv zeta.
  - destruct Hinv as (_ & Hr & _).
    assert (E : e_run es = 0).
    { destruct (Z.eq_dec (e_run es) 0); [assumption|].
      exfalso. apply Hrun0; [lia|reflexivity]. }
    rewrite E. simpl. rewrite Z.add_0_r. auto.
  - cbn [enc_iter] in *.
    pose proof (enc_step_cases pixels chans px_end px_pos es Hb Hinv) as Hcases.
    pose proof (enc_step_inv pixels chans px_end px_pos es Hb Hinv) as Hinv1.
    assert (Hdinv : dec_inv ds).
    { destruct Hinv as (_ & _ & Hl & _ & _ & Hs).
      split; rewrite Hidx; [assumption|]. rewrite Hpx. exact Hs. }
    assert (Hokp : rgba_ok (e_px_prev es)) by apply Hinv.
    assert (Hok : rgba_ok (enc_read pixels chans px_pos (e_px es))).
    { apply enc_read_ok; [assumption|].
      destruct Hinv as (-> & _). assumption. }
    assert (Hr : 0 <= e_run es < 62) by apply Hinv.
    cbv zeta in Hcases.
    set (px := enc_read pixels chans px_pos (e_px es)) in *.
    destruct Hcases
      as [(E & H62 & Hend & Hstep) | [(E & Hstep) | (Hne & c & Hstep & Hc')]];
      rewrite Hstep in *; cbn [fst] in Hinv1.
    + specialize (IH (px_pos + chans) _ ds Hinv1).
      destruct (enc_iter n pixels chans px_end (px_pos + chans) _)
        as [st2 cs2].
      cbn [fst snd app e_run e_px_prev e_px e_index] in *.
      replace (Z.to_nat (e_run es) + S n)%nat
        with (Z.to_nat (e_run es + 1) + n)%nat by lia.
      apply IH; try assumption; try lia; congruence.
    + destruct (enc_iter n pixels chans px_end (px_pos + chans) _)
        as [st2 cs2] eqn:Eiter.
      cbn [fst snd app] in *.
      change (chunks_bytes (ChRun (run_byte (e_run es + 1)) :: cs2))
        with (run_byte (e_run es + 1) :: chunks_bytes cs2) in *.
      cbn [length] in *.
      apply bytes_at_cons in Hat as [Hb1 Hat].
      pose proof (dec_run_chunk (e_run es + 1) bytes chunks_len co ds
                    ltac:(lia) Hb1 Hrun ltac:(lia) Hdinv) as Hdec.
      cbv zeta in Hdec. destruct Hdec as (H1 & H2 & H3 & H4 & _).
      replace (Z.to_nat (e_run es) + S n)%nat
        with (Z.to_nat (e_run es + 1) + n)%nat by lia.
      rewrite fst_dec_iter_app.
      specialize (IH (px_pos + chans) _
                     (fst (dec_iter (Z.to_nat (e_run es + 1)) bytes chunks_len co ds))
                     Hinv1).
      rewrite Eiter in IH.
      cbn [fst snd e_run e_px_prev e_px e_index] in IH.
      change (Z.to_nat 0 + n)%nat with n in IH.
      rewrite H1 in IH.
      destruct IH as (G1 & G2 & G3 & G4 & G5);
        try lia; try congruence; try assumption.
      repeat split; try assumption. lia.
    + destruct (enc_iter n pixels chans px_end (px_pos + chans) _)
        as [st2 cs2] eqn:Eiter.
      cbn [fst snd] in *.
      rewrite !chunks_bytes_app, chunks_bytes_one in *.
      rewrite <- app_assoc in Hat, Hlen.
      apply bytes_at_app in Hat as [Hat1 Hat].
      apply bytes_at_app in Hat as [Hat2 Hat3].
      rewrite !length_app in *.
      pose proof (chunk_bytes_nonempty c) as Hcne.
      pose proof (dec_flush (e_run es) bytes chunks_len co ds ltac:(lia)
                    Hat1 Hrun ltac:(lia) Hdinv) as Hdec.
      cbv zeta in Hdec. destruct Hdec as (H1 & H2 & H3 & H4 & _).
      set (ds1 := fst (dec_iter (Z.to_nat (e_run es)) bytes chunks_len co ds)) in *.
      replace (Z.to_nat (e_run es) + S n)%nat
        with (Z.to_nat (e_run es) + (1 + n))%nat by lia.
      rewrite fst_dec_iter_app. fold ds1. rewrite fst_dec_iter_app.
      assert (Hstep1 : dec_step bytes chunks_len ds1 = dec_chunk bytes ds1).
      { apply dec_step_reads_chunk. split; lia. }
      pose proof (dec_chunk_new_pixel bytes ds1 px c Hok) as Hch.
      rewrite H2, H3, Hpx, Hidx, H1 in Hch.
      specialize (Hch Hokp Hc' Hat2). cbv zeta in Hch.
      destruct Hch as (G1 & G2 & G3 & G4).
      cbn [dec_iter fst snd]. rewrite Hstep1.
      specialize (IH (px_pos + chans) _ (dec_chunk bytes ds1) Hinv1).
      rewrite Eiter in IH.
      cbn [fst snd e_run e_px_prev e_px e_index] in IH.
      change (Z.to_nat 0 + n)%nat with n in IH.
      rewrite G1 in IH.
      destruct IH as (K1 & K2 & K3 & K4 & K5);
        try lia; try congruence; try assumption.
      repeat split; try assumption. lia.
Qed.

Lemma enc_loop_as_iter data d :
  desc_wf d -> desc_invalid d = false ->
  width d * height d * channels d <= INT_MAX ->
  let n := Z.to_nat (width d * height d) in
  Z.of_nat n = width d * height d /\
  enc_px_len d = Z.of_nat n * channels d /\
  enc_chunks data d
  = snd (enc_iter n data (channels d) (enc_px_len d - channels d) 0 enc_init) /\
  enc_final data d
  = fst (enc_iter n data (channels d) (enc_px_len d - channels d) 0 enc_init).
Proof.
  intros (Hw & Hh & Hch & Hcs) Hvalid Hfit n.
  destruct (desc_valid_fields d Hvalid) as (Hw0 & Hh0 & Hc & Hcs2).
  assert (Hc0 : 0 < channels d) by lia.
  assert (Hn : Z.of_nat n = width d * height d) by (unfold n; nia).
  assert (Hpxl : enc_px_len d = Z.of_nat n * channels d).
  { unfold enc_px_len.
    rewrite px_len_exact; [now rewrite Hn|lia|lia|lia|assumption]. }
  split; [exact Hn|]. split; [exact Hpxl|].
  unfold enc_chunks, enc_final.
  rewrite enc_loop_iter; try assumption.
  - rewrite Z.sub_0_r, Hpxl, loop_count_exact by assumption. now split.
  - rewrite Z.sub_0_r. now apply loop_count_fuel.
Qed.

(** The round trip with any trailer of at least 8 bytes, and the state in
    which it leaves the decoder. *)
Lemma roundtrip_state data d co post :
  desc_wf d -> desc_invalid d = false -> bytes_ok data ->
  co = 3 \/ co = 4 ->
  width d * height d * (channels d + 1) + QOI_HEADER_SIZE + QOI_PADDING <= INT_MAX ->
  width d * height d * co <= INT_MAX ->
  (8 <= length post)%nat ->
  let cb := chunks_bytes (enc_chunks data d) in
  let stream := enc_header d ++ cb ++ post in
  let size := Z.of_nat (length stream) in
  let ds := fst (dec_run stream size d co) in
  qoi_decode stream size co
  = Some (flat_map (px_write co)
            (enc_pxs (Z.to_nat (width d * height d)) data (channels d) 0 px_zero),
          d) /\
  d_p ds = QOI_HEADER_SIZE + Z.of_nat (length cb) /\
  d_px ds = e_px_prev (enc_final data d) /\
  d_index ds = e_index (enc_final data d) /\
  d_run ds = 0 /\ e_run (enc_final data d) = 0.
Proof.
  intros Hwf Hvalid Hdata Hco Hfit Hfit2 Hpost cb stream size ds.
  pose proof Hwf as (Hw & Hh & Hch & Hcs).
  destruct (desc_valid_fields d Hvalid) as (Hw0 & Hh0 & Hc & Hcs2).
  unfold QOI_HEADER_SIZE, QOI_PADDING in Hfit.
  assert (Hc0 : 0 < channels d) by lia.
  assert (Hco0 : 0 < co) by lia.
  destruct (enc_loop_as_iter data d Hwf Hvalid ltac:(unfold INT_MAX in *; nia))
    as (Hn & Hpxl & Hchunks & Hfinal).
  set (n := Z.to_nat (width d * height d)) in *.
  assert (Hdpxl : dec_px_len d co = Z.of_nat n * co).
  { unfold dec_px_len.
    rewrite px_len_exact; [now rewrite Hn|lia|lia|lia|lia]. }
  assert (Hsize : size = 14 + Z.of_nat (length cb) + Z.of_nat (length post)).
  { unfold size, stream. rewrite !length_app, enc_header_length. lia. }
  assert (Hrun : dec_run stream size d co
                 = dec_iter n stream (size - QOI_PADDING) co dec_init).
  { rewrite dec_run_iter by assumption.
    now rewrite Hdpxl, loop_count_exact by assumption. }
  pose proof (bytes_at_middle (enc_header d) cb post) as Hat.
  rewrite enc_header_length in Hat. fold stream in Hat.
  split.
  - unfold qoi_decode.
    assert (Hargs : dec_args_invalid size co = false).
    { unfold dec_args_invalid, QOI_HEADER_SIZE, QOI_PADDING.
      apply orb_false_iff. split.
      - destruct Hco as [-> | ->]; reflexivity.
      - apply Z.ltb_ge. lia. }
    rewrite Hargs. unfold stream at 1. rewrite header_roundtrip by assumption.
    fold stream.
    assert (Hhdr : dec_header_invalid QOI_MAGIC d = false).
    { unfold dec_header_invalid. unfold desc_invalid in Hvalid.
      rewrite Hvalid. reflexivity. }
    rewrite Hhdr.
    assert (Hco' : (if co =? 0 then channels d else co) = co).
    { destruct (co =? 0) eqn:E; [apply Z.eqb_eq in E; lia|reflexivity]. }
    rewrite Hco', Hrun. f_equal. f_equal.
    pose proof (codec_sync data (channels d) co (enc_px_len d - channels d)
                  (size - QOI_PADDING) stream Hdata Hc0 n 0 enc_init dec_init
                  enc_init_inv) as Hsync.
    rewrite <- Hchunks in Hsync. fold cb in Hsync.
    apply Hsync;
      first [ reflexivity | exact Hat
            | cbn [e_run enc_init d_p dec_init]; unfold QOI_PADDING; lia ].
  - unfold ds. rewrite Hrun, Hfinal.
    pose proof (codec_sync_state data (channels d) co (enc_px_len d - channels d)
                  (size - QOI_PADDING) stream Hdata Hc0 n 0 enc_init dec_init
                  enc_init_inv) as Hsync.
    rewrite <- Hchunks in Hsync. fold cb in Hsync. cbv zeta in Hsync.
    change (Z.to_nat (e_run enc_init) + n)%nat with n in Hsync.
    change (d_p dec_init) with 14 in Hsync.
    unfold QOI_HEADER_SIZE.
    apply Hsync;
      first [ reflexivity | exact Hat
            | cbn [e_run enc_init d_p dec_init]; unfold QOI_PADDING; lia ].
Qed.

Lemma pxs_same_bytes data c px :
  c = 3 \/ c = 4 ->
  forall n, Z.of_nat (length data) = Z.of_nat n * c ->
  flat_map (px_write c) (enc_pxs n data c 0 px) = data.
Proof.
  intros [-> | ->] n Hlen.
  - apply (pxs_rgb_bytes n [] data px). lia.
  - apply (pxs_rgba_bytes n [] data px). lia.
Qed.

Lemma pxs_narrow_bytes n :
  forall pre rest px,
  length rest = (4 * n)%nat ->
  flat_map (px_write 3)
           (enc_pxs n (pre ++ rest) 4 (Z.of_nat (length pre)) px)
  = narrow_rgba rest.
Proof.
  induction n as [|n IH]; intros pre rest px Hlen.
  - destruct rest; [reflexivity|discriminate].
  - destruct rest as [|r [|g [|b [|a rest]]]]; try (simpl in Hlen; lia).
    cbn [enc_pxs flat_map narrow_rgba]. unfold enc_read. cbn [Z.eqb Pos.eqb].
    unfold read_rgba.
    pose proof (bytes_at_middle pre [r; g; b; a] rest) as Hat.
    cbn [app] in Hat.
    apply bytes_at_cons in Hat as [-> Hat]. apply bytes_at_cons in Hat as [H1 Hat].
    apply bytes_at_cons in Hat as [H2 Hat]. apply bytes_at_cons in Hat as [H3 _].
    replace (Z.of_nat (length pre) + 2) with (Z.of_nat (length pre) + 1 + 1) by lia.
    replace (Z.of_nat (length pre) + 3)
      with (Z.of_nat (length pre) + 1 + 1 + 1) by lia.
    rewrite H1, H2, H3. cbn [px_write Z.eqb Pos.eqb px_r px_g px_b px_a app].
    do 3 f_equal.
    specialize (IH (pre ++ [r; g; b; a]) rest (mk_rgba r g b a)).
    rewrite <- app_assoc in IH. cbn [app] in IH.
    rewrite length_app in IH. cbn [length] in IH.
    replace (Z.of_nat (length pre) + 4) with (Z.of_nat (length pre + 4)) by lia.
    apply IH. simpl in Hlen. lia.
Qed.

(** ** The trailer *)

(** X12. The decoder does not look at the eight trailer bytes: with any
    trailer of at least 8 bytes, of any content, in place of the padding
    (the size still fitting an [int]), the chunks written by the encoder
    decode to the same pixels and descriptor. *)
Theorem decode_any_trailer (data : list Z) (d : qoi_desc) (post : list Z) :
  desc_wf d -> desc_invalid d = false -> bytes_ok data ->
  Z.of_nat (length data) = width d * height d * channels d ->
  width d * height d * (channels d + 1) + QOI_HEADER_SIZE + QOI_PADDING <= INT_MAX ->
  (8 <= length post)%nat ->
  let stream := enc_header d ++ chunks_bytes (enc_chunks data d) ++ post in
  Z.of_nat (length stream) <= INT_MAX ->
  qoi_decode stream (Z.of_nat (length stream)) (channels d) = Some (data, d).
Proof.
  intros Hwf Hvalid Hdata Hlen Hfit Hpost stream _.
  destruct (desc_valid_fields d Hvalid) as (Hw0 & Hh0 & Hc & _).
  pose proof Hwf as (Hw & Hh & _).
  assert (Hfit2 : width d * height d * channels d <= INT_MAX).
  { unfold QOI_HEADER_SIZE, QOI_PADDING, INT_MAX in *. nia. }
  destruct (roundtrip_state data d (channels d) post Hwf Hvalid Hdata Hc Hfit
              Hfit2 Hpost) as (Hdec & _).
  cbv zeta in Hdec. fold stream in Hdec. rewrite Hdec. do 2 f_equal.
  apply pxs_same_bytes; [exact Hc|]. nia.
Qed.

Lemma decode_any_trailer_witness :
  qoi_decode (hdr 1 2 4 0 ++ [0xFF; 10; 20; 30; 255; 0x77]
              ++ [1; 2; 3; 4; 5; 6; 7; 8; 9]) 29 4
  = Some ([10; 20; 30; 255; 11; 19; 31; 255], mk_desc 1 2 4 0).
Proof.
  apply (decode_any_trailer [10; 20; 30; 255; 11; 19; 31; 255] (mk_desc 1 2 4 0)
           [1; 2; 3; 4; 5; 6; 7; 8; 9]).
  - unfold desc_wf, is_byte; simpl; lia.
  - reflexivity.
  - repeat constructor; unfold is_byte; lia.
  - reflexivity.
  - vm_compute; discriminate.
  - simpl; lia.
  - vm_compute; discriminate.
Defined.

(** X13. After decoding the encoder's output the decoder has consumed
    exactly the chunks (its cursor is at [size - 8]), no run is pending on
    either side, and the decoder's current pixel and index are the
    encoder's previous pixel and index. *)
Theorem codec_final_state (data : list Z) (d : qoi_desc) (enc : list Z) (co : Z) :
  desc_wf d -> bytes_ok data ->
  qoi_encode data d = Some enc ->
  co = 3 \/ co = 4 ->
  width d * height d * (channels d + 1) + QOI_HEADER_SIZE + QOI_PADDING <= INT_MAX ->
  width d * height d * co <= INT_MAX ->
  let size := Z.of_nat (length enc) in
  let ds := fst (dec_run enc size d co) in
  d_p ds = size - QOI_PADDING /\
  d_run ds = 0 /\ e_run (enc_final data d) = 0 /\
  d_px ds = e_px_prev (enc_final data d) /\
  d_index ds = e_index (enc_final data d).
Proof.
  intros Hwf Hdata Henc Hco Hfit Hfit2 size ds. unfold qoi_encode in Henc.
  destruct (desc_invalid d) eqn:Hvalid; [discriminate|].
  apply some_inj in Henc.
  destruct (roundtrip_state data d co padding Hwf Hvalid Hdata Hco Hfit Hfit2
              ltac:(simpl; lia)) as (_ & H1 & H2 & H3 & H4 & H5).
  cbv zeta in H1, H2, H3, H4. rewrite Henc in H1, H2, H3, H4.
  fold size in H1, H2, H3, H4. fold ds in H1, H2, H3, H4.
  repeat split; try assumption.
  rewrite H1. unfold size. rewrite <- Henc, !length_app, enc_header_length.
  unfold padding, QOI_HEADER_SIZE, QOI_PADDING. simpl length. lia.
Qed.

Lemma codec_final_state_witness :
  let enc := hdr 1 2 4 0 ++ [0xFF; 10; 20; 30; 255; 0x77] ++ padding in
  d_p (fst (dec_run enc (Z.of_nat (length enc)) (mk_desc 1 2 4 0) 4))
  = Z.of_nat (length enc) - QOI_PADDING.
Proof.
  intros enc.
  refine (proj1 (codec_final_state [10; 20; 30; 255; 11; 19; 31; 255]
                   (mk_desc 1 2 4 0) enc 4 _ _ _ _ _ _)).
  - unfold desc_wf, is_byte; simpl; lia.
  - repeat constructor; unfold is_byte; lia.
  - reflexivity.
  - now right.
  - vm_compute; discriminate.
  - vm_compute; discriminate.
Defined.

(** ** Other output formats *)

(** X14. Decoding the encoding of a 4-channel buffer with 3 channels gives
    the buffer with the alpha byte of every pixel dropped. *)
Theorem narrow_roundtrip (data : list Z) (d : qoi_desc) :
  desc_wf d -> desc_invalid d = false -> channels d = 4 -> bytes_ok data ->
  Z.of_nat (length data) = width d * height d * 4 ->
  width d * height d * (channels d + 1) + QOI_HEADER_SIZE + QOI_PADDING <= INT_MAX ->
  exists enc,
    qoi_encode data d = Some enc /\
    qoi_decode enc (Z.of_nat (length enc)) 3 = Some (narrow_rgba data, d).
Proof.
  intros Hwf Hvalid Hch Hdata Hlen Hfit.
  pose proof Hwf as (Hw & Hh & _).
  destruct (roundtrip_pixels data d 3 Hwf Hvalid Hdata (or_introl eq_refl) Hfit)
    as (enc & Henc & _ & Hdec).
  { unfold QOI_HEADER_SIZE, QOI_PADDING, INT_MAX in *. rewrite Hch in Hfit. nia. }
  exists enc. split; [exact Henc|]. rewrite Hdec. do 2 f_equal. rewrite Hch.
  apply (pxs_narrow_bytes (Z.to_nat (width d * height d)) [] data px_zero). nia.
Qed.

Lemma narrow_roundtrip_witness :
  exists enc,
    qoi_encode [10; 20; 30; 255; 11; 19; 31; 7] (mk_desc 2 1 4 0) = Some enc /\
    qoi_decode enc (Z.of_nat (length enc)) 3
    = Some ([10; 20; 30; 11; 19; 31], mk_desc 2 1 4 0).
Proof.
  apply (narrow_roundtrip [10; 20; 30; 255; 11; 19; 31; 7] (mk_desc 2 1 4 0)).
  - unfold desc_wf, is_byte; simpl; lia.
  - reflexivity.
  - reflexivity.
  - repeat constructor; unfold is_byte; lia.
  - reflexivity.
  - vm_compute; discriminate.
Defined.

(** X15. Decoding the encoder's output with 0 channels gives back the pixel
    buffer in the format of the descriptor, with 3 channels as with 4. *)
Theorem roundtrip_default_channels (data : list Z) (d : qoi_desc) :
  desc_wf d -> desc_invalid d = false -> bytes_ok data ->
  Z.of_nat (length data) = width d * height d * channels d ->
  width d * height d * (channels d + 1) + QOI_HEADER_SIZE + QOI_PADDING <= INT_MAX ->
  exists enc,
    qoi_encode data d = Some enc /\
    qoi_decode enc (Z.of_nat (length enc)) 0 = Some (data, d).
Proof.
  intros Hwf Hvalid Hdata Hlen Hfit.
  destruct (desc_valid_fields d Hvalid) as (Hw0 & Hh0 & Hc & _).
  pose proof Hwf as (Hw & Hh & _).
  destruct (roundtrip_pixels data d (channels d) Hwf Hvalid Hdata Hc Hfit)
    as (enc & Henc & _ & Hdec).
  { unfold QOI_HEADER_SIZE, QOI_PADDING, INT_MAX in *. nia. }
  exists enc. split; [exact Henc|].
  assert (H12 : byte_at enc 12 = channels d).
  { unfold qoi_encode in Henc. rewrite Hvalid in Henc. apply some_inj in Henc.
    rewrite <- Henc, <- dec_header_channels, header_roundtrip by assumption.
    reflexivity. }
  rewrite qoi_decode_zero_channels, H12, Hdec. do 2 f_equal.
  apply pxs_same_bytes; [exact Hc|]. nia.
Qed.

Lemma roundtrip_default_channels_witness :
  exists enc,
    qoi_encode [10; 20; 30; 10; 20; 30; 200; 0; 7] (mk_desc 3 1 3 1) = Some enc /\
    qoi_decode enc (Z.of_nat (length enc)) 0
    = Some ([10; 20; 30; 10; 20; 30; 200; 0; 7], mk_desc 3 1 3 1).
Proof.
  apply (roundtrip_default_channels [10; 20; 30; 10; 20; 30; 200; 0; 7]
           (mk_desc 3 1 3 1)).
  - unfold desc_wf, is_byte; simpl; lia.
  - reflexivity.
  - repeat constructor; unfold is_byte; lia.
  - reflexivity.
  - vm_compute; discriminate.
Defined.

(** ** Losslessness *)

(** X16. The encoder is injective on pixel buffers: two buffers of the
    size the descriptor announces that have the same encoding are equal. *)
Theorem encode_injective (data1 data2 : list Z) (d : qoi_desc) (enc : list Z) :
  desc_wf d -> bytes_ok data1 -> bytes_ok data2 ->
  Z.of_nat (length data1) = width d * height d * channels d ->
  Z.of_nat (length data2) = width d * height d * channels d ->
  width d * height d * (channels d + 1) + QOI_HEADER_SIZE + QOI_PADDING <= INT_MAX ->
  qoi_encode data1 d = Some enc -> qoi_encode data2 d = Some enc ->
  data1 = data2.
Proof.
  intros Hwf Hd1 Hd2 Hl1 Hl2 Hfit He1 He2.
  assert (Hvalid : desc_invalid d = false).
  { unfold qoi_encode in He1. destruct (desc_invalid d); [discriminate|reflexivity]. }
  destruct (desc_valid_fields d Hvalid) as (Hw0 & Hh0 & Hc & _).
  pose proof Hwf as (Hw & Hh & _).
  assert (Hfit2 : width d * height d * channels d <= INT_MAX).
  { unfold QOI_HEADER_SIZE, QOI_PADDING, INT_MAX in *. nia. }
  destruct (roundtrip_pixels data1 d (channels d) Hwf Hvalid Hd1 Hc Hfit Hfit2)
    as (enc1 & E1 & _ & D1).
  destruct (roundtrip_pixels data2 d (channels d) Hwf Hvalid Hd2 Hc Hfit Hfit2)
    as (enc2 & E2 & _ & D2).
  assert (enc1 = enc) by congruence. assert (enc2 = enc) by congruence.
  subst enc1 enc2. rewrite D1 in D2. apply some_inj in D2.
  apply (f_equal fst) in D2. cbn [fst] in D2.
  rewrite !pxs_same_bytes in D2 by (try exact Hc; nia). exact D2.
Qed.

Lemma encode_injective_witness :
  [10; 20; 30; 255] = [10; 20; 30; 255].
Proof.
  apply (encode_injective [10; 20; 30; 255] [10; 20; 30; 255] (mk_desc 1 1 4 0)
           (hdr 1 1 4 0 ++ [0xFF; 10; 20; 30; 255] ++ padding)).
  - unfold desc_wf, is_byte; simpl; lia.
  - repeat constructor; unfold is_byte; lia.
  - repeat constructor; unfold is_byte; lia.
  - reflexivity.
  - reflexivity.
  - vm_compute; discriminate.
  - reflexivity.
  - reflexivity.
Defined.

(** ** The colorspace byte *)

Lemma list_set_nth_neq {A} (l : list A) n m x d :
  n <> m -> nth m (list_set l n x) d = nth m l d.
Proof.
  revert n m; induction l as [|h t IH]; intros [|n] [|m] Hne; simpl;
    try reflexivity; try contradiction.
  apply IH. congruence.
Qed.

Lemma byte_at_set_other bytes s i :
  i <> 13 -> byte_at (list_set bytes 13 s) i = byte_at bytes i.
Proof.
  intros Hi. unfold byte_at. apply list_set_nth_neq. lia.
Qed.

Lemma byte_at_set_same bytes s :
  (13 < length bytes)%nat -> byte_at (list_set bytes 13 s) 13 = s.
Proof. intros H. unfold byte_at. now apply list_set_nth_eq. Qed.

Lemma dec_chunk_agree b1 b2 st :
  (forall i, d_p st <= i -> byte_at b1 i = byte_at b2 i) ->
  dec_chunk b1 st = dec_chunk b2 st.
Proof.
  intros H. unfold dec_chunk.
  rewrite (H (d_p st)), (H (d_p st + 1)), (H (d_p st + 2)), (H (d_p st + 3)),
    (H (d_p st + 4)) by lia.
  reflexivity.
Qed.

Lemma dec_step_agree b1 b2 chunks_len st :
  (forall i, d_p st <= i -> byte_at b1 i = byte_at b2 i) ->
  dec_step b1 chunks_len st = dec_step b2 chunks_len st.
Proof.
  intros H. unfold dec_step. now rewrite (dec_chunk_agree b1 b2 st H).
Qed.

Lemma dec_step_cursor bytes chunks_len st :
  d_p st <= d_p (dec_step bytes chunks_len st).
Proof.
  unfold dec_step. destruct (0 <? d_run st); [cbn [d_p]; lia|].
  destruct (d_p st <? chunks_len); [|lia].
  destruct (dec_chunk_shape bytes st) as (p1 & px1 & run1 & rd & -> & Hp1 & _).
  cbn [d_p]. lia.
Qed.

Lemma dec_loop_agree b1 b2 chunks_len chans px_len lo :
  (forall i, lo <= i -> byte_at b1 i = byte_at b2 i) ->
  forall fuel px_pos st,
  lo <= d_p st ->
  dec_loop fuel b1 chunks_len chans px_len px_pos st
  = dec_loop fuel b2 chunks_len chans px_len px_pos st.
Proof.
  intros H. induction fuel as [|fuel IH]; intros px_pos st Hp; simpl;
    [reflexivity|].
  destruct (px_pos <? px_len); [|reflexivity].
  rewrite (dec_step_agree b1 b2 chunks_len st) by (intros i Hi; apply H; lia).
  rewrite IH; [reflexivity|].
  pose proof (dec_step_cursor b2 chunks_len st). lia.
Qed.

(** X17. The colorspace is purely informative.  Encoding with another
    accepted colorspace changes byte 13 of the output and nothing else;
    replacing byte 13 of a stream by another accepted value changes the
    colorspace of the decoded descriptor and nothing else. *)
Theorem colorspace_informative (s : Z) :
  s <= 2 ->
  (forall data d out,
     qoi_encode data d = Some out ->
     qoi_encode data (mk_desc (width d) (height d) (channels d) s)
     = Some (list_set out 13 s)) /\
  (forall bytes size chans out d,
     (13 < length bytes)%nat ->
     qoi_decode bytes size chans = Some (out, d) ->
     qoi_decode (list_set bytes 13 s) size chans
     = Some (out, mk_desc (width d) (height d) (channels d) s)).
Proof.
  intros Hs. split.
  - intros data d out Henc. unfold qoi_encode in *.
    destruct (desc_invalid d) eqn:Hv; [discriminate|].
    apply some_inj in Henc. subst out.
    assert (Hv' : desc_invalid (mk_desc (width d) (height d) (channels d) s)
                  = false).
    { unfold desc_invalid in *. cbn [width height channels colorspace].
      repeat (apply orb_false_iff in Hv as [Hv ?]).
      repeat (apply orb_false_iff; split); try assumption.
      apply Z.ltb_ge. lia. }
    rewrite Hv'. reflexivity.
  - intros bytes size chans out d Hlen Hdec. unfold qoi_decode in *.
    destruct (dec_args_invalid size chans); [discriminate|].
    rewrite dec_header_bytes in *.
    rewrite !byte_at_set_other by lia. rewrite byte_at_set_same by assumption.
    set (magic := be32 _ _ _ _) in *.
    set (w := be32 (byte_at bytes 4) _ _ _) in *.
    set (h := be32 (byte_at bytes 8) _ _ _) in *.
    set (c := byte_at bytes 12) in *.
    destruct (dec_header_invalid magic (mk_desc w h c (byte_at bytes 13))) eqn:Hh;
      [discriminate|].
    assert (Hh' : dec_header_invalid magic (mk_desc w h c s) = false).
    { unfold dec_header_invalid in *. cbn [width height channels colorspace] in *.
      repeat (apply orb_false_iff in Hh as [Hh ?]).
      repeat (apply orb_false_iff; split); try assumption.
      apply Z.ltb_ge. lia. }
    rewrite Hh'. apply some_inj in Hdec.
    assert (Hd : d = mk_desc w h c (byte_at bytes 13))
      by (apply (f_equal snd) in Hdec; symmetry; exact Hdec).
    apply (f_equal fst) in Hdec. cbn [fst] in Hdec.
    rewrite Hd. cbn [width height channels colorspace] in *.
    f_equal. f_equal. rewrite <- Hdec. unfold dec_run, dec_px_len.
    cbn [width height]. f_equal.
    apply (dec_loop_agree _ _ _ _ _ 14); [|simpl; lia].
    intros i Hi. apply byte_at_set_other. lia.
Qed.

Lemma colorspace_informative_witness :
  qoi_encode [0; 0; 0; 0] (mk_desc 1 1 4 1)
  = Some (list_set (hdr 1 1 4 0 ++ [0xC0] ++ padding) 13 1).
Proof.
  refine (proj1 (colorspace_informative 1 _) [0; 0; 0; 0] (mk_desc 1 1 4 0) _ _).
  - lia.
  - reflexivity.
Defined.

(** ** Run-length behaviour *)

Lemma byte_at_zeros data i :
  Forall (fun x => x = 0) data -> byte_at data i = 0.
Proof.
  intros H. unfold byte_at.
  destruct (Nat.lt_ge_cases (Z.to_nat i) (length data)) as [Hlt | Hge].
  - rewrite Forall_forall in H. apply H. now apply nth_In.
  - now apply nth_overflow.
Qed.

Lemma enc_read_zeros data chans px_pos :
  Forall (fun x => x = 0) data ->
  enc_read data chans px_pos px_zero = px_zero.
Proof.
  intros H. unfold enc_read, read_rgba, read_rgb.
  rewrite !(byte_at_zeros data) by assumption.
  destruct (chans =? 4); reflexivity.
Qed.

Lemma enc_step_zeros data chans px_end px_pos idx r :
  Forall (fun x => x = 0) data ->
  enc_step data chans px_end px_pos (mk_enc idx r px_zero px_zero)
  = if (r + 1 =? 62) || (px_pos =? px_end)
    then (mk_enc idx 0 px_zero px_zero, [ChRun (run_byte (r + 1))])
    else (mk_enc idx (r + 1) px_zero px_zero, []).
Proof.
  intros H. unfold enc_step. cbn [e_px e_px_prev e_run e_index].
  rewrite enc_read_zeros by assumption. rewrite Z.eqb_refl. reflexivity.
Qed.

Lemma enc_iter_zeros data chans px_end :
  Forall (fun x => x = 0) data -> 0 < chans ->
  forall m px_pos idx r,
  0 <= r < 62 ->
  px_end = px_pos + Z.of_nat m * chans ->
  let cs := snd (enc_iter (S m) data chans px_end px_pos
                          (mk_enc idx r px_zero px_zero)) in
  Forall (fun c => exists b, c = ChRun b) cs /\
  Z.of_nat (length (chunks_bytes cs)) = (r + Z.of_nat m + 62) / 62.
Proof.
  intros Hz Hc. induction m as [|m IH]; intros px_pos idx r Hr Hend cs; subst cs.
  - cbn [enc_iter]. rewrite enc_step_zeros by assumption.
    replace (px_pos =? px_end) with true by (symmetry; apply Z.eqb_eq; lia).
    rewrite orb_true_r. cbn [snd app chunks_bytes flat_map chunk_bytes length].
    split; [repeat constructor; eexists; reflexivity|].
    change (Z.of_nat 0) with 0. change (Z.of_nat 1) with 1.
    Z.div_mod_to_equations. lia.
  - change (enc_iter (S (S m)) data chans px_end px_pos
                     (mk_enc idx r px_zero px_zero))
      with (let '(st1, cs1) :=
              enc_step data chans px_end px_pos (mk_enc idx r px_zero px_zero) in
            let '(st2, cs2) :=
              enc_iter (S m) data chans px_end (px_pos + chans) st1 in
            (st2, cs1 ++ cs2)).
    rewrite enc_step_zeros by assumption.
    replace (px_pos =? px_end) with false by (symmetry; apply Z.eqb_neq; nia).
    rewrite orb_false_r.
    destruct (r + 1 =? 62) eqn:E.
    + apply Z.eqb_eq in E.
      destruct (IH (px_pos + chans) idx 0) as [H1 H2]; [lia | lia |].
      destruct (enc_iter (S m) data chans px_end (px_pos + chans)
                         (mk_enc idx 0 px_zero px_zero)) as [st2 cs2].
      cbn [snd] in *. split.
      * constructor; [eexists; reflexivity | exact H1].
      * rewrite chunks_bytes_app, length_app, Nat2Z.inj_add, H2, chunks_bytes_one.
        cbn [chunk_bytes length]. change (Z.of_nat 1) with 1.
        rewrite Nat2Z.inj_succ. Z.div_mod_to_equations. lia.
    + apply Z.eqb_neq in E.
      destruct (IH (px_pos + chans) idx (r + 1)) as [H1 H2]; [lia | lia |].
      destruct (enc_iter (S m) data chans px_end (px_pos + chans)
                         (mk_enc idx (r + 1) px_zero px_zero)) as [st2 cs2].
      cbn [snd app] in *. split; [exact H1|].
      rewrite H2, Nat2Z.inj_succ. f_equal. lia.
Qed.

(** X18. An image whose bytes are all zero is encoded with QOI_OP_RUN
    chunks only, one byte for every 62 pixels (rounded up): the first pixel
    already repeats the initial previous pixel {0,0,0,0}, the run is cut
    at 62 and flushed at the last pixel. *)
Theorem zero_image_runs (data : list Z) (d : qoi_desc) (out : list Z) :
  desc_wf d ->
  width d * height d * channels d <= INT_MAX ->
  Forall (fun x => x = 0) data ->
  Z.of_nat (length data) = width d * height d * channels d ->
  qoi_encode data d = Some out ->
  Forall (fun c => exists b, c = ChRun b) (enc_chunks data d) /\
  Z.of_nat (length out) = 22 + (width d * height d + 61) / 62.
Proof.
  intros Hwf Hfit Hz Hlen Henc. unfold qoi_encode in Henc.
  destruct (desc_invalid d) eqn:Hv; [discriminate|].
  apply some_inj in Henc. subst out.
  destruct (enc_loop_as_iter data d Hwf Hv Hfit) as (Hn & Hpx & Hcs & _).
  destruct (desc_valid_fields d Hv) as (Hw0 & Hh0 & Hc & _).
  destruct Hwf as (Hw & Hh & _).
  remember (Z.to_nat (width d * height d)) as n eqn:En.
  destruct n as [|m]; [nia|].
  destruct (enc_iter_zeros data (channels d) (enc_px_len d - channels d) Hz
              ltac:(lia) m 0 index_zero 0) as [H1 H2]; [lia | lia |].
  change (mk_enc index_zero 0 px_zero px_zero) with enc_init in *.
  rewrite <- Hcs in *. split; [exact H1|].
  rewrite !length_app, enc_header_length, !Nat2Z.inj_add, H2.
  unfold padding; simpl length. rewrite <- Hn.
  change (Z.of_nat 14) with 14. change (Z.of_nat 8) with 8.
  rewrite Nat2Z.inj_succ. Z.div_mod_to_equations. lia.
Qed.

Lemma zero_image_runs_witness :
  Forall (fun c => exists b, c = ChRun b)
         (enc_chunks (repeat 0 (63 * 4)) (mk_desc 63 1 4 0)) /\
  Z.of_nat (length (hdr 63 1 4 0 ++ [0xFD; 0xC0] ++ padding))
  = 22 + (63 * 1 + 61) / 62.
Proof.
  apply (zero_image_runs (repeat 0 (63 * 4)) (mk_desc 63 1 4 0)).
  - unfold desc_wf, is_byte; simpl; lia.
  - vm_compute; discriminate.
  - apply Forall_forall. intros x Hx. now apply repeat_spec in Hx.
  - reflexivity.
  - reflexivity.
Defined.

(** ** Chunk tags *)

Lemma run_byte_tag run : 1 <= run <= 62 -> chunk_tag_ok (ChRun (run_byte run)).
Proof.
  intros H. destruct (run_byte_props run H) as (Hv & Hm & _).
  cbn [chunk_tag_ok]. unfold QOI_OP_RGB, QOI_OP_RGBA. repeat split; [exact Hm|lia..].
Qed.

Lemma enc_literal_tag px px_prev : chunk_tag_ok (enc_literal px px_prev).
Proof.
  unfold enc_literal.
  destruct (px_a px =? px_a px_prev); [|reflexivity].
  set (vr := s8 (px_r px - px_r px_prev)).
  set (vg := s8 (px_g px - px_g px_prev)).
  set (vb := s8 (px_b px - px_b px_prev)).
  destruct ((-3 <? vr) && (vr <? 2) && (-3 <? vg) && (vg <? 2) &&
            (-3 <? vb) && (vb <? 2)) eqn:E1.
  - repeat (apply andb_true_iff in E1 as [E1 ?]).
    repeat match goal with H : (_ <? _) = true |- _ => apply Z.ltb_lt in H end.
    cbn [chunk_tag_ok]. apply diff_byte_props; lia.
  - destruct ((-9 <? s8 (vr - vg)) && (s8 (vr - vg) <? 8) && (-33 <? vg) &&
              (vg <? 32) && (-9 <? s8 (vb - vg)) && (s8 (vb - vg) <? 8)) eqn:E2;
      [|reflexivity].
    repeat (apply andb_true_iff in E2 as [E2 ?]).
    repeat match goal with H : (_ <? _) = true |- _ => apply Z.ltb_lt in H end.
    cbn [chunk_tag_ok]. apply luma_b1_props. lia.
Qed.

Lemma enc_step_tags pixels chans px_end px_pos st :
  bytes_ok pixels -> enc_inv st ->
  Forall chunk_tag_ok (snd (enc_step pixels chans px_end px_pos st)).
Proof.
  intros Hb Hinv.
  pose proof (enc_step_cases pixels chans px_end px_pos st Hb Hinv) as Hcases.
  destruct Hinv as (_ & Hrun & _).
  cbv zeta in Hcases.
  destruct Hcases as [(_ & _ & _ & ->) | [(_ & ->) | (_ & c & -> & Hc)]];
    cbn [snd].
  - constructor.
  - constructor; [|constructor]. apply run_byte_tag. lia.
  - apply Forall_app. split.
    + destruct (0 <? e_run st) eqn:E; [|constructor].
      apply Z.ltb_lt in E. constructor; [|constructor]. apply run_byte_tag. lia.
    + constructor; [|constructor]. destruct Hc as [[-> _] | ->].
      * cbn [chunk_tag_ok].
        assert (Hh : 0 <= QOI_COLOR_HASH
                            (enc_read pixels chans px_pos (e_px st)) mod 64 < 64)
          by (apply Z.mod_pos_bound; lia).
        destruct (index_byte_props _ Hh) as [-> Hm]. exact Hm.
      * apply enc_literal_tag.
Qed.

Lemma enc_loop_tags fuel pixels chans px_len px_end :
  bytes_ok pixels ->
  forall px_pos st,
  enc_inv st ->
  Forall chunk_tag_ok (snd (enc_loop fuel pixels chans px_len px_end px_pos st)).
Proof.
  intros Hb. induction fuel as [|fuel IH]; intros px_pos st Hinv; simpl;
    [constructor|].
  destruct (px_pos <? px_len); [|constructor].
  pose proof (enc_step_inv pixels chans px_end px_pos st Hb Hinv) as Hinv1.
  pose proof (enc_step_tags pixels chans px_end px_pos st Hb Hinv) as Hok.
  destruct (enc_step pixels chans px_end px_pos st) as [st1 cs1].
  cbn [fst snd] in *. specialize (IH (px_pos + chans) st1 Hinv1).
  destruct (enc_loop fuel pixels chans px_len px_end (px_pos + chans) st1).
  cbn [snd] in *. apply Forall_app. split; assumption.
Qed.

(** X19. Every chunk the encoder writes starts with the tag of the branch
    that wrote it: 0xfe and 0xff for the two literal chunks, and under the
    mask 0xc0 the values 0x00, 0x40, 0x80 and 0xc0 for index, diff, luma and
    run chunks; a run byte is never 0xfe or 0xff. *)
Theorem encoder_chunk_tags (data : list Z) (d : qoi_desc) :
  bytes_ok data -> Forall chunk_tag_ok (enc_chunks data d).
Proof.
  intros Hb. unfold enc_chunks. apply enc_loop_tags; [exact Hb|apply enc_init_inv].
Qed.

Lemma encoder_chunk_tags_witness :
  Forall chunk_tag_ok (enc_chunks [10; 20; 30; 255] (mk_desc 1 1 4 0)).
Proof.
  apply encoder_chunk_tags. unfold bytes_ok, is_byte.
  repeat constructor; lia.
Defined.

(** ** The blocks within the sizes an [int] can hold *)

(** X21. When the worst-case output size fits an [int], neither call
    returns NULL or stores past the end of its block: the encoder returns
    its output from a block that holds it, and the decoder returns the
    original pixels from a block that they fill exactly. *)
Theorem roundtrip_blocks (data : list Z) (d : qoi_desc) :
  desc_wf d -> desc_invalid d = false -> bytes_ok data ->
  Z.of_nat (length data) = width d * height d * channels d ->
  width d * height d * (channels d + 1) + QOI_HEADER_SIZE + QOI_PADDING <= INT_MAX ->
  exists enc,
    qoi_encode_block data d = Returned enc /\
    Z.of_nat (length enc) <= enc_max_size d /\
    qoi_decode_block enc (Z.of_nat (length enc)) (channels d) = Returned (data, d) /\
    Z.of_nat (length data) = dec_px_len d (channels d).
Proof.
  intros Hwf Hvalid Hdata Hlen Hfit.
  destruct (desc_valid_fields d Hvalid) as (Hw0 & Hh0 & Hc & _).
  pose proof Hwf as (Hw & Hh & _).
  assert (Hfit2 : width d * height d * channels d <= INT_MAX)
    by (unfold QOI_HEADER_SIZE, QOI_PADDING, INT_MAX in *; nia).
  destruct (roundtrip_pixels data d (channels d) Hwf Hvalid Hdata Hc Hfit Hfit2)
    as (enc & Henc & _ & Hdec).
  rewrite pxs_same_bytes in Hdec by (try exact Hc; nia).
  assert (Hout : Z.of_nat (length enc) <= enc_max_size d).
  { rewrite enc_max_size_exact by assumption.
    unfold qoi_encode in Henc. rewrite Hvalid in Henc. apply some_inj in Henc.
    rewrite <- Henc. now apply enc_output_length. }
  assert (Hpx : dec_px_len d (channels d) = width d * height d * channels d)
    by (unfold dec_px_len; apply px_len_exact; lia).
  exists enc. split; [|split; [exact Hout|split; [|lia]]].
  - unfold qoi_encode_block. rewrite Henc. now apply in_block_returned.
  - unfold qoi_decode_block. rewrite Hdec.
    replace (if channels d =? 0 then channels d else channels d)
      with (channels d) by (destruct (channels d =? 0); reflexivity).
    apply in_block_returned. lia.
Qed.

Lemma roundtrip_blocks_witness :
  exists enc,
    qoi_encode_block [10; 20; 30; 10; 20; 30; 200; 0; 7] (mk_desc 3 1 3 1)
    = Returned enc /\
    Z.of_nat (length enc) <= enc_max_size (mk_desc 3 1 3 1) /\
    qoi_decode_block enc (Z.of_nat (length enc)) 3
    = Returned ([10; 20; 30; 10; 20; 30; 200; 0; 7], mk_desc 3 1 3 1) /\
    Z.of_nat (length [10; 20; 30; 10; 20; 30; 200; 0; 7])
    = dec_px_len (mk_desc 3 1 3 1) 3.
Proof.
  apply (roundtrip_blocks [10; 20; 30; 10; 20; 30; 200; 0; 7] (mk_desc 3 1 3 1)).
  - unfold desc_wf, is_byte; simpl; lia.
  - reflexivity.
  - repeat constructor; unfold is_byte; lia.
  - reflexivity.
  - vm_compute; discriminate.
Defined.
